(** * Graph stores of gonum/graph: sparse directed, sparse undirected, dense matrix

    A shallow embedding of [graph.Copy] (package graph), of
    [simple.DirectedGraph] (simple/directed.go), of [simple.UndirectedGraph]
    (simple/undirected.go) and of [simple.DirectedMatrix], followed by the
    properties of these stores.

    Conventions.
    - Go's [int], [int64] and [graph.NodeID] are [Z].  The only arithmetic the
      stores do on ids is [id + 1] under the guard [id < maxInt], which never
      wraps.
    - [float64] is Rocq's primitive binary64 [float].
    - A Go [map[int]V] is a [gmap Z V]; an [intsets.Sparse] is a [gset Z].
    - A method with a pointer receiver is a function from the store before the
      call to a [result]: the value returned and the store after the call, or
      the panic raised and the store as it was when the panic was raised.
    - Ranging over a Go map visits the keys in an unspecified order; the
      embedding visits them in the order of [map_to_list]. *)

From Stdlib Require Import ZArith List String Floats.PrimFloat.
From stdpp Require Import base option strings gmap sets list sorting.

Open Scope Z_scope.

(** ** Values shared by all stores *)

(** A [graph.Node]: a value with an [ID] method.  [label] stands for the rest
    of the dynamic value, so that two nodes with one id can differ. *)
Record Node : Type := mkNode { ID : Z; label : nat }.

(** A [graph.Edge] with non-nil end points: [From()], [To()], [Weight()]. *)
Record Edge : Type := mkEdge { F : Node; T : Node; W : float }.

(** The panics of the stores and of the runtime. *)
Inductive panic : Type :=
| NodeIDCollision (id : Z)   (* "simple: node ID collision: %d" *)
| SelfEdge                   (* "simple: adding self edge" *)
| IllegalEdge                (* "simple: set illegal edge" *)
| NoSlot                     (* "simple: cannot allocate node: no slot" *)
| Unreachable                (* "unreachable" *)
| NilMapWrite                (* runtime: assignment to entry in nil map *)
| NilDeref                   (* runtime: nil pointer dereference *)
| IndexOutOfRange            (* runtime: index out of range *)
| ErrShape                   (* mat64: "matrix: dimension mismatch" *)
| ErrRowAccess               (* mat64: "matrix: row index out of range" *)
| ErrColAccess.              (* mat64: "matrix: column index out of range" *)

(** ** Calls that change a store or panic *)

Inductive result (S A : Type) : Type :=
| Ok (a : A) (s : S)
| Panic (p : panic) (s : S).
Arguments Ok {S A} a s.
Arguments Panic {S A} p s.

Definition M (S A : Type) : Type := S -> result S A.

Definition ret {S A : Type} (a : A) : M S A := fun s => Ok a s.

Definition bind {S A B : Type} (m : M S A) (k : A -> M S B) : M S B :=
  fun s => match m s with
           | Ok a s' => k a s'
           | Panic p s' => Panic p s'
           end.

Definition throw {S A : Type} (p : panic) : M S A := fun s => Panic p s.

Notation "'do' x <- m 'in' k" := (bind m (fun x => k))
  (at level 10, x name, m at level 100, k at level 200).
Notation "'do_' m 'in' k" := (bind m (fun _ => k))
  (at level 10, m at level 100, k at level 200).

(** [for _, x := range xs { body x }] *)
Fixpoint forM_ {S A : Type} (xs : list A) (body : A -> M S unit) : M S unit :=
  match xs with
  | [] => ret tt
  | x :: xs' => do_ body x in forM_ xs' body
  end.

(** The store a call leaves behind, whether it returned or panicked. *)
Definition state_of {S A : Type} (r : result S A) : S :=
  match r with Ok _ s => s | Panic _ s => s end.

(** ** Two-level maps: [map[int]map[int]graph.Edge] *)

Section Adjacency.

(** [m[k1][k2]]: reading a missing (nil) inner map yields no entry. *)
Definition lookup2 (m : gmap Z (gmap Z Edge)) (k1 k2 : Z) : option Edge :=
  match m !! k1 with
  | Some inner => inner !! k2
  | None => None
  end.

(** [delete(m[k1], k2)]: deleting from a nil map does nothing. *)
Definition delete2 (k1 k2 : Z) (m : gmap Z (gmap Z Edge)) : gmap Z (gmap Z Edge) :=
  match m !! k1 with
  | Some inner => <[k1 := delete k2 inner]> m
  | None => m
  end.

(** [m[k1][k2] = e]: writing into a nil map panics ([None]). *)
Definition insert2 (k1 k2 : Z) (e : Edge) (m : gmap Z (gmap Z Edge))
  : option (gmap Z (gmap Z Edge)) :=
  match m !! k1 with
  | Some inner => Some (<[k1 := <[k2 := e]> inner]> m)
  | None => None
  end.

(** The keys of [m[k]], as [range m[k]] visits them; none for a nil map. *)
Definition keys2 (m : gmap Z (gmap Z Edge)) (k : Z) : list Z :=
  match m !! k with
  | Some inner => (map_to_list inner).*1
  | None => []
  end.

(** [len(m[k])] *)
Definition len2 (m : gmap Z (gmap Z Edge)) (k : Z) : nat :=
  match m !! k with
  | Some inner => size inner
  | None => 0%nat
  end.

(** [for k := range ks { delete(m[k], id) }] *)
Definition delete_all (id : Z) (ks : list Z) (m : gmap Z (gmap Z Edge))
  : gmap Z (gmap Z Edge) :=
  foldl (fun acc k => delete2 k id acc) m ks.

End Adjacency.

(** ** [intsets.Sparse] (golang.org/x/tools/container/intsets) *)

Module intsets.

(** The least element, if any. *)
Definition Min (s : gset Z) : option Z :=
  match elements s with
  | [] => None
  | x :: l => Some (foldr Z.min x l)
  end.

(** [TakeMin(&id)]: on a non-empty set, the least element and the set
    without it; on the empty set [false] ([None]). *)
Definition TakeMin (s : gset Z) : option (Z * gset Z) :=
  match Min s with
  | Some x => Some (x, s ∖ {[x]})
  | None => None
  end.

(** [Max()]: the greatest element, or [MinInt] for the empty set. *)
Definition Max (minInt : Z) (s : gset Z) : Z :=
  match elements s with
  | [] => minInt
  | x :: l => foldr Z.max x l
  end.

Definition Len (s : gset Z) : nat := size s.
Definition Has (x : Z) (s : gset Z) : bool := bool_decide (x ∈ s).
Definition Insert (x : Z) (s : gset Z) : gset Z := {[x]} ∪ s.
Definition Remove (x : Z) (s : gset Z) : gset Z := s ∖ {[x]}.

End intsets.

(** [for id = 0; id < maxInt; id++ { if !used.Has(id) { return id } }],
    started at [id] with [fuel] iterations left. *)
Fixpoint scan_unused (used : gset Z) (fuel : nat) (id : Z) : option Z :=
  match fuel with
  | O => None
  | S fuel' => if intsets.Has id used then scan_unused used fuel' (id + 1)
               else Some id
  end.

(** ** The sparse directed store (simple/directed.go) *)

Module DG.

Record DirectedGraph : Type := mkDirectedGraph {
  nodes : gmap Z Node;
  from : gmap Z (gmap Z Edge);
  to : gmap Z (gmap Z Edge);
  self : float;
  absent : float;
  freeIDs : gset Z;
  usedIDs : gset Z
}.

Definition NewDirectedGraph (self absent : float) : DirectedGraph :=
  mkDirectedGraph ∅ ∅ ∅ self absent ∅ ∅.

Definition set_nodes (v : gmap Z Node) (g : DirectedGraph) : DirectedGraph :=
  mkDirectedGraph v (from g) (to g) (self g) (absent g) (freeIDs g) (usedIDs g).
Definition set_from (v : gmap Z (gmap Z Edge)) (g : DirectedGraph) : DirectedGraph :=
  mkDirectedGraph (nodes g) v (to g) (self g) (absent g) (freeIDs g) (usedIDs g).
Definition set_to (v : gmap Z (gmap Z Edge)) (g : DirectedGraph) : DirectedGraph :=
  mkDirectedGraph (nodes g) (from g) v (self g) (absent g) (freeIDs g) (usedIDs g).
Definition set_freeIDs (v : gset Z) (g : DirectedGraph) : DirectedGraph :=
  mkDirectedGraph (nodes g) (from g) (to g) (self g) (absent g) v (usedIDs g).
Definition set_usedIDs (v : gset Z) (g : DirectedGraph) : DirectedGraph :=
  mkDirectedGraph (nodes g) (from g) (to g) (self g) (absent g) (freeIDs g) v.

Section Allocator.
(** [maxInt], the largest [int]; its declaration is not in the files at
    hand, so it is a parameter.  [MinInt] is [- maxInt - 1]. *)
Variable maxInt : Z.

Definition NewNodeID : M DirectedGraph Z := fun g =>
  if decide (size (nodes g) = 0%nat) then Ok 0 g
  else if decide (Z.of_nat (size (nodes g)) = maxInt) then Panic NoSlot g
  else
    match (if decide (intsets.Len (freeIDs g) = 0%nat) then None
           else intsets.TakeMin (freeIDs g)) with
    | Some (id, free') => Ok id (set_freeIDs free' g)
    | None =>
        let id := intsets.Max (- maxInt - 1) (usedIDs g) in
        if decide (id < maxInt) then Ok (id + 1) g
        else match scan_unused (usedIDs g) (Z.to_nat maxInt) 0 with
             | Some id' => Ok id' g
             | None => Panic Unreachable g
             end
    end.
End Allocator.

Definition Has (n : Z) (g : DirectedGraph) : bool := bool_decide (is_Some (nodes g !! n)).

Definition AddNode (n : Node) : M DirectedGraph unit := fun g =>
  let id := ID n in
  match nodes g !! id with
  | Some _ => Panic (NodeIDCollision id) g
  | None =>
      Ok tt (mkDirectedGraph (<[id := n]> (nodes g))
                             (<[id := ∅]> (from g))
                             (<[id := ∅]> (to g))
                             (self g) (absent g)
                             (intsets.Remove id (freeIDs g))
                             (intsets.Insert id (usedIDs g)))
  end.

Definition RemoveNode (id : Z) : M DirectedGraph unit := fun g =>
  match nodes g !! id with
  | None => Ok tt g
  | Some _ =>
      let nodes1 := delete id (nodes g) in
      let to1 := delete_all id (keys2 (from g) id) (to g) in
      let from1 := delete id (from g) in
      let from2 := delete_all id (keys2 to1 id) from1 in
      let to2 := delete id to1 in
      Ok tt (mkDirectedGraph nodes1 from2 to2 (self g) (absent g)
                             (intsets.Insert id (freeIDs g))
                             (intsets.Remove id (usedIDs g)))
  end.

Definition SetEdge (e : Edge) : M DirectedGraph unit :=
  let fid := ID (F e) in
  let tid := ID (T e) in
  if decide (fid = tid) then throw SelfEdge
  else
    do_ (fun g => if Has fid g then Ok tt g else AddNode (F e) g) in
    do_ (fun g => if Has tid g then Ok tt g else AddNode (T e) g) in
    do_ (fun g => match insert2 fid tid e (from g) with
                  | Some m => Ok tt (set_from m g)
                  | None => Panic NilMapWrite g
                  end) in
    (fun g => match insert2 tid fid e (to g) with
              | Some m => Ok tt (set_to m g)
              | None => Panic NilMapWrite g
              end).

Definition RemoveEdge (e : Edge) : M DirectedGraph unit := fun g =>
  let fid := ID (F e) in
  let tid := ID (T e) in
  match nodes g !! fid with
  | None => Ok tt g
  | Some _ =>
      match nodes g !! tid with
      | None => Ok tt g
      | Some _ =>
          Ok tt (set_to (delete2 tid fid (to g))
                   (set_from (delete2 fid tid (from g)) g))
      end
  end.

(** [Node(id)]: [g.nodes[id]], nil ([None]) when absent. *)
Definition Node_ (id : Z) (g : DirectedGraph) : option Node := nodes g !! id.

(** [Nodes()]: a slice of [len(g.from)] entries filled from [g.nodes];
    [inr IndexOutOfRange] when [g.nodes] has more entries than [g.from],
    trailing nil entries when it has fewer. *)
Definition Nodes (g : DirectedGraph) : panic + list (option Node) :=
  let ns := (map_to_list (nodes g)).*2 in
  if decide (length ns ≤ size (from g))%nat
  then inr ((Some <$> ns) ++ replicate (size (from g) - length ns) None)
  else inl IndexOutOfRange.

(** [From(n)]: the nodes [g.nodes[tid]] for the keys [tid] of [g.from[n]]. *)
Definition From (n : Z) (g : DirectedGraph) : list (option Node) :=
  match from g !! n with
  | None => []
  | Some inner => (fun tid => nodes g !! tid) <$> (map_to_list inner).*1
  end.

(** [To(n)]: guarded by [g.from[n]], filled from the keys of [g.to[n]]. *)
Definition To (n : Z) (g : DirectedGraph) : list (option Node) :=
  match from g !! n with
  | None => []
  | Some _ => (fun fid => nodes g !! fid) <$> keys2 (to g) n
  end.

Definition HasEdgeBetween (x y : Z) (g : DirectedGraph) : bool :=
  match nodes g !! x, nodes g !! y with
  | Some _, Some _ =>
      match lookup2 (from g) x y with
      | Some _ => true
      | None => bool_decide (is_Some (lookup2 (from g) y x))
      end
  | _, _ => false
  end.

Definition Edge_ (u v : Z) (g : DirectedGraph) : option Edge :=
  match nodes g !! u, nodes g !! v with
  | Some _, Some _ => lookup2 (from g) u v
  | _, _ => None
  end.

Definition HasEdgeFromTo (u v : Z) (g : DirectedGraph) : bool :=
  match nodes g !! u, nodes g !! v with
  | Some _, Some _ => bool_decide (is_Some (lookup2 (from g) u v))
  | _, _ => false
  end.

Definition Weight (x y : Z) (g : DirectedGraph) : float * bool :=
  if decide (x = y) then (self g, true)
  else match lookup2 (from g) x y with
       | Some e => (W e, true)
       | None => (absent g, false)
       end.

Definition Degree (n : Z) (g : DirectedGraph) : nat :=
  match nodes g !! n with
  | None => 0%nat
  | Some _ => (len2 (from g) n + len2 (to g) n)%nat
  end.

(** [Edges()]: for every node of the store, the values of its [from] map. *)
Definition Edges (g : DirectedGraph) : list Edge :=
  mjoin ((fun u => match from g !! ID u with
                   | Some inner => (map_to_list inner).*2
                   | None => []
                   end) <$> (map_to_list (nodes g)).*2).

End DG.

(** ** The sparse undirected store (simple/undirected.go) *)

Module UG.

Record UndirectedGraph : Type := mkUndirectedGraph {
  nodes : gmap Z Node;
  edges : gmap Z (gmap Z Edge);
  self : float;
  absent : float;
  freeIDs : gset Z;
  usedIDs : gset Z
}.

Definition NewUndirectedGraph (self absent : float) : UndirectedGraph :=
  mkUndirectedGraph ∅ ∅ self absent ∅ ∅.

Definition set_edges (v : gmap Z (gmap Z Edge)) (g : UndirectedGraph) : UndirectedGraph :=
  mkUndirectedGraph (nodes g) v (self g) (absent g) (freeIDs g) (usedIDs g).
Definition set_freeIDs (v : gset Z) (g : UndirectedGraph) : UndirectedGraph :=
  mkUndirectedGraph (nodes g) (edges g) (self g) (absent g) v (usedIDs g).

Section Allocator.
(** [maxInt], as for the directed store. *)
Variable maxInt : Z.

Definition NewNodeID : M UndirectedGraph Z := fun g =>
  if decide (size (nodes g) = 0%nat) then Ok 0 g
  else if decide (Z.of_nat (size (nodes g)) = maxInt) then Panic NoSlot g
  else
    match (if decide (intsets.Len (freeIDs g) = 0%nat) then None
           else intsets.TakeMin (freeIDs g)) with
    | Some (id, free') => Ok id (set_freeIDs free' g)
    | None =>
        let id := intsets.Max (- maxInt - 1) (usedIDs g) in
        if decide (id < maxInt) then Ok (id + 1) g
        else match scan_unused (usedIDs g) (Z.to_nat maxInt) 0 with
             | Some id' => Ok id' g
             | None => Panic Unreachable g
             end
    end.
End Allocator.

Definition Has (n : Z) (g : UndirectedGraph) : bool := bool_decide (is_Some (nodes g !! n)).

Definition AddNode (n : Node) : M UndirectedGraph unit := fun g =>
  let id := ID n in
  match nodes g !! id with
  | Some _ => Panic (NodeIDCollision id) g
  | None =>
      Ok tt (mkUndirectedGraph (<[id := n]> (nodes g))
                               (<[id := ∅]> (edges g))
                               (self g) (absent g)
                               (intsets.Remove id (freeIDs g))
                               (intsets.Insert id (usedIDs g)))
  end.

Definition RemoveNode (id : Z) : M UndirectedGraph unit := fun g =>
  match nodes g !! id with
  | None => Ok tt g
  | Some _ =>
      let nodes1 := delete id (nodes g) in
      let edges1 := delete_all id (keys2 (edges g) id) (edges g) in
      let edges2 := delete id edges1 in
      Ok tt (mkUndirectedGraph nodes1 edges2 (self g) (absent g)
                               (intsets.Insert id (freeIDs g))
                               (intsets.Remove id (usedIDs g)))
  end.

Definition SetEdge (e : Edge) : M UndirectedGraph unit :=
  let fid := ID (F e) in
  let tid := ID (T e) in
  if decide (fid = tid) then throw SelfEdge
  else
    do_ (fun g => if Has fid g then Ok tt g else AddNode (F e) g) in
    do_ (fun g => if Has tid g then Ok tt g else AddNode (T e) g) in
    do_ (fun g => match insert2 fid tid e (edges g) with
                  | Some m => Ok tt (set_edges m g)
                  | None => Panic NilMapWrite g
                  end) in
    (fun g => match insert2 tid fid e (edges g) with
              | Some m => Ok tt (set_edges m g)
              | None => Panic NilMapWrite g
              end).

Definition RemoveEdge (e : Edge) : M UndirectedGraph unit := fun g =>
  let fid := ID (F e) in
  let tid := ID (T e) in
  match nodes g !! fid with
  | None => Ok tt g
  | Some _ =>
      match nodes g !! tid with
      | None => Ok tt g
      | Some _ =>
          Ok tt (set_edges (delete2 tid fid (delete2 fid tid (edges g))) g)
      end
  end.

Definition Node_ (id : Z) (g : UndirectedGraph) : option Node := nodes g !! id.

Definition Nodes (g : UndirectedGraph) : list Node := (map_to_list (nodes g)).*2.

Definition From (n : Z) (g : UndirectedGraph) : list (option Node) :=
  if Has n g then (fun from => nodes g !! from) <$> keys2 (edges g) n
  else [].

Definition HasEdgeBetween (x y : Z) (g : UndirectedGraph) : bool :=
  bool_decide (is_Some (lookup2 (edges g) x y)).

Definition EdgeBetween (x y : Z) (g : UndirectedGraph) : option Edge :=
  if Has x g then lookup2 (edges g) x y else None.

Definition Edge_ (u v : Z) (g : UndirectedGraph) : option Edge := EdgeBetween u v g.

Definition Weight (x y : Z) (g : UndirectedGraph) : float * bool :=
  if decide (x = y) then (self g, true)
  else match lookup2 (edges g) x y with
       | Some e => (W e, true)
       | None => (absent g, false)
       end.

Definition Degree (n : Z) (g : UndirectedGraph) : nat :=
  match nodes g !! n with
  | None => 0%nat
  | Some _ => len2 (edges g) n
  end.

(** The body of the loops of [Edges()], over the edges [es] still to visit:
    [seen] holds the ordered id pairs already emitted, in both orders. *)
Fixpoint Edges_loop (es : list Edge) (seen : gset (Z * Z)) (acc : list Edge) : list Edge :=
  match es with
  | [] => acc
  | e :: es' =>
      let uid := ID (F e) in
      let vid := ID (T e) in
      if decide ((uid, vid) ∈ seen) then Edges_loop es' seen acc
      else Edges_loop es' ({[(vid, uid)]} ∪ ({[(uid, vid)]} ∪ seen)) (acc ++ [e])
  end.

(** [Edges()]: the loops visit the values of every inner map of [g.edges]. *)
Definition Edges (g : UndirectedGraph) : list Edge :=
  Edges_loop (mjoin ((fun u : gmap Z Edge => (map_to_list u).*2)
                       <$> (map_to_list (edges g)).*2)) ∅ [].

End UG.

(** ** [mat64.Dense] (github.com/gonum/matrix/mat64) and the Go heap

    A [*mat64.Dense] points to a header (rows, columns, stride and a slice);
    the slice refers to a backing array.  Headers and arrays live in [mem];
    pointers are indices into it.  Copying a header copies the reference to
    the backing array, not the array. *)

Module mat64.

Record Dense : Type := mkDense { Rows : Z; Cols : Z; Stride : Z; Data : nat }.

Record mem : Type := mkMem { headers : list Dense; arrays : list (list float) }.

Definition empty_mem : mem := mkMem [] [].

(** A fresh backing array with the given content. *)
Definition alloc_array (a : list float) : M mem nat := fun m =>
  Ok (length (arrays m)) (mkMem (headers m) (arrays m ++ [a])).

(** A fresh header: [&m] for a header value [m]. *)
Definition alloc_header (d : Dense) : M mem nat := fun m =>
  Ok (length (headers m)) (mkMem (headers m ++ [d]) (arrays m)).

(** [*p] *)
Definition load (p : nat) : M mem Dense := fun m =>
  match headers m !! p with
  | Some d => Ok d m
  | None => Panic NilDeref m
  end.

(** [*p = d] *)
Definition store (p : nat) (d : Dense) : M mem unit := fun m =>
  match headers m !! p with
  | Some _ => Ok tt (mkMem (<[p := d]> (headers m)) (arrays m))
  | None => Panic NilDeref m
  end.

(** [NewDense(r, c, data)] for a non-nil [data]: the matrix uses [data] as
    its backing slice. *)
Definition NewDense (r c : Z) (data : nat) : M mem nat := fun m =>
  match arrays m !! data with
  | None => Panic NilDeref m
  | Some a =>
      if decide (r * c = Z.of_nat (length a))
      then alloc_header (mkDense r c c data) m
      else Panic ErrShape m
  end.

Definition Dims (p : nat) : M mem (Z * Z) :=
  do d <- load p in ret (Rows d, Cols d).

Definition At (p : nat) (r c : Z) : M mem float :=
  do d <- load p in
  if decide (r >= Rows d \/ r < 0) then throw ErrRowAccess
  else if decide (c >= Cols d \/ c < 0) then throw ErrColAccess
  else fun m =>
    match arrays m !! Data d with
    | None => Panic NilDeref m
    | Some a =>
        match a !! Z.to_nat (r * Stride d + c) with
        | Some v => Ok v m
        | None => Panic IndexOutOfRange m
        end
    end.

Definition Set_ (p : nat) (r c : Z) (v : float) : M mem unit :=
  do d <- load p in
  if decide (r >= Rows d \/ r < 0) then throw ErrRowAccess
  else if decide (c >= Cols d \/ c < 0) then throw ErrColAccess
  else fun m =>
    match arrays m !! Data d with
    | None => Panic NilDeref m
    | Some a =>
        if decide (Z.to_nat (r * Stride d + c) < length a)%nat
        then Ok tt (mkMem (headers m)
                          (<[Data d := <[Z.to_nat (r * Stride d + c) := v]> a]> (arrays m)))
        else Panic IndexOutOfRange m
    end.

End mat64.

(** ** The dense directed store ([simple.DirectedMatrix]) *)

Module DM.
Import mat64.

Record DirectedMatrix : Type := mkDirectedMatrix {
  mat : nat;                      (* *mat64.Dense *)
  nodes : option (list Node);     (* nil or the bound nodes *)
  self : float;
  absent : float
}.

(** [for i := 0; i < len(mat); i += n + 1 { mat[i] = self }] *)
Fixpoint diag_loop (fuel : nat) (i n : Z) (self : float) (a : list float) : list float :=
  match fuel with
  | O => a
  | S fuel' =>
      if decide (i < Z.of_nat (length a))
      then diag_loop fuel' (i + (n + 1)) n self (<[Z.to_nat i := self]> a)
      else a
  end.

(** [NewDirectedMatrix(n, init, self, absent)] for [n >= 0], with [n * n]
    taken not to wrap.  (For a negative [n] the loop over the diagonal
    either runs off the slice or, for [n = -1], never ends; the type of
    [n] leaves these calls out.) *)
Definition NewDirectedMatrix (n : nat) (init self absent : float) : M mem DirectedMatrix :=
  let a0 := replicate (n * n) 0%float in
  let a1 := if negb (PrimFloat.eqb init 0) then replicate (length a0) init else a0 in
  let a2 := diag_loop (length a1) 0 (Z.of_nat n) self a1 in
  do data <- alloc_array a2 in
  do p <- NewDense (Z.of_nat n) (Z.of_nat n) data in
  ret (mkDirectedMatrix p None self absent).

(** [g.has(id)] *)
Definition has (id : Z) (g : DirectedMatrix) : M mem bool :=
  do rc <- Dims (mat g) in
  ret (bool_decide (0 <= id) && bool_decide (id < rc.1)).

Definition Has (id : Z) (g : DirectedMatrix) : M mem bool := has id g.

(** [g.Node(id)]; [Node(id)] of package simple, whose declaration is not in
    the files at hand, is the node with that id and no other content. *)
Definition Node_ (id : Z) (g : DirectedMatrix) : M mem (option Node) :=
  do h <- has id g in
  if negb h then ret None
  else match nodes g with
       | None => ret (Some (mkNode id 0))
       | Some ns =>
           match ns !! Z.to_nat id with
           | Some n => ret (Some n)
           | None => throw IndexOutOfRange
           end
       end.

(** [for i := 0; i < n; i++ { acc = body(i, acc) }] *)
Definition for_upto {A : Type} (n : Z) (body : Z -> A -> M mem A) (acc : A) : M mem A :=
  foldl (fun (m : M mem A) (i : Z) => do a <- m in body i a) (ret acc) (seqZ 0 n).

Section WithIsSame.
(** [isSame(a, b)], whose declaration is not in the files at hand: the
    test the store uses to compare a cell with the absent weight. *)
Variable isSame : float -> float -> bool.

Definition From (id : Z) (g : DirectedMatrix) : M mem (list (option Node)) :=
  do h <- has id g in
  if negb h then ret []
  else
    let i := id in
    do rc <- Dims (mat g) in
    for_upto rc.2 (fun j neighbors =>
      if decide (j = i) then ret neighbors
      else
        do w <- At (mat g) i j in
        if negb (isSame w (absent g))
        then do n <- Node_ j g in ret (neighbors ++ [n])
        else ret neighbors) [].

Definition To (id : Z) (g : DirectedMatrix) : M mem (list (option Node)) :=
  do h <- has id g in
  if negb h then ret []
  else
    let j := id in
    do rc <- Dims (mat g) in
    for_upto rc.1 (fun i neighbors =>
      if decide (i = j) then ret neighbors
      else
        do w <- At (mat g) i j in
        if negb (isSame w (absent g))
        then do n <- Node_ i g in ret (neighbors ++ [n])
        else ret neighbors) [].

Definition HasEdgeBetween (x y : Z) (g : DirectedMatrix) : M mem bool :=
  do hx <- has x g in
  if negb hx then ret false
  else
    do hy <- has y g in
    if negb hy then ret false
    else if decide (x = y) then ret false
    else
      do w <- At (mat g) x y in
      if negb (isSame w (absent g)) then ret true
      else do w' <- At (mat g) y x in ret (negb (isSame w' (absent g))).

Definition HasEdgeFromTo (u v : Z) (g : DirectedMatrix) : M mem bool :=
  do hu <- has u g in
  if negb hu then ret false
  else
    do hv <- has v g in
    if negb hv then ret false
    else if decide (u = v) then ret false
    else do w <- At (mat g) u v in ret (negb (isSame w (absent g))).

(** [Edge(u, v)]: nil ([None]) when there is no edge from [u] to [v]. *)
Definition Edge_ (u v : Z) (g : DirectedMatrix) : M mem (option Edge) :=
  do b <- HasEdgeFromTo u v g in
  if b then
    do nu <- Node_ u g in
    do nv <- Node_ v g in
    do w <- At (mat g) u v in
    match nu, nv with
    | Some f, Some t => ret (Some (mkEdge f t w))
    | _, _ => throw NilDeref   (* not reached: has(u) and has(v) hold *)
    end
  else ret None.

Definition Degree (id : Z) (g : DirectedMatrix) : M mem Z :=
  let j := id in
  do rc <- Dims (mat g) in
  do deg <- for_upto rc.1 (fun i deg =>
              if decide (i = j) then ret deg
              else do w <- At (mat g) j i in
                   ret (if negb (isSame w (absent g)) then deg + 1 else deg)) 0 in
  for_upto rc.2 (fun i deg =>
    if decide (i = j) then ret deg
    else do w <- At (mat g) i j in
         ret (if negb (isSame w (absent g)) then deg + 1 else deg)) deg.

End WithIsSame.

Definition Weight (x y : Z) (g : DirectedMatrix) : M mem (float * bool) :=
  if decide (x = y) then ret (self g, true)
  else
    do hx <- has x g in
    do hy <- (if hx then has y g else ret false) in
    if hx && hy then do w <- At (mat g) x y in ret (w, true)
    else ret (absent g, false).

Definition SetEdge (e : Edge) (g : DirectedMatrix) : M mem unit :=
  let fid := ID (F e) in
  let tid := ID (T e) in
  if decide (fid = tid) then throw IllegalEdge
  else Set_ (mat g) fid tid (W e).

Definition RemoveEdge (e : Edge) (g : DirectedMatrix) : M mem unit :=
  let fid := ID (F e) in
  do hf <- has fid g in
  if negb hf then ret tt
  else
    let tid := ID (T e) in
    do ht <- has tid g in
    if negb ht then ret tt
    else Set_ (mat g) fid tid (absent g).

(** [Matrix()]: [m := *g.mat; return &m]. *)
Definition Matrix (g : DirectedMatrix) : M mem nat :=
  do m <- load (mat g) in alloc_header m.

(** [Nodes()]: the bound nodes when there are some, the nodes [Node(i)] for
    every row otherwise. *)
Definition Nodes (g : DirectedMatrix) : M mem (list Node) :=
  match nodes g with
  | Some ns => ret ns
  | None =>
      do rc <- Dims (mat g) in
      for_upto rc.1 (fun i acc => ret (acc ++ [mkNode i 0])) []
  end.


Section FromNodes.
(** [sort.Sort(ordered.ByID(nodes))], whose order [ordered.ByID] is not in
    the files at hand: a parameter, which the properties below take to
    return its argument sorted by id. *)
Variable sortByID : list Node -> list Node.


End FromNodes.

End DM.

(** ** The capability interfaces and [Copy] (package graph) *)

Module graph.

(** A query that may panic, run against an unchanged value. *)
Definition lift {S A : Type} (r : panic + A) : M S A := fun s =>
  match r with
  | inl p => Panic p s
  | inr a => Ok a s
  end.

(** The part of [graph.Graph] that [Copy] uses.  A nil node or edge is
    [None]. *)
Class Graph (G : Type) : Type := {
  Nodes : G -> panic + list (option Node);
  From : Z -> G -> panic + list (option Node);
  Edge_ : Z -> Z -> G -> panic + option Edge
}.

(** The part of [graph.Builder] that [Copy] uses. *)
Class Builder (B : Type) : Type := {
  AddNode : Node -> M B unit;
  SetEdge : Edge -> M B unit
}.

(** A method called on a nil interface value panics. *)
Definition non_nil {S A : Type} (o : option A) (k : A -> M S unit) : M S unit :=
  match o with
  | Some a => k a
  | None => throw NilDeref
  end.

Definition Copy {B G : Type} `{Builder B} `{Graph G} (src : G) : M B unit :=
  do nodes <- lift (Nodes src) in
  do_ forM_ nodes (fun n => non_nil n AddNode) in
  forM_ nodes (fun u => non_nil u (fun u =>
    do vs <- lift (From (ID u) src) in
    forM_ vs (fun v => non_nil v (fun v =>
      do e <- lift (Edge_ (ID u) (ID v) src) in
      non_nil e SetEdge)))).

End graph.

#[export] Instance DirectedGraph_Graph : graph.Graph DG.DirectedGraph := {|
  graph.Nodes g := DG.Nodes g;
  graph.From id g := inr (DG.From id g);
  graph.Edge_ u v g := inr (DG.Edge_ u v g)
|}.

#[export] Instance DirectedGraph_Builder : graph.Builder DG.DirectedGraph := {|
  graph.AddNode := DG.AddNode;
  graph.SetEdge := DG.SetEdge
|}.

#[export] Instance UndirectedGraph_Graph : graph.Graph UG.UndirectedGraph := {|
  graph.Nodes g := inr (Some <$> UG.Nodes g);
  graph.From id g := inr (UG.From id g);
  graph.Edge_ u v g := inr (UG.Edge_ u v g)
|}.

#[export] Instance UndirectedGraph_Builder : graph.Builder UG.UndirectedGraph := {|
  graph.AddNode := UG.AddNode;
  graph.SetEdge := UG.SetEdge
|}.

(** ** Sequences of calls on the sparse stores *)

(** The mutating calls of a sparse store. *)
Inductive call : Type :=
| CallNewNodeID
| CallAddNode (n : Node)
| CallRemoveNode (id : Z)
| CallSetEdge (e : Edge)
| CallRemoveEdge (e : Edge).

Definition DG_step (maxInt : Z) (c : call) (g : DG.DirectedGraph) : DG.DirectedGraph :=
  match c with
  | CallNewNodeID => state_of (DG.NewNodeID maxInt g)
  | CallAddNode n => state_of (DG.AddNode n g)
  | CallRemoveNode id => state_of (DG.RemoveNode id g)
  | CallSetEdge e => state_of (DG.SetEdge e g)
  | CallRemoveEdge e => state_of (DG.RemoveEdge e g)
  end.

(** The store after the calls [cs], made in order; a call that panics leaves
    the store as the panic found it, and the next call goes on from there. *)
Definition DG_run (maxInt : Z) (cs : list call) (g : DG.DirectedGraph) : DG.DirectedGraph :=
  foldl (fun g c => DG_step maxInt c g) g cs.

Definition UG_step (maxInt : Z) (c : call) (g : UG.UndirectedGraph) : UG.UndirectedGraph :=
  match c with
  | CallNewNodeID => state_of (UG.NewNodeID maxInt g)
  | CallAddNode n => state_of (UG.AddNode n g)
  | CallRemoveNode id => state_of (UG.RemoveNode id g)
  | CallSetEdge e => state_of (UG.SetEdge e g)
  | CallRemoveEdge e => state_of (UG.RemoveEdge e g)
  end.

Definition UG_run (maxInt : Z) (cs : list call) (g : UG.UndirectedGraph) : UG.UndirectedGraph :=
  foldl (fun g c => UG_step maxInt c g) g cs.

(** ** Invariants of the sparse stores *)

(** The three maps of the directed store have the same keys. *)
Definition DG_keys (g : DG.DirectedGraph) : Prop :=
  (forall k, is_Some (DG.from g !! k) <-> is_Some (DG.nodes g !! k)) /\
  (forall k, is_Some (DG.to g !! k) <-> is_Some (DG.nodes g !! k)).

(** [from[u][v]] holds an edge exactly when [to[v][u]] holds it. *)
Definition DG_mirror (g : DG.DirectedGraph) : Prop :=
  forall u v, lookup2 (DG.from g) u v = lookup2 (DG.to g) v u.

(** The two maps of the undirected store have the same keys. *)
Definition UG_keys (g : UG.UndirectedGraph) : Prop :=
  forall k, is_Some (UG.edges g !! k) <-> is_Some (UG.nodes g !! k).

(** * Properties *)

(** ** Two-level maps *)

Section AdjacencyFacts.
Implicit Types (m : gmap Z (gmap Z Edge)) (k a b id : Z) (e : Edge).

Lemma lookup2_empty_inner m k b : m !! k = Some ∅ -> lookup2 m k b = None.
Proof. intros H. unfold lookup2. rewrite H. apply lookup_empty. Qed.

Lemma lookup2_insert_inner m k (inner : gmap Z Edge) a b :
  lookup2 (<[k := inner]> m) a b =
  if decide (k = a) then inner !! b else lookup2 m a b.
Proof.
  unfold lookup2. rewrite lookup_insert. destruct (decide (k = a)); reflexivity.
Qed.

Lemma lookup2_delete_outer m k a b :
  lookup2 (delete k m) a b = if decide (k = a) then None else lookup2 m a b.
Proof.
  unfold lookup2. rewrite lookup_delete. destruct (decide (k = a)); reflexivity.
Qed.

Lemma lookup2_delete2 m k id a b :
  lookup2 (delete2 k id m) a b =
  if decide (k = a /\ id = b) then None else lookup2 m a b.
Proof.
  unfold delete2. destruct (m !! k) as [inner|] eqn:Hk.
  - rewrite lookup2_insert_inner. destruct (decide (k = a)) as [->|Hne].
    + unfold lookup2. rewrite Hk, lookup_delete.
      destruct (decide (id = b)); destruct (decide (a = a /\ id = b)); tauto.
    + destruct (decide (k = a /\ id = b)); tauto.
  - destruct (decide (k = a /\ id = b)) as [[-> _]|]; [|reflexivity].
    unfold lookup2. rewrite Hk. reflexivity.
Qed.

Lemma lookup2_insert2 m m' k1 k2 e a b :
  insert2 k1 k2 e m = Some m' ->
  lookup2 m' a b = if decide (k1 = a /\ k2 = b) then Some e else lookup2 m a b.
Proof.
  unfold insert2. destruct (m !! k1) as [inner|] eqn:Hk; [|discriminate].
  intros [= <-]. rewrite lookup2_insert_inner.
  destruct (decide (k1 = a)) as [->|Hne].
  - rewrite lookup_insert. unfold lookup2. rewrite Hk.
    destruct (decide (k2 = b)); destruct (decide (a = a /\ k2 = b)); tauto.
  - destruct (decide (k1 = a /\ k2 = b)); tauto.
Qed.

Lemma insert2_is_Some m k1 k2 e : is_Some (m !! k1) -> is_Some (insert2 k1 k2 e m).
Proof. intros [inner H]. unfold insert2. rewrite H. eauto. Qed.

Lemma delete2_keys m k id a : is_Some (delete2 k id m !! a) <-> is_Some (m !! a).
Proof.
  unfold delete2. destruct (m !! k) as [inner|] eqn:Hk; [|reflexivity].
  rewrite lookup_insert. destruct (decide (k = a)) as [->|]; [|reflexivity].
  rewrite Hk. split; eauto.
Qed.

Lemma insert2_keys m m' k1 k2 e a :
  insert2 k1 k2 e m = Some m' -> is_Some (m' !! a) <-> is_Some (m !! a).
Proof.
  unfold insert2. destruct (m !! k1) as [inner|] eqn:Hk; [|discriminate].
  intros [= <-]. rewrite lookup_insert.
  destruct (decide (k1 = a)) as [->|]; [|reflexivity].
  rewrite Hk. split; eauto.
Qed.

Lemma delete_all_keys id ks m a :
  is_Some (delete_all id ks m !! a) <-> is_Some (m !! a).
Proof.
  unfold delete_all. revert m. induction ks as [|k ks IH]; intros m; simpl.
  - reflexivity.
  - rewrite IH. apply delete2_keys.
Qed.

Lemma lookup2_delete_all id ks m a b :
  lookup2 (delete_all id ks m) a b =
  if decide (a ∈ ks /\ id = b) then None else lookup2 m a b.
Proof.
  unfold delete_all. revert m. induction ks as [|k ks IH]; intros m; simpl.
  - destruct (decide (a ∈ [] /\ id = b)) as [[H _]|]; [|reflexivity].
    apply elem_of_nil in H. destruct H.
  - rewrite IH, lookup2_delete2.
    destruct (decide (a ∈ ks /\ id = b)) as [[Hin ->]|Hn1].
    + rewrite decide_True; [reflexivity|]. split; [|reflexivity].
      apply elem_of_cons. tauto.
    + destruct (decide (k = a /\ id = b)) as [[-> ->]|Hn2].
      * rewrite decide_True; [reflexivity|]. split; [|reflexivity].
        apply elem_of_cons. tauto.
      * rewrite decide_False; [reflexivity|].
        intros [Hin ->]. apply elem_of_cons in Hin. destruct Hin as [->|Hin]; tauto.
Qed.

Lemma elem_of_keys2 m k a : a ∈ keys2 m k <-> is_Some (lookup2 m k a).
Proof.
  unfold keys2, lookup2. destruct (m !! k) as [inner|].
  - rewrite list_elem_of_fmap. split.
    + intros [[a' e] [-> H]]. apply elem_of_map_to_list in H. simpl. eauto.
    + intros [e H]. exists (a, e). split; [reflexivity|].
      apply elem_of_map_to_list. exact H.
  - split; [intros H; apply elem_of_nil in H; destruct H|].
    intros [e H]. discriminate.
Qed.

End AdjacencyFacts.

(** ** The sparse directed store keeps its indices consistent *)

Section DirectedInvariant.
Implicit Types (g : DG.DirectedGraph) (n : Node) (e : Edge) (id u v k : Z).

Definition DG_inv g : Prop := DG_keys g /\ DG_mirror g.

Lemma lookup2_None_outer (m : gmap Z (gmap Z Edge)) a b :
  m !! a = None -> lookup2 m a b = None.
Proof. intros H. unfold lookup2. rewrite H. reflexivity. Qed.

Lemma DG_inv_new (s a : float) : DG_inv (DG.NewDirectedGraph s a).
Proof.
  split; [split|]; intros; simpl.
  - rewrite !lookup_empty. split; intros [? ?]; discriminate.
  - rewrite !lookup_empty. split; intros [? ?]; discriminate.
  - intros u v. reflexivity.
Qed.

Lemma DG_keys_from g k : DG_keys g -> DG.nodes g !! k = None -> DG.from g !! k = None.
Proof.
  intros [Hf _] Hn. apply eq_None_not_Some. rewrite Hf, Hn. apply is_Some_None.
Qed.

Lemma DG_keys_to g k : DG_keys g -> DG.nodes g !! k = None -> DG.to g !! k = None.
Proof.
  intros [_ Ht] Hn. apply eq_None_not_Some. rewrite Ht, Hn. apply is_Some_None.
Qed.

(** What [AddNode] does to a store that does not hold the id. *)
Lemma DG_AddNode_fresh n g :
  DG.nodes g !! ID n = None ->
  DG.AddNode n g =
  Ok tt (DG.mkDirectedGraph (<[ID n := n]> (DG.nodes g))
           (<[ID n := ∅]> (DG.from g)) (<[ID n := ∅]> (DG.to g))
           (DG.self g) (DG.absent g)
           (intsets.Remove (ID n) (DG.freeIDs g))
           (intsets.Insert (ID n) (DG.usedIDs g))).
Proof. intros H. unfold DG.AddNode. rewrite H. reflexivity. Qed.

Lemma DG_AddNode_inv n g : DG_inv g -> DG_inv (state_of (DG.AddNode n g)).
Proof.
  intros [Hk Hm]. destruct (DG.nodes g !! ID n) as [x|] eqn:Hn.
  - unfold DG.AddNode. rewrite Hn. simpl. split; assumption.
  - rewrite DG_AddNode_fresh by assumption. simpl.
    pose proof (DG_keys_from _ _ Hk Hn) as Hf.
    pose proof (DG_keys_to _ _ Hk Hn) as Ht.
    split; [split|]; simpl.
    + intros k. rewrite !lookup_insert. destruct (decide (ID n = k)).
      * split; eauto.
      * apply Hk.
    + intros k. rewrite !lookup_insert. destruct (decide (ID n = k)).
      * split; eauto.
      * apply Hk.
    + intros u v. simpl. rewrite !lookup2_insert_inner, !lookup_empty.
      destruct (decide (ID n = u)) as [<-|]; destruct (decide (ID n = v)) as [<-|];
        try reflexivity.
      * rewrite <- Hm. symmetry. apply lookup2_None_outer. assumption.
      * rewrite Hm. apply lookup2_None_outer. assumption.
      * apply Hm.
Qed.

Lemma DG_RemoveNode_inv id g : DG_inv g -> DG_inv (state_of (DG.RemoveNode id g)).
Proof.
  intros [Hk Hm]. unfold DG.RemoveNode.
  destruct (DG.nodes g !! id) as [x|] eqn:Hn; simpl; [|split; assumption].
  split; [split|]; simpl.
  - intros k. rewrite delete_all_keys, !lookup_delete.
    destruct (decide (id = k)); [split; intros [? ?]; discriminate|apply Hk].
  - intros k. rewrite !lookup_delete.
    destruct (decide (id = k)); [split; intros [? ?]; discriminate|].
    rewrite delete_all_keys. apply Hk.
  - intros u v. simpl.
    rewrite lookup2_delete_all, !lookup2_delete_outer, lookup2_delete_all.
    destruct (decide (id = u)) as [<-|Hu].
    + destruct (decide (id = v)) as [<-|Hv].
      * destruct (decide (_ /\ _)); reflexivity.
      * rewrite (decide_False (P := _ /\ id = v)) by tauto.
        destruct (decide (v ∈ keys2 (DG.from g) id /\ id = id)) as [_|Hn2];
          [reflexivity|].
        rewrite <- Hm. symmetry. apply eq_None_not_Some.
        intros Hs. apply Hn2. split; [|reflexivity].
        apply elem_of_keys2. exact Hs.
    + destruct (decide (id = v)) as [<-|Hv].
      * destruct (decide (u ∈ _ /\ id = id)) as [_|Hn2]; [reflexivity|].
        apply eq_None_not_Some. intros Hs. apply Hn2. split; [|reflexivity].
        apply elem_of_keys2. rewrite lookup2_delete_all.
        rewrite decide_False by (intros [_ ?]; congruence).
        rewrite <- Hm. exact Hs.
      * rewrite (decide_False (P := _ /\ id = v)) by tauto.
        rewrite (decide_False (P := _ /\ id = u)) by tauto.
        apply Hm.
Qed.

Lemma DG_RemoveEdge_inv e g : DG_inv g -> DG_inv (state_of (DG.RemoveEdge e g)).
Proof.
  intros [Hk Hm]. unfold DG.RemoveEdge.
  destruct (DG.nodes g !! ID (F e)); simpl; [|split; assumption].
  destruct (DG.nodes g !! ID (T e)); simpl; [|split; assumption].
  split; [split|]; simpl.
  - intros k. rewrite delete2_keys. apply Hk.
  - intros k. rewrite delete2_keys. apply Hk.
  - intros u v. simpl. rewrite !lookup2_delete2, Hm.
    destruct (decide (ID (F e) = u /\ ID (T e) = v));
      destruct (decide (ID (T e) = v /\ ID (F e) = u)); tauto.
Qed.

(** [if !g.Has(id) { g.AddNode(n) }] returns, keeps the invariant and
    leaves the node's id present. *)
Lemma DG_ensure n g :
  DG_inv g ->
  exists g', (if DG.Has (ID n) g then Ok tt g else DG.AddNode n g) = Ok tt g' /\
             DG_inv g' /\ is_Some (DG.nodes g' !! ID n) /\
             (forall k, is_Some (DG.nodes g !! k) -> is_Some (DG.nodes g' !! k)).
Proof.
  intros Hi. unfold DG.Has. case_bool_decide as Hh.
  - exists g. auto.
  - assert (DG.nodes g !! ID n = None) as Hn by (apply eq_None_not_Some; exact Hh).
    pose proof (DG_AddNode_inv n g Hi) as Hi'.
    rewrite DG_AddNode_fresh in * by assumption. simpl in Hi'.
    eexists. split; [reflexivity|]. split; [exact Hi'|]. simpl. split.
    + rewrite lookup_insert_eq. eauto.
    + intros k Hs. rewrite lookup_insert. destruct (decide (ID n = k)); eauto.
Qed.

(** [SetEdge] of an edge with distinct end points returns, and what it
    leaves is the store with both end points ensured and both entries
    written. *)
Lemma DG_SetEdge_ok e g :
  DG_inv g -> ID (F e) <> ID (T e) ->
  exists g1 m1 m2,
    DG_inv g1 /\
    (forall k, is_Some (DG.nodes g !! k) -> is_Some (DG.nodes g1 !! k)) /\
    insert2 (ID (F e)) (ID (T e)) e (DG.from g1) = Some m1 /\
    insert2 (ID (T e)) (ID (F e)) e (DG.to g1) = Some m2 /\
    DG.SetEdge e g = Ok tt (DG.set_to m2 (DG.set_from m1 g1)).
Proof.
  intros Hi Hne.
  destruct (DG_ensure (F e) g Hi) as (ga & Ea & Hia & Hfa & Hmono_a).
  destruct (DG_ensure (T e) ga Hia) as (gb & Eb & Hib & Htb & Hmono_b).
  assert (is_Some (DG.from gb !! ID (F e))) as Hf.
  { apply Hib. apply Hmono_b. exact Hfa. }
  assert (is_Some (DG.to gb !! ID (T e))) as Ht.
  { apply Hib. exact Htb. }
  destruct (insert2_is_Some _ _ (ID (T e)) e Hf) as [m1 E1].
  destruct (insert2_is_Some _ _ (ID (F e)) e Ht) as [m2 E2].
  exists gb, m1, m2. split; [exact Hib|]. split; [auto|].
  split; [exact E1|]. split; [exact E2|].
  unfold DG.SetEdge. rewrite decide_False by exact Hne.
  unfold bind. rewrite Ea, Eb, E1. simpl. rewrite E2. reflexivity.
Qed.

Lemma DG_SetEdge_inv e g : DG_inv g -> DG_inv (state_of (DG.SetEdge e g)).
Proof.
  intros Hi. destruct (decide (ID (F e) = ID (T e))) as [Heq|Hne].
  - unfold DG.SetEdge. rewrite decide_True by exact Heq. exact Hi.
  - destruct (DG_SetEdge_ok e g Hi Hne) as (g1 & m1 & m2 & [Hk Hm] & _ & E1 & E2 & ->).
    simpl. split; [split|]; simpl.
    + intros k. rewrite (insert2_keys _ _ _ _ _ _ E1). apply Hk.
    + intros k. rewrite (insert2_keys _ _ _ _ _ _ E2). apply Hk.
    + intros u v. simpl.
      rewrite (lookup2_insert2 _ _ _ _ _ _ _ E1), (lookup2_insert2 _ _ _ _ _ _ _ E2), Hm.
      destruct (decide (ID (F e) = u /\ ID (T e) = v));
        destruct (decide (ID (T e) = v /\ ID (F e) = u)); tauto.
Qed.

Lemma DG_NewNodeID_inv maxInt g : DG_inv g -> DG_inv (state_of (DG.NewNodeID maxInt g)).
Proof.
  intros Hi. unfold DG.NewNodeID.
  repeat (case_decide || case_match); simpl; try exact Hi.
Qed.

Lemma DG_step_inv maxInt c g : DG_inv g -> DG_inv (DG_step maxInt c g).
Proof.
  destruct c; simpl;
    auto using DG_NewNodeID_inv, DG_AddNode_inv, DG_RemoveNode_inv,
               DG_SetEdge_inv, DG_RemoveEdge_inv.
Qed.

Lemma DG_run_inv maxInt cs g : DG_inv g -> DG_inv (DG_run maxInt cs g).
Proof.
  unfold DG_run. revert g. induction cs as [|c cs IH]; intros g Hi; simpl.
  - exact Hi.
  - apply IH. apply DG_step_inv. exact Hi.
Qed.

End DirectedInvariant.

(** ** The sparse undirected store keeps one adjacency map per node *)

Section UndirectedInvariant.
Implicit Types (g : UG.UndirectedGraph) (n : Node) (e : Edge) (id k : Z).

Lemma UG_keys_new (s a : float) : UG_keys (UG.NewUndirectedGraph s a).
Proof. intros k. simpl. rewrite !lookup_empty. split; intros [? ?]; discriminate. Qed.

Lemma UG_AddNode_fresh n g :
  UG.nodes g !! ID n = None ->
  UG.AddNode n g =
  Ok tt (UG.mkUndirectedGraph (<[ID n := n]> (UG.nodes g))
           (<[ID n := ∅]> (UG.edges g)) (UG.self g) (UG.absent g)
           (intsets.Remove (ID n) (UG.freeIDs g))
           (intsets.Insert (ID n) (UG.usedIDs g))).
Proof. intros H. unfold UG.AddNode. rewrite H. reflexivity. Qed.

Lemma UG_AddNode_keys n g : UG_keys g -> UG_keys (state_of (UG.AddNode n g)).
Proof.
  intros Hk. destruct (UG.nodes g !! ID n) as [x|] eqn:Hn.
  - unfold UG.AddNode. rewrite Hn. exact Hk.
  - rewrite UG_AddNode_fresh by assumption. intros k. simpl.
    rewrite !lookup_insert. destruct (decide (ID n = k)); [split; eauto|apply Hk].
Qed.

Lemma UG_RemoveNode_keys id g : UG_keys g -> UG_keys (state_of (UG.RemoveNode id g)).
Proof.
  intros Hk. unfold UG.RemoveNode.
  destruct (UG.nodes g !! id); simpl; [|exact Hk].
  intros k. simpl. rewrite !lookup_delete.
  destruct (decide (id = k)); [split; intros [? ?]; discriminate|].
  rewrite delete_all_keys. apply Hk.
Qed.

Lemma UG_RemoveEdge_keys e g : UG_keys g -> UG_keys (state_of (UG.RemoveEdge e g)).
Proof.
  intros Hk. unfold UG.RemoveEdge.
  destruct (UG.nodes g !! ID (F e)); simpl; [|exact Hk].
  destruct (UG.nodes g !! ID (T e)); simpl; [|exact Hk].
  intros k. simpl. rewrite !delete2_keys. apply Hk.
Qed.

Lemma UG_ensure n g :
  UG_keys g ->
  exists g', (if UG.Has (ID n) g then Ok tt g else UG.AddNode n g) = Ok tt g' /\
             UG_keys g' /\ is_Some (UG.nodes g' !! ID n) /\
             (forall k, is_Some (UG.nodes g !! k) -> is_Some (UG.nodes g' !! k)).
Proof.
  intros Hk. unfold UG.Has. case_bool_decide as Hh.
  - exists g. auto.
  - assert (UG.nodes g !! ID n = None) as Hn by (apply eq_None_not_Some; exact Hh).
    pose proof (UG_AddNode_keys n g Hk) as Hk'.
    rewrite UG_AddNode_fresh in * by assumption. simpl in Hk'.
    eexists. split; [reflexivity|]. split; [exact Hk'|]. simpl. split.
    + rewrite lookup_insert_eq. eauto.
    + intros k Hs. rewrite lookup_insert. destruct (decide (ID n = k)); eauto.
Qed.

(** [SetEdge] of an edge with distinct end points returns: both end points
    are nodes afterwards and both entries are written. *)
Lemma UG_SetEdge_ok e g :
  UG_keys g -> ID (F e) <> ID (T e) ->
  exists g1 m1 m2,
    UG_keys g1 /\
    is_Some (UG.nodes g1 !! ID (F e)) /\ is_Some (UG.nodes g1 !! ID (T e)) /\
    insert2 (ID (F e)) (ID (T e)) e (UG.edges g1) = Some m1 /\
    insert2 (ID (T e)) (ID (F e)) e m1 = Some m2 /\
    UG.SetEdge e g = Ok tt (UG.set_edges m2 g1).
Proof.
  intros Hk Hne.
  destruct (UG_ensure (F e) g Hk) as (ga & Ea & Hka & Hfa & Hmono_a).
  destruct (UG_ensure (T e) ga Hka) as (gb & Eb & Hkb & Htb & Hmono_b).
  assert (is_Some (UG.edges gb !! ID (F e))) as Hf.
  { apply Hkb. apply Hmono_b. exact Hfa. }
  destruct (insert2_is_Some _ _ (ID (T e)) e Hf) as [m1 E1].
  assert (is_Some (m1 !! ID (T e))) as Ht.
  { apply (insert2_keys _ _ _ _ _ _ E1). apply Hkb. exact Htb. }
  destruct (insert2_is_Some _ _ (ID (F e)) e Ht) as [m2 E2].
  exists gb, m1, m2. split; [exact Hkb|]. split; [auto|]. split; [exact Htb|].
  split; [exact E1|]. split; [exact E2|].
  unfold UG.SetEdge. rewrite decide_False by exact Hne.
  unfold bind. rewrite Ea, Eb, E1. simpl. rewrite E2. reflexivity.
Qed.

Lemma UG_SetEdge_keys e g : UG_keys g -> UG_keys (state_of (UG.SetEdge e g)).
Proof.
  intros Hk. destruct (decide (ID (F e) = ID (T e))) as [Heq|Hne].
  - unfold UG.SetEdge. rewrite decide_True by exact Heq. exact Hk.
  - destruct (UG_SetEdge_ok e g Hk Hne) as (g1 & m1 & m2 & Hk1 & _ & _ & E1 & E2 & ->).
    intros k. simpl.
    rewrite (insert2_keys _ _ _ _ _ _ E2), (insert2_keys _ _ _ _ _ _ E1). apply Hk1.
Qed.

Lemma UG_NewNodeID_keys maxInt g : UG_keys g -> UG_keys (state_of (UG.NewNodeID maxInt g)).
Proof.
  intros Hk. unfold UG.NewNodeID.
  repeat (case_decide || case_match); simpl; try exact Hk.
Qed.

Lemma UG_step_keys maxInt c g : UG_keys g -> UG_keys (UG_step maxInt c g).
Proof.
  destruct c; simpl;
    auto using UG_NewNodeID_keys, UG_AddNode_keys, UG_RemoveNode_keys,
               UG_SetEdge_keys, UG_RemoveEdge_keys.
Qed.

Lemma UG_run_keys maxInt cs g : UG_keys g -> UG_keys (UG_run maxInt cs g).
Proof.
  unfold UG_run. revert g. induction cs as [|c cs IH]; intros g Hk; simpl.
  - exact Hk.
  - apply IH. apply UG_step_keys. exact Hk.
Qed.

(** Writing an edge and reading it back, then removing it, in a store
    whose maps have the same keys. *)
Lemma UG_set_get_remove e g :
  UG_keys g -> ID (F e) <> ID (T e) ->
  exists g1 g2,
    UG.SetEdge e g = Ok tt g1 /\
    UG.EdgeBetween (ID (F e)) (ID (T e)) g1 = Some e /\
    UG.EdgeBetween (ID (T e)) (ID (F e)) g1 = Some e /\
    UG.RemoveEdge e g1 = Ok tt g2 /\
    UG.EdgeBetween (ID (F e)) (ID (T e)) g2 = None /\
    UG.EdgeBetween (ID (T e)) (ID (F e)) g2 = None.
Proof.
  intros Hk Hne.
  destruct (UG_SetEdge_ok e g Hk Hne)
    as (g1 & m1 & m2 & Hk1 & [nf Hf] & [nt Ht] & E1 & E2 & ->).
  exists (UG.set_edges m2 g1).
  exists (UG.set_edges (delete2 (ID (T e)) (ID (F e)) (delete2 (ID (F e)) (ID (T e)) m2))
            (UG.set_edges m2 g1)).
  split; [reflexivity|].
  assert (forall x, UG.Has x (UG.set_edges m2 g1) = UG.Has x g1) as HH by reflexivity.
  assert (UG.Has (ID (F e)) g1 = true) as HF
    by (unfold UG.Has; rewrite Hf; apply bool_decide_eq_true; eauto).
  assert (UG.Has (ID (T e)) g1 = true) as HT
    by (unfold UG.Has; rewrite Ht; apply bool_decide_eq_true; eauto).
  unfold UG.EdgeBetween, UG.RemoveEdge. simpl. rewrite !HH, HF, HT, Hf, Ht.
  rewrite !(lookup2_insert2 _ _ _ _ _ _ _ E2), !(lookup2_insert2 _ _ _ _ _ _ _ E1).
  split.
  { rewrite (decide_False (P := ID (T e) = ID (F e) /\ _)) by (intros [? _]; congruence).
    rewrite decide_True by tauto. reflexivity. }
  split.
  { rewrite decide_True by tauto. reflexivity. }
  split; [reflexivity|].
  unfold UG.Has. simpl. rewrite Hf, Ht.
  rewrite !bool_decide_eq_true_2 by eauto.
  rewrite !lookup2_delete2. split.
  - rewrite (decide_False (P := ID (T e) = ID (F e) /\ _)) by (intros [? _]; congruence).
    rewrite decide_True by tauto. reflexivity.
  - rewrite decide_True by tauto. reflexivity.
Qed.

End UndirectedInvariant.

(** ** The id allocator *)

Section AllocatorFacts.
Implicit Types (s used free : gset Z) (x y id : Z).

Definition is_min x s : Prop := x ∈ s /\ forall y, y ∈ s -> x <= y.
Definition is_max x s : Prop := x ∈ s /\ forall y, y ∈ s -> y <= x.

(** [x] is the first id from [0] below [bound] that is not in [used]. *)
Definition first_unused (bound : Z) used x : Prop :=
  0 <= x < bound /\ (x ∉ used) /\ forall y, 0 <= y < x -> y ∈ used.

Lemma foldr_min_spec (l : list Z) x :
  (foldr Z.min x l = x \/ foldr Z.min x l ∈ l) /\
  foldr Z.min x l <= x /\ forall y, y ∈ l -> foldr Z.min x l <= y.
Proof.
  induction l as [|a l (Hin & Hle & Hall)]; simpl.
  - split; [left; reflexivity|]. split; [lia|].
    intros y Hy. apply elem_of_nil in Hy. destruct Hy.
  - split; [|split].
    + destruct (Z.min_spec a (foldr Z.min x l)) as [[_ ->]|[_ ->]].
      * right. apply elem_of_cons. left. reflexivity.
      * destruct Hin as [->|Hin]; [left; reflexivity|].
        right. apply elem_of_cons. right. exact Hin.
    + lia.
    + intros y Hy. apply elem_of_cons in Hy. destruct Hy as [->|Hy]; [lia|].
      specialize (Hall y Hy). lia.
Qed.

Lemma foldr_max_spec (l : list Z) x :
  (foldr Z.max x l = x \/ foldr Z.max x l ∈ l) /\
  x <= foldr Z.max x l /\ forall y, y ∈ l -> y <= foldr Z.max x l.
Proof.
  induction l as [|a l (Hin & Hle & Hall)]; simpl.
  - split; [left; reflexivity|]. split; [lia|].
    intros y Hy. apply elem_of_nil in Hy. destruct Hy.
  - split; [|split].
    + destruct (Z.max_spec a (foldr Z.max x l)) as [[_ ->]|[_ ->]].
      * destruct Hin as [->|Hin]; [left; reflexivity|].
        right. apply elem_of_cons. right. exact Hin.
      * right. apply elem_of_cons. left. reflexivity.
    + lia.
    + intros y Hy. apply elem_of_cons in Hy. destruct Hy as [->|Hy]; [lia|].
      specialize (Hall y Hy). lia.
Qed.

Lemma is_min_unique x y s : is_min x s -> is_min y s -> x = y.
Proof. intros [Hx Hlx] [Hy Hly]. specialize (Hlx y Hy). specialize (Hly x Hx). lia. Qed.

Lemma is_max_unique x y s : is_max x s -> is_max y s -> x = y.
Proof. intros [Hx Hlx] [Hy Hly]. specialize (Hlx y Hy). specialize (Hly x Hx). lia. Qed.

Lemma Min_is_min s x : intsets.Min s = Some x -> is_min x s.
Proof.
  unfold intsets.Min. destruct (elements s) as [|a l] eqn:E; [discriminate|].
  intros [= <-]. destruct (foldr_min_spec l a) as (Hin & Hle & Hall).
  assert (forall y, y ∈ s <-> y = a \/ y ∈ l) as Hs.
  { intros y. rewrite <- elem_of_elements, E. apply elem_of_cons. }
  split.
  - apply Hs. destruct Hin; auto.
  - intros y Hy. apply Hs in Hy. destruct Hy as [->|Hy]; auto.
Qed.

Lemma Min_None s : intsets.Min s = None -> s = ∅.
Proof.
  unfold intsets.Min. destruct (elements s) eqn:E; [|discriminate].
  intros _. apply leibniz_equiv, elements_empty_inv. exact E.
Qed.

Lemma Max_is_max minInt s : s <> ∅ -> is_max (intsets.Max minInt s) s.
Proof.
  unfold intsets.Max. destruct (elements s) as [|a l] eqn:E.
  - intros Hne. destruct Hne. apply leibniz_equiv, elements_empty_inv. exact E.
  - intros _. destruct (foldr_max_spec l a) as (Hin & Hle & Hall).
    assert (forall y, y ∈ s <-> y = a \/ y ∈ l) as Hs.
    { intros y. rewrite <- elem_of_elements, E. apply elem_of_cons. }
    split.
    + apply Hs. destruct Hin; auto.
    + intros y Hy. apply Hs in Hy. destruct Hy as [->|Hy]; auto.
Qed.

(** [TakeMin] behind the test [Len() != 0]. *)
Lemma TakeMin_guarded_Some free x free' :
  (if decide (intsets.Len free = 0%nat) then None else intsets.TakeMin free)
    = Some (x, free') ->
  is_min x free /\ free' = free ∖ {[x]}.
Proof.
  case_decide; [discriminate|]. unfold intsets.TakeMin.
  destruct (intsets.Min free) as [m|] eqn:E; [|discriminate].
  intros [= <- <-]. split; [apply Min_is_min; exact E|reflexivity].
Qed.

Lemma TakeMin_guarded_None free :
  (if decide (intsets.Len free = 0%nat) then None else intsets.TakeMin free)
    = None ->
  free = ∅.
Proof.
  case_decide as Hl.
  - intros _. apply leibniz_equiv, size_empty_inv. exact Hl.
  - unfold intsets.TakeMin. destruct (intsets.Min free) eqn:E; [discriminate|].
    intros _. apply Min_None. exact E.
Qed.

Lemma scan_unused_Some used fuel id x :
  scan_unused used fuel id = Some x ->
  id <= x < id + Z.of_nat fuel /\ (x ∉ used) /\ forall y, id <= y < x -> y ∈ used.
Proof.
  revert id. induction fuel as [|fuel IH]; intros id; simpl; [discriminate|].
  unfold intsets.Has. case_bool_decide as Hin.
  - intros H. apply IH in H. destruct H as (Hr & Hx & Hall).
    split; [lia|]. split; [exact Hx|].
    intros y Hy. destruct (decide (y = id)) as [->|]; [exact Hin|].
    apply Hall. lia.
  - intros [= <-]. split; [lia|]. split; [exact Hin|]. intros y Hy. lia.
Qed.

Lemma scan_unused_None used fuel id :
  scan_unused used fuel id = None ->
  forall y, id <= y < id + Z.of_nat fuel -> y ∈ used.
Proof.
  revert id. induction fuel as [|fuel IH]; intros id; simpl.
  - intros _ y Hy. lia.
  - unfold intsets.Has. case_bool_decide as Hin; [|discriminate].
    intros H y Hy. destruct (decide (y = id)) as [->|]; [exact Hin|].
    apply (IH _ H). lia.
Qed.

(** The allocation policy, over what a store exposes to it: [len] nodes,
    the free and the used set, [keep] the store unchanged and [take f]
    the store with the free set replaced by [f]. *)
Definition alloc_policy {S : Type} (maxInt : Z) (len : nat) free used
    (keep : S) (take : gset Z -> S) (r : result S Z) : Prop :=
  (len = 0%nat -> r = Ok 0 keep) /\
  (len <> 0%nat -> Z.of_nat len = maxInt -> r = Panic NoSlot keep) /\
  (len <> 0%nat -> Z.of_nat len <> maxInt ->
     forall x, is_min x free -> r = Ok x (take (free ∖ {[x]}))) /\
  (len <> 0%nat -> Z.of_nat len <> maxInt -> free = ∅ ->
     forall mx, is_max mx used -> mx < maxInt -> r = Ok (mx + 1) keep) /\
  (len <> 0%nat -> Z.of_nat len <> maxInt -> free = ∅ ->
     forall mx, is_max mx used -> maxInt <= mx ->
     forall x, first_unused maxInt used x -> r = Ok x keep) /\
  (forall p st, r = Panic p st ->
     st = keep /\
     (Z.of_nat len = maxInt \/
      (free = ∅ /\ forall y, 0 <= y < maxInt -> y ∈ used))).

Lemma first_unused_unique bound used x y :
  first_unused bound used x -> first_unused bound used y -> x = y.
Proof.
  intros (Hx & Hnx & Hax) (Hy & Hny & Hay).
  destruct (Z.lt_trichotomy x y) as [Hlt|[Heq|Hgt]]; [|exact Heq|].
  - destruct Hnx. apply Hay. lia.
  - destruct Hny. apply Hax. lia.
Qed.

Lemma is_min_nonempty x s : is_min x s -> s <> ∅.
Proof. intros [Hx _] ->. set_solver. Qed.

Lemma is_max_nonempty x s : is_max x s -> s <> ∅.
Proof. intros [Hx _] ->. set_solver. Qed.

Lemma DG_NewNodeID_policy maxInt (g : DG.DirectedGraph) :
  alloc_policy maxInt (size (DG.nodes g)) (DG.freeIDs g) (DG.usedIDs g)
    g (fun f => DG.set_freeIDs f g) (DG.NewNodeID maxInt g).
Proof.
  unfold alloc_policy, DG.NewNodeID.
  destruct (decide (size (DG.nodes g) = 0%nat)) as [H0|H0].
  { repeat split; try tauto; try discriminate; try congruence. }
  destruct (decide (Z.of_nat (size (DG.nodes g)) = maxInt)) as [Hm|Hm].
  { repeat split; try tauto; try congruence. all: left; exact Hm. }
  destruct (if decide (intsets.Len (DG.freeIDs g) = 0%nat) then None
            else intsets.TakeMin (DG.freeIDs g)) as [[id free']|] eqn:Et.
  { apply TakeMin_guarded_Some in Et. destruct Et as [Hmin ->].
    repeat split; try tauto; try discriminate.
    - intros _ _ x Hx. rewrite (is_min_unique _ _ _ Hx Hmin). reflexivity.
    - intros _ _ He. destruct (is_min_nonempty _ _ Hmin He).
    - intros _ _ He. destruct (is_min_nonempty _ _ Hmin He). }
  apply TakeMin_guarded_None in Et.
  assert (forall mx, is_max mx (DG.usedIDs g) ->
            intsets.Max (- maxInt - 1) (DG.usedIDs g) = mx) as Hmax.
  { intros mx Hmx. eapply is_max_unique; [|exact Hmx].
    apply Max_is_max. eapply is_max_nonempty. exact Hmx. }
  split; [tauto|]. split; [tauto|]. split.
  { intros _ _ x Hx. rewrite Et in Hx. destruct (is_min_nonempty _ _ Hx eq_refl). }
  split.
  { intros _ _ _ mx Hmx Hlt. rewrite (Hmax mx Hmx).
    rewrite decide_True by exact Hlt. reflexivity. }
  split.
  { intros _ _ _ mx Hmx Hge x Hx. rewrite (Hmax mx Hmx).
    rewrite decide_False by lia.
    destruct (scan_unused (DG.usedIDs g) (Z.to_nat maxInt) 0) as [x'|] eqn:Es.
    - apply scan_unused_Some in Es. f_equal.
      apply (first_unused_unique maxInt (DG.usedIDs g)); [|exact Hx].
      destruct Es as (Hr & Hn & Ha). split; [lia|]. split; assumption.
    - pose proof (scan_unused_None _ _ _ Es x) as Hin.
      destruct Hx as (Hr & Hn & _). destruct Hn. apply Hin. lia. }
  intros p s. case_decide; [discriminate|].
  destruct (scan_unused (DG.usedIDs g) (Z.to_nat maxInt) 0) eqn:Es; [discriminate|].
  intros [= _ <-]. split; [reflexivity|]. right. split; [exact Et|].
  intros y Hy. apply (scan_unused_None _ _ _ Es). lia.
Qed.

Lemma UG_NewNodeID_policy maxInt (g : UG.UndirectedGraph) :
  alloc_policy maxInt (size (UG.nodes g)) (UG.freeIDs g) (UG.usedIDs g)
    g (fun f => UG.set_freeIDs f g) (UG.NewNodeID maxInt g).
Proof.
  unfold alloc_policy, UG.NewNodeID.
  destruct (decide (size (UG.nodes g) = 0%nat)) as [H0|H0].
  { repeat split; try tauto; try discriminate; try congruence. }
  destruct (decide (Z.of_nat (size (UG.nodes g)) = maxInt)) as [Hm|Hm].
  { repeat split; try tauto; try congruence. all: left; exact Hm. }
  destruct (if decide (intsets.Len (UG.freeIDs g) = 0%nat) then None
            else intsets.TakeMin (UG.freeIDs g)) as [[id free']|] eqn:Et.
  { apply TakeMin_guarded_Some in Et. destruct Et as [Hmin ->].
    repeat split; try tauto; try discriminate.
    - intros _ _ x Hx. rewrite (is_min_unique _ _ _ Hx Hmin). reflexivity.
    - intros _ _ He. destruct (is_min_nonempty _ _ Hmin He).
    - intros _ _ He. destruct (is_min_nonempty _ _ Hmin He). }
  apply TakeMin_guarded_None in Et.
  assert (forall mx, is_max mx (UG.usedIDs g) ->
            intsets.Max (- maxInt - 1) (UG.usedIDs g) = mx) as Hmax.
  { intros mx Hmx. eapply is_max_unique; [|exact Hmx].
    apply Max_is_max. eapply is_max_nonempty. exact Hmx. }
  split; [tauto|]. split; [tauto|]. split.
  { intros _ _ x Hx. rewrite Et in Hx. destruct (is_min_nonempty _ _ Hx eq_refl). }
  split.
  { intros _ _ _ mx Hmx Hlt. rewrite (Hmax mx Hmx).
    rewrite decide_True by exact Hlt. reflexivity. }
  split.
  { intros _ _ _ mx Hmx Hge x Hx. rewrite (Hmax mx Hmx).
    rewrite decide_False by lia.
    destruct (scan_unused (UG.usedIDs g) (Z.to_nat maxInt) 0) as [x'|] eqn:Es.
    - apply scan_unused_Some in Es. f_equal.
      apply (first_unused_unique maxInt (UG.usedIDs g)); [|exact Hx].
      destruct Es as (Hr & Hn & Ha). split; [lia|]. split; assumption.
    - pose proof (scan_unused_None _ _ _ Es x) as Hin.
      destruct Hx as (Hr & Hn & _). destruct Hn. apply Hin. lia. }
  intros p s. case_decide; [discriminate|].
  destruct (scan_unused (UG.usedIDs g) (Z.to_nat maxInt) 0) eqn:Es; [discriminate|].
  intros [= _ <-]. split; [reflexivity|]. right. split; [exact Et|].
  intros y Hy. apply (scan_unused_None _ _ _ Es). lia.
Qed.

End AllocatorFacts.

(** ** The dense store in memory *)

Section DenseFacts.
Import mat64.
Implicit Types (m : mem) (g : DM.DirectedMatrix) (d : Dense) (a : list float).

(** The value a call returns, or the panic it raises. *)
Definition outcome_of {S A : Type} (r : result S A) : panic + A :=
  match r with
  | Ok a _ => inr a
  | Panic p _ => inl p
  end.

(** The store [g] has header [d] and backing array [a] in [m]. *)
Definition DM_points m g d a : Prop :=
  headers m !! DM.mat g = Some d /\ arrays m !! Data d = Some a.

(** An [n] by [n] matrix over an array of [n * n] cells. *)
Definition DM_square (n : Z) d a : Prop :=
  0 <= n /\ Rows d = n /\ Cols d = n /\ Stride d = n /\ Z.of_nat (length a) = n * n.

Lemma DM_index_lt n d a r c :
  DM_square n d a -> 0 <= r < n -> 0 <= c < n ->
  (Z.to_nat (r * Stride d + c) < length a)%nat.
Proof. intros (Hn & _ & _ & -> & Hl) Hr Hc. nia. Qed.

Lemma Dims_ok m g d a :
  DM_points m g d a -> Dims (DM.mat g) m = Ok (Rows d, Cols d) m.
Proof. intros [Hh _]. unfold Dims, bind, load. rewrite Hh. reflexivity. Qed.

Lemma has_ok m g d a id :
  DM_points m g d a ->
  DM.has id g m = Ok (bool_decide (0 <= id) && bool_decide (id < Rows d)) m.
Proof.
  intros Hp. unfold DM.has, bind. rewrite (Dims_ok _ _ _ _ Hp). reflexivity.
Qed.

Lemma At_ok m g d a r c v :
  DM_points m g d a -> 0 <= r < Rows d -> 0 <= c < Cols d ->
  a !! Z.to_nat (r * Stride d + c) = Some v ->
  At (DM.mat g) r c m = Ok v m.
Proof.
  intros [Hh Ha] Hr Hc Hv. unfold At, bind, load. rewrite Hh.
  rewrite decide_False by lia. rewrite decide_False by lia.
  rewrite Ha, Hv. reflexivity.
Qed.

Lemma At_row_panic m g d a r c :
  DM_points m g d a -> ~ (0 <= r < Rows d) ->
  At (DM.mat g) r c m = Panic ErrRowAccess m.
Proof.
  intros [Hh _] Hr. unfold At, bind, load. rewrite Hh.
  rewrite decide_True by lia. reflexivity.
Qed.

(** [Weight] of two distinct ids, one of which is not a node. *)
Lemma Weight_outside m g d a x y :
  DM_points m g d a -> x <> y ->
  ~ (0 <= x < Rows d /\ 0 <= y < Rows d) ->
  DM.Weight x y g m = Ok (DM.absent g, false) m.
Proof.
  intros Hp Hne Hout. unfold DM.Weight. rewrite decide_False by exact Hne.
  unfold bind. rewrite (has_ok _ _ _ _ x Hp).
  destruct (bool_decide (0 <= x) && bool_decide (x < Rows d)) eqn:Hx; [|reflexivity].
  rewrite (has_ok _ _ _ _ y Hp).
  destruct (bool_decide (0 <= y) && bool_decide (y < Rows d)) eqn:Hy; [|reflexivity].
  apply andb_prop in Hx, Hy. destruct Hx as [Hx1 Hx2], Hy as [Hy1 Hy2].
  apply bool_decide_eq_true in Hx1, Hx2, Hy1, Hy2. lia.
Qed.

(** [Weight] of two distinct nodes is the cell, reported as found. *)
Lemma Weight_inside m g d a n x y v :
  DM_points m g d a -> DM_square n d a -> x <> y ->
  0 <= x < n -> 0 <= y < n ->
  a !! Z.to_nat (x * n + y) = Some v ->
  DM.Weight x y g m = Ok (v, true) m.
Proof.
  intros Hp Hsq Hne Hx Hy Hv. pose proof Hsq as (Hn & HR & HC & HS & Hl).
  unfold DM.Weight. rewrite decide_False by exact Hne.
  unfold bind. rewrite !(has_ok _ _ _ _ _ Hp).
  rewrite !bool_decide_eq_true_2 by lia. simpl.
  rewrite (has_ok _ _ _ _ _ Hp). rewrite !bool_decide_eq_true_2 by lia. simpl.
  rewrite (At_ok _ _ _ _ _ _ v Hp) by (rewrite ?HS; lia || assumption).
  reflexivity.
Qed.

Lemma Weight_self m g x : DM.Weight x x g m = Ok (DM.self g, true) m.
Proof. unfold DM.Weight. rewrite decide_True by reflexivity. reflexivity. Qed.

(** A write through any header that shares the backing array of [g]. *)
Lemma Set_shared m g d a n p r c v :
  DM_points m g d a -> DM_square n d a ->
  headers m !! p = Some d -> 0 <= r < n -> 0 <= c < n ->
  exists m',
    Set_ p r c v m = Ok tt m' /\
    headers m' = headers m /\
    DM_points m' g d (<[Z.to_nat (r * n + c) := v]> a) /\
    DM_square n d (<[Z.to_nat (r * n + c) := v]> a).
Proof.
  intros [Hh Ha] Hsq Hp Hr Hc. pose proof Hsq as (Hn & HR & HC & HS & Hl).
  pose proof (DM_index_lt _ _ _ r c Hsq Hr Hc) as Hlt.
  eexists. split.
  - unfold Set_, bind, load. rewrite Hp.
    rewrite decide_False by lia. rewrite decide_False by lia.
    rewrite Ha. rewrite decide_True by exact Hlt. rewrite HS. reflexivity.
  - simpl. split; [reflexivity|]. split.
    + split; [exact Hh|]. simpl. apply list_lookup_insert_eq.
      apply lookup_lt_Some in Ha. exact Ha.
    + unfold DM_square. rewrite length_insert. tauto.
Qed.

(** [diag_loop] keeps the length of the array. *)
Lemma diag_loop_length fuel i n s a : length (DM.diag_loop fuel i n s a) = length a.
Proof.
  revert i a. induction fuel as [|fuel IH]; intros i a; simpl; [reflexivity|].
  case_decide; [|reflexivity]. rewrite IH. apply length_insert.
Qed.

(** [NewDirectedMatrix] returns a square store over fresh memory. *)
Lemma NewDirectedMatrix_ok (n : nat) init s ab m :
  exists g m' d a,
    DM.NewDirectedMatrix n init s ab m = Ok g m' /\
    DM_points m' g d a /\ DM_square (Z.of_nat n) d a /\
    DM.self g = s /\ DM.absent g = ab /\ DM.nodes g = None /\
    a = DM.diag_loop (n * n) 0 (Z.of_nat n) s
          (if negb (PrimFloat.eqb init 0)
           then replicate (n * n) init
           else replicate (n * n) 0%float).
Proof.
  unfold DM.NewDirectedMatrix. rewrite !length_replicate.
  set (a := DM.diag_loop _ 0 (Z.of_nat n) s _).
  assert (Z.of_nat (length a) = Z.of_nat n * Z.of_nat n) as Hl.
  { unfold a. rewrite diag_loop_length.
    destruct (negb (PrimFloat.eqb init 0)); rewrite length_replicate; lia. }
  unfold bind, alloc_array, NewDense. simpl.
  rewrite lookup_app_r by lia. rewrite Nat.sub_diag. simpl.
  rewrite decide_True by lia. unfold alloc_header, ret. simpl.
  eexists. eexists. exists (mkDense (Z.of_nat n) (Z.of_nat n) (Z.of_nat n) (length (arrays m))), a.
  split; [reflexivity|].
  split; [|split; [|split; [|split; [|split]]]]; try reflexivity.
  - split.
    + simpl. rewrite lookup_app_r by lia. rewrite Nat.sub_diag. reflexivity.
    + simpl. rewrite lookup_app_r by lia. rewrite Nat.sub_diag. reflexivity.
  - unfold DM_square. simpl. repeat split; lia || assumption.
  - unfold a. destruct (negb (PrimFloat.eqb init 0));
      rewrite length_replicate; reflexivity.
Qed.

End DenseFacts.

(** ** Queries of the dense store only read its header and the arrays *)

Section DenseReads.
Import mat64.
Implicit Types (m : mem) (g : DM.DirectedMatrix).

(** Two memories in which [g] has the same header and the same arrays. *)
Definition same_view g m m' : Prop :=
  headers m !! DM.mat g = headers m' !! DM.mat g /\ arrays m = arrays m'.

(** [f] leaves memory as it is, and what it returns depends only on the
    header of [g] and on the arrays. *)
Definition reads g {A : Type} (f : M mem A) : Prop :=
  (forall m, state_of (f m) = m) /\
  (forall m m', same_view g m m' -> outcome_of (f m) = outcome_of (f m')).

Lemma reads_ret g {A : Type} (a : A) : reads g (ret a).
Proof. split; intros; reflexivity. Qed.

Lemma reads_throw g {A : Type} (p : panic) : reads g (@throw mem A p).
Proof. split; intros; reflexivity. Qed.

Lemma reads_bind g {A B : Type} (f : M mem A) (k : A -> M mem B) :
  reads g f -> (forall a, reads g (k a)) -> reads g (bind f k).
Proof.
  intros [Hs Ho] Hk. split.
  - intros m. unfold bind. specialize (Hs m).
    destruct (f m) as [a s|p s]; simpl in *; subst s; [apply Hk|reflexivity].
  - intros m m' Hv. unfold bind.
    pose proof (Hs m) as H1. pose proof (Hs m') as H2. specialize (Ho m m' Hv).
    destruct (f m) as [a s|p s], (f m') as [a' s'|p' s'];
      simpl in *; subst; try discriminate.
    + injection Ho as ->. apply Hk. exact Hv.
    + injection Ho as ->. reflexivity.
Qed.

Lemma reads_load g : reads g (load (DM.mat g)).
Proof.
  split.
  - intros m. unfold load. destruct (headers m !! DM.mat g); reflexivity.
  - intros m m' [Hh _]. unfold load. rewrite <- Hh.
    destruct (headers m !! DM.mat g); reflexivity.
Qed.

Lemma reads_cell g (d : Dense) (i : nat) :
  reads g (fun m => match arrays m !! Data d with
                    | None => Panic NilDeref m
                    | Some a => match a !! i with
                                | Some v => Ok v m
                                | None => Panic IndexOutOfRange m
                                end
                    end).
Proof.
  split.
  - intros m. destruct (arrays m !! Data d) as [a|]; [|reflexivity].
    destruct (a !! i); reflexivity.
  - intros m m' [_ Ha]. rewrite <- Ha.
    destruct (arrays m !! Data d) as [a|]; [|reflexivity].
    destruct (a !! i); reflexivity.
Qed.

Lemma reads_At g r c : reads g (At (DM.mat g) r c).
Proof.
  unfold At. apply reads_bind; [apply reads_load|]. intros d.
  case_decide; [apply reads_throw|]. case_decide; [apply reads_throw|].
  apply reads_cell.
Qed.

Lemma reads_Dims g : reads g (Dims (DM.mat g)).
Proof.
  unfold Dims. apply reads_bind; [apply reads_load|]. intros d. apply reads_ret.
Qed.

Lemma reads_foldl g {A : Type} (body : Z -> A -> M mem A) (l : list Z) (init : M mem A) :
  (forall i a, reads g (body i a)) -> reads g init ->
  reads g (foldl (fun (f : M mem A) (i : Z) => do a <- f in body i a) init l).
Proof.
  intros Hb. revert init. induction l as [|i l IH]; intros init Hi; simpl.
  - exact Hi.
  - apply IH. apply reads_bind; [exact Hi|]. intros a. apply Hb.
Qed.

Lemma reads_for_upto g {A : Type} n (body : Z -> A -> M mem A) (acc : A) :
  (forall i a, reads g (body i a)) -> reads g (DM.for_upto n body acc).
Proof. intros Hb. apply reads_foldl; [exact Hb|apply reads_ret]. Qed.

(** One step of a proof that a query only reads. *)
Ltac reads_step :=
  first
    [ apply reads_ret | apply reads_throw | apply reads_Dims | apply reads_At
    | apply reads_for_upto; intros
    | apply reads_bind; [|intros]
    | match goal with
      | |- reads _ (if ?b then _ else _) => destruct b
      | |- reads _ (match ?x with _ => _ end) => destruct x
      end ].

Lemma reads_has g id : reads g (DM.has id g).
Proof. unfold DM.has. repeat reads_step. Qed.

Lemma reads_Node g id : reads g (DM.Node_ id g).
Proof. unfold DM.Node_. apply reads_bind; [apply reads_has|]. intros. repeat reads_step. Qed.

Lemma reads_Weight g x y : reads g (DM.Weight x y g).
Proof.
  unfold DM.Weight. case_decide; [apply reads_ret|].
  apply reads_bind; [apply reads_has|]. intros hx.
  apply reads_bind; [destruct hx; [apply reads_has|apply reads_ret]|]. intros hy.
  repeat reads_step.
Qed.

Section WithIsSame.
Variable isSame : float -> float -> bool.

Lemma reads_HasEdgeFromTo g u v : reads g (DM.HasEdgeFromTo isSame u v g).
Proof.
  unfold DM.HasEdgeFromTo.
  apply reads_bind; [apply reads_has|]. intros hu.
  destruct (negb hu); [apply reads_ret|].
  apply reads_bind; [apply reads_has|]. intros hv.
  repeat reads_step.
Qed.

Lemma reads_Edge g u v : reads g (DM.Edge_ isSame u v g).
Proof.
  unfold DM.Edge_. apply reads_bind; [apply reads_HasEdgeFromTo|]. intros b.
  destruct b; [|apply reads_ret].
  apply reads_bind; [apply reads_Node|]. intros nu.
  apply reads_bind; [apply reads_Node|]. intros nv.
  repeat reads_step.
Qed.

Lemma reads_From g id : reads g (DM.From isSame id g).
Proof.
  unfold DM.From. apply reads_bind; [apply reads_has|]. intros h.
  destruct (negb h); [apply reads_ret|].
  apply reads_bind; [apply reads_Dims|]. intros rc.
  apply reads_for_upto. intros j acc.
  case_decide; [apply reads_ret|].
  apply reads_bind; [apply reads_At|]. intros w.
  destruct (negb (isSame w (DM.absent g))); [|apply reads_ret].
  apply reads_bind; [apply reads_Node|]. intros. apply reads_ret.
Qed.

Lemma reads_To g id : reads g (DM.To isSame id g).
Proof.
  unfold DM.To. apply reads_bind; [apply reads_has|]. intros h.
  destruct (negb h); [apply reads_ret|].
  apply reads_bind; [apply reads_Dims|]. intros rc.
  apply reads_for_upto. intros j acc.
  case_decide; [apply reads_ret|].
  apply reads_bind; [apply reads_At|]. intros w.
  destruct (negb (isSame w (DM.absent g))); [|apply reads_ret].
  apply reads_bind; [apply reads_Node|]. intros. apply reads_ret.
Qed.

Lemma reads_Degree g id : reads g (DM.Degree isSame id g).
Proof. unfold DM.Degree. repeat reads_step. Qed.

End WithIsSame.

End DenseReads.

(** ** Queries about a node that is not in the store *)

Section AbsentNode.
Import mat64.

Lemma DG_absent_node (g : DG.DirectedGraph) id :
  DG_keys g -> DG.nodes g !! id = None ->
  DG.From id g = [] /\ DG.To id g = [] /\ DG.Degree id g = 0%nat.
Proof.
  intros Hk Hn. unfold DG.From, DG.To, DG.Degree.
  rewrite (DG_keys_from _ _ Hk Hn), Hn. auto.
Qed.

Lemma UG_absent_node (g : UG.UndirectedGraph) id :
  UG.nodes g !! id = None -> UG.From id g = [] /\ UG.Degree id g = 0%nat.
Proof.
  intros Hn. unfold UG.From, UG.Degree, UG.Has. rewrite Hn.
  rewrite bool_decide_eq_false_2 by (intros [? ?]; discriminate). auto.
Qed.

Lemma DM_has_false m g d a id :
  DM_points m g d a -> ~ (0 <= id < Rows d) -> DM.has id g m = Ok false m.
Proof.
  intros Hp Hout. rewrite (has_ok _ _ _ _ _ Hp). f_equal.
  destruct (decide (0 <= id)).
  - rewrite (bool_decide_eq_false_2 (id < Rows d)) by lia. apply andb_false_r.
  - rewrite (bool_decide_eq_false_2 (0 <= id)) by lia. reflexivity.
Qed.

Lemma DM_absent_node_From_To isSame m g d a id :
  DM_points m g d a -> ~ (0 <= id < Rows d) ->
  DM.From isSame id g m = Ok [] m /\ DM.To isSame id g m = Ok [] m.
Proof.
  intros Hp Hout. unfold DM.From, DM.To, bind.
  rewrite (DM_has_false _ _ _ _ _ Hp Hout). auto.
Qed.

Lemma foldl_bind_panic {A : Type} (body : Z -> A -> M mem A) l (init : M mem A) p m :
  init m = Panic p m ->
  foldl (fun (f : M mem A) (i : Z) => do a <- f in body i a) init l m = Panic p m.
Proof.
  revert init. induction l as [|i l IH]; intros init Hi; simpl.
  - exact Hi.
  - apply IH. unfold bind. rewrite Hi. reflexivity.
Qed.

(** [Degree] has no [has] guard: on a store with at least one node, the
    first cell it reads for an id outside the matrix is out of range. *)
Lemma DM_Degree_absent_node_panics isSame m g d a id :
  DM_points m g d a -> 0 < Rows d -> ~ (0 <= id < Rows d) ->
  DM.Degree isSame id g m = Panic ErrRowAccess m.
Proof.
  intros Hp Hpos Hout. unfold DM.Degree.
  unfold bind at 1. rewrite (Dims_ok _ _ _ _ Hp). simpl.
  unfold bind at 1.
  replace (DM.for_upto (Rows d) _ 0 m) with (@Panic mem Z ErrRowAccess m); [reflexivity|].
  symmetry. unfold DM.for_upto. rewrite seqZ_cons by exact Hpos. simpl.
  apply foldl_bind_panic. unfold bind, ret.
  rewrite decide_False by lia.
  rewrite (At_row_panic _ _ _ _ _ _ Hp Hout). reflexivity.
Qed.

End AbsentNode.

(** * The claims *)

Import mat64.

(** [maxInt] where [int] has 64 bits. *)
Definition maxInt64 : Z := 9223372036854775807.

(** The edge from node 0 to node 1 of weight 2.5. *)
Definition edge_0_1 : Edge := mkEdge (mkNode 0 0) (mkNode 1 0) 2.5%float.

(** The memory and the store built by [NewDirectedMatrix(4, 0, 0, -1)] in an
    empty memory. *)
Definition mem4 : mem := mkMem [mkDense 4 4 4 0] [replicate 16 0%float].
Definition dm4 : DM.DirectedMatrix := DM.mkDirectedMatrix 0 None 0%float (-1)%float.

Lemma dm4_built : DM.NewDirectedMatrix 4 0 0 (-1) empty_mem = Ok dm4 mem4.
Proof. vm_compute. reflexivity. Qed.

(** C1, as the claim states it, fails at its own example: the cell of the
    edge from 1 to 0 holds the init weight 0.0, which is not the absent
    weight -1.0, and [Weight(1,0)] returns (0.0, true), not (-1.0, false). *)
Lemma C1_counterexample :
  outcome_of ((do g <- DM.NewDirectedMatrix 4 0 0 (-1) in
               do_ DM.SetEdge edge_0_1 g in
               DM.Weight 1 0 g) empty_mem) = inr (0%float, true)
  /\ (0%float, true) <> ((-1)%float, false).
Proof. split; [vm_compute; reflexivity|discriminate]. Qed.

(** C1 (amended): in any memory, after [NewDirectedMatrix(4, 0.0, 0.0, -1.0)]
    and [SetEdge] of an edge from 0 to 1 of weight 2.5, [Weight(0,1)] returns
    (2.5, true), [Weight(1,0)] returns (0.0, true) and [Weight(2,2)] returns
    (0.0, true); and for every dense store, [Weight(x,y)] returns the absent
    weight and false whenever x and y differ and one of them is not a node
    of the store. *)
Theorem C1_dense_weight :
  (forall m0 l0 l1, exists g m1 m2,
      DM.NewDirectedMatrix 4 0 0 (-1) m0 = Ok g m1 /\
      DM.SetEdge (mkEdge (mkNode 0 l0) (mkNode 1 l1) 2.5) g m1 = Ok tt m2 /\
      DM.Weight 0 1 g m2 = Ok (2.5%float, true) m2 /\
      DM.Weight 1 0 g m2 = Ok (0%float, true) m2 /\
      DM.Weight 2 2 g m2 = Ok (0%float, true) m2) /\
  (forall m g d a x y,
      DM_points m g d a -> x <> y ->
      ~ (0 <= x < Rows d /\ 0 <= y < Rows d) ->
      DM.Weight x y g m = Ok (DM.absent g, false) m).
Proof.
  split.
  - intros m0 l0 l1.
    destruct (NewDirectedMatrix_ok 4 0 0 (-1) m0)
      as (g & m1 & d & a & E & Hp & Hsq & Hself & _ & _ & Ha).
    change (Z.of_nat 4) with 4 in Hsq.
    assert (a = replicate 16 0%float) as -> by (rewrite Ha; vm_compute; reflexivity).
    destruct (Set_shared m1 g d _ 4 (DM.mat g) 0 1 2.5 Hp Hsq (proj1 Hp)
                ltac:(lia) ltac:(lia)) as (m2 & Es & _ & Hp2 & Hsq2).
    exists g, m1, m2. split; [exact E|]. split.
    { unfold DM.SetEdge. simpl. exact Es. }
    split; [|split].
    + apply (Weight_inside _ _ _ _ 4 0 1 _ Hp2 Hsq2); try lia. reflexivity.
    + apply (Weight_inside _ _ _ _ 4 1 0 _ Hp2 Hsq2); try lia. reflexivity.
    + rewrite Weight_self, Hself. reflexivity.
  - intros m g d a x y. apply Weight_outside.
Qed.

(** The second part of C1 (amended) at the store of the example: 7 is not a
    node, so [Weight(1,7)] is the absent weight and false. *)
Lemma C1_dense_weight_witness :
  DM.Weight 1 7 dm4 mem4 = Ok ((-1)%float, false) mem4.
Proof.
  apply (proj2 C1_dense_weight mem4 dm4 (mkDense 4 4 4 0) (replicate 16 0%float) 1 7).
  - split; reflexivity.
  - lia.
  - simpl. lia.
Defined.

(** Beside C1: between two nodes [Weight] reports the cell as found even
    when the cell holds the absent weight.  After [RemoveEdge] of the edge
    from 0 to 1 there is no edge from 0 to 1, and [Weight(0,1)] returns
    (-1.0, true). *)
Example DM_Weight_of_removed_edge :
  outcome_of ((do_ DM.RemoveEdge edge_0_1 dm4 in
               DM.HasEdgeFromTo PrimFloat.eqb 0 1 dm4) mem4) = inr false /\
  outcome_of ((do_ DM.RemoveEdge edge_0_1 dm4 in
               DM.Weight 0 1 dm4) mem4) = inr ((-1)%float, true).
Proof. split; vm_compute; reflexivity. Qed.

(** C2: starting from the empty directed store, after every sequence of
    [NewNodeID], [AddNode], [RemoveNode], [SetEdge] and [RemoveEdge] calls
    (a call that panics leaves the store as the panic found it), for all ids
    u and v, [from[u][v]] holds an edge exactly when [to[v][u]] holds the
    same edge. *)
Theorem C2_directed_mirror (maxInt : Z) (cs : list call) (s a : float) (u v : Z) (e : Edge) :
  lookup2 (DG.from (DG_run maxInt cs (DG.NewDirectedGraph s a))) u v = Some e <->
  lookup2 (DG.to (DG_run maxInt cs (DG.NewDirectedGraph s a))) v u = Some e.
Proof.
  destruct (DG_run_inv maxInt cs _ (DG_inv_new s a)) as [_ Hm].
  rewrite (Hm u v). reflexivity.
Qed.

(** C3 fails for the dense store: [Degree] of an id that is not a node of
    the store of [NewDirectedMatrix(4, 0, 0, -1)] does not return zero, it
    panics with mat64's row-index error, whatever [isSame] is. *)
Theorem C3_dense_Degree_of_absent_node_panics (isSame : float -> float -> bool) :
  outcome_of ((do g <- DM.NewDirectedMatrix 4 0 0 (-1) in
               DM.Degree isSame 7 g) empty_mem) = inl ErrRowAccess.
Proof.
  unfold bind at 1. rewrite dm4_built.
  rewrite (DM_Degree_absent_node_panics isSame mem4 dm4 (mkDense 4 4 4 0)
             (replicate 16 0%float) 7).
  - reflexivity.
  - split; reflexivity.
  - simpl. lia.
  - simpl. lia.
Qed.

(** C5: for each of the three stores and every edge whose end points have
    the same id, [SetEdge] panics and the store is as it was before the
    call. *)
Theorem C5_self_loop_rejected (e : Edge) (dg : DG.DirectedGraph)
    (ug : UG.UndirectedGraph) (dm : DM.DirectedMatrix) (m : mem) :
  ID (F e) = ID (T e) ->
  DG.SetEdge e dg = Panic SelfEdge dg /\
  UG.SetEdge e ug = Panic SelfEdge ug /\
  DM.SetEdge e dm m = Panic IllegalEdge m.
Proof.
  intros Heq. unfold DG.SetEdge, UG.SetEdge, DM.SetEdge.
  rewrite !decide_True by exact Heq. auto.
Qed.

Lemma C5_self_loop_rejected_witness :
  DG.SetEdge (mkEdge (mkNode 3 0) (mkNode 3 1) 1) (DG.NewDirectedGraph 0 0)
    = Panic SelfEdge (DG.NewDirectedGraph 0 0) /\
  UG.SetEdge (mkEdge (mkNode 3 0) (mkNode 3 1) 1) (UG.NewUndirectedGraph 0 0)
    = Panic SelfEdge (UG.NewUndirectedGraph 0 0) /\
  DM.SetEdge (mkEdge (mkNode 3 0) (mkNode 3 1) 1) dm4 mem4 = Panic IllegalEdge mem4.
Proof.
  apply (C5_self_loop_rejected (mkEdge (mkNode 3 0) (mkNode 3 1) 1)).
  reflexivity.
Defined.

(** C4, as the claim states it, fails: a [Set] through the matrix that
    [Matrix()] returns changes what [Weight(2,3)] reports, from (0.0, true)
    to (7.5, true). *)
Lemma C4_counterexample :
  outcome_of ((do g <- DM.NewDirectedMatrix 4 0 0 (-1) in
               DM.Weight 2 3 g) empty_mem) = inr (0%float, true) /\
  outcome_of ((do g <- DM.NewDirectedMatrix 4 0 0 (-1) in
               do p <- DM.Matrix g in
               do_ Set_ p 2 3 7.5 in
               DM.Weight 2 3 g) empty_mem) = inr (7.5%float, true).
Proof. split; vm_compute; reflexivity. Qed.

(** C4 (amended): [Matrix()] returns a pointer to a copy of the matrix
    header, which shares the backing data of the store.  For every store
    state, overwriting the returned header (its dimensions, stride or data
    slice) leaves the results of [Weight], [Edge], [From], [To] and [Degree]
    unchanged, whereas a [Set(i, j, v)] through the returned matrix, for
    distinct nodes i and j, is visible in the store: [Weight(i,j)] then
    returns (v, true). *)
Theorem C4_Matrix_copies_header_only (isSame : float -> float -> bool)
    (m : mem) (g : DM.DirectedMatrix) (d : Dense) (a : list float) (n : Z) :
  DM_points m g d a -> DM_square n d a ->
  exists p m1,
    DM.Matrix g m = Ok p m1 /\ p <> DM.mat g /\ headers m1 !! p = Some d /\
    (forall d', exists m2,
        store p d' m1 = Ok tt m2 /\
        forall x y,
          outcome_of (DM.Weight x y g m2) = outcome_of (DM.Weight x y g m) /\
          outcome_of (DM.Edge_ isSame x y g m2) = outcome_of (DM.Edge_ isSame x y g m) /\
          outcome_of (DM.From isSame x g m2) = outcome_of (DM.From isSame x g m) /\
          outcome_of (DM.To isSame x g m2) = outcome_of (DM.To isSame x g m) /\
          outcome_of (DM.Degree isSame x g m2) = outcome_of (DM.Degree isSame x g m)) /\
    (forall i j v, 0 <= i < n -> 0 <= j < n -> i <> j ->
        exists m2, Set_ p i j v m1 = Ok tt m2 /\
                   DM.Weight i j g m2 = Ok (v, true) m2).
Proof.
  intros Hp Hsq. pose proof Hp as [Hh Ha].
  pose proof (lookup_lt_Some _ _ _ Hh) as Hlt.
  exists (length (headers m)), (mkMem (headers m ++ [d]) (arrays m)).
  assert (DM_points (mkMem (headers m ++ [d]) (arrays m)) g d a) as Hp1.
  { split; simpl; [|exact Ha]. rewrite lookup_app_l by exact Hlt. exact Hh. }
  assert ((headers m ++ [d]) !! length (headers m) = Some d) as Hnew.
  { rewrite lookup_app_r by lia. rewrite Nat.sub_diag. reflexivity. }
  split; [|split; [|split; [|split]]].
  - unfold DM.Matrix, bind, load, alloc_header. rewrite Hh. reflexivity.
  - lia.
  - exact Hnew.
  - intros d'. eexists. split.
    + unfold store. simpl. rewrite Hnew. reflexivity.
    + assert (same_view g
                (mkMem (<[length (headers m) := d']> (headers m ++ [d])) (arrays m)) m)
        as Hv.
      { split; simpl; [|reflexivity].
        rewrite list_lookup_insert_ne by lia. rewrite lookup_app_l by exact Hlt.
        reflexivity. }
      intros x y. repeat split.
      * apply (reads_Weight g x y). exact Hv.
      * apply (reads_Edge isSame g x y). exact Hv.
      * apply (reads_From isSame g x). exact Hv.
      * apply (reads_To isSame g x). exact Hv.
      * apply (reads_Degree isSame g x). exact Hv.
  - intros i j v Hi Hj Hne.
    destruct (Set_shared _ g d a n (length (headers m)) i j v Hp1 Hsq Hnew Hi Hj)
      as (m2 & Es & _ & Hp2 & Hsq2).
    exists m2. split; [exact Es|].
    apply (Weight_inside _ _ _ _ n i j v Hp2 Hsq2 Hne Hi Hj).
    apply list_lookup_insert_eq.
    pose proof (DM_index_lt n d a i j Hsq Hi Hj) as Hidx.
    destruct Hsq as (_ & _ & _ & HS & _). rewrite HS in Hidx. exact Hidx.
Qed.

Lemma C4_Matrix_copies_header_only_witness :
  exists p m1,
    DM.Matrix dm4 mem4 = Ok p m1 /\ p <> DM.mat dm4 /\
    headers m1 !! p = Some (mkDense 4 4 4 0) /\
    (forall d', exists m2,
        store p d' m1 = Ok tt m2 /\
        forall x y,
          outcome_of (DM.Weight x y dm4 m2) = outcome_of (DM.Weight x y dm4 mem4) /\
          outcome_of (DM.Edge_ PrimFloat.eqb x y dm4 m2)
            = outcome_of (DM.Edge_ PrimFloat.eqb x y dm4 mem4) /\
          outcome_of (DM.From PrimFloat.eqb x dm4 m2)
            = outcome_of (DM.From PrimFloat.eqb x dm4 mem4) /\
          outcome_of (DM.To PrimFloat.eqb x dm4 m2)
            = outcome_of (DM.To PrimFloat.eqb x dm4 mem4) /\
          outcome_of (DM.Degree PrimFloat.eqb x dm4 m2)
            = outcome_of (DM.Degree PrimFloat.eqb x dm4 mem4)) /\
    (forall i j v, 0 <= i < 4 -> 0 <= j < 4 -> i <> j ->
        exists m2, Set_ p i j v m1 = Ok tt m2 /\
                   DM.Weight i j dm4 m2 = Ok (v, true) m2).
Proof.
  apply (C4_Matrix_copies_header_only PrimFloat.eqb mem4 dm4
           (mkDense 4 4 4 0) (replicate 16 0%float) 4).
  - split; reflexivity.
  - unfold DM_square. simpl. lia.
Defined.

(** The calls of the id-reuse examples, for nodes of any content. *)
Definition add_0_1_2 (l0 l1 l2 : nat) : list call :=
  [CallAddNode (mkNode 0 l0); CallAddNode (mkNode 1 l1); CallAddNode (mkNode 2 l2)].

(** C6, as the claim states it, fails: after adding node 5 and removing it
    the free set is {5}, its smallest id is 5, and [NewNodeID] returns 0. *)
Lemma C6_counterexample :
  intsets.Min (DG.freeIDs (DG_run maxInt64 [CallAddNode (mkNode 5 0); CallRemoveNode 5]
                                  (DG.NewDirectedGraph 0 0))) = Some 5 /\
  outcome_of (DG.NewNodeID maxInt64
                (DG_run maxInt64 [CallAddNode (mkNode 5 0); CallRemoveNode 5]
                        (DG.NewDirectedGraph 0 0))) = inr 0 /\
  intsets.Min (UG.freeIDs (UG_run maxInt64 [CallAddNode (mkNode 5 0); CallRemoveNode 5]
                                  (UG.NewUndirectedGraph 0 0))) = Some 5 /\
  outcome_of (UG.NewNodeID maxInt64
                (UG_run maxInt64 [CallAddNode (mkNode 5 0); CallRemoveNode 5]
                        (UG.NewUndirectedGraph 0 0))) = inr 0.
Proof. repeat split; vm_compute; reflexivity. Qed.

(** C6 (amended): for both sparse stores and every state, [NewNodeID]
    returns 0 when the store has no node, whatever the free set holds;
    otherwise it panics when the number of nodes is [maxInt]; otherwise it
    returns the smallest id of the free set, and removes it from the free
    set, when the free set is not empty; otherwise one past the greatest
    used id when that id is below [maxInt]; otherwise the first id from 0
    below [maxInt] that is not used.  It panics only when the number of
    nodes is [maxInt] or when the free set is empty and every id from 0
    below [maxInt] is used; the store is then unchanged. *)
Theorem C6_NewNodeID_policy (maxInt : Z) :
  (forall g : DG.DirectedGraph,
      alloc_policy maxInt (size (DG.nodes g)) (DG.freeIDs g) (DG.usedIDs g)
        g (fun f => DG.set_freeIDs f g) (DG.NewNodeID maxInt g)) /\
  (forall g : UG.UndirectedGraph,
      alloc_policy maxInt (size (UG.nodes g)) (UG.freeIDs g) (UG.usedIDs g)
        g (fun f => UG.set_freeIDs f g) (UG.NewNodeID maxInt g)).
Proof. split; intros g; [apply DG_NewNodeID_policy|apply UG_NewNodeID_policy]. Qed.

(** The first clause of C6 (amended) at the store of the counterexample. *)
Lemma C6_NewNodeID_policy_witness :
  DG.NewNodeID maxInt64
    (DG_run maxInt64 [CallAddNode (mkNode 5 0); CallRemoveNode 5] (DG.NewDirectedGraph 0 0))
  = Ok 0 (DG_run maxInt64 [CallAddNode (mkNode 5 0); CallRemoveNode 5]
                 (DG.NewDirectedGraph 0 0)).
Proof.
  apply (proj1 (proj1 (C6_NewNodeID_policy maxInt64) _)).
  vm_compute. reflexivity.
Defined.

(** C7 fails for an undirected source and a directed destination: the
    undirected store hands out the one stored edge for both orders of its
    end points, so [Copy] sets the edge from 0 to 1 twice and never the edge
    from 1 to 0. *)
Theorem C7_Copy_undirected_to_directed_one_direction :
  outcome_of (UG.SetEdge edge_0_1 (UG.NewUndirectedGraph 0 0)) = inr tt /\
  UG.EdgeBetween 0 1 (state_of (UG.SetEdge edge_0_1 (UG.NewUndirectedGraph 0 0)))
    = Some edge_0_1 /\
  UG.EdgeBetween 1 0 (state_of (UG.SetEdge edge_0_1 (UG.NewUndirectedGraph 0 0)))
    = Some edge_0_1 /\
  outcome_of (graph.Copy (state_of (UG.SetEdge edge_0_1 (UG.NewUndirectedGraph 0 0)))
                         (DG.NewDirectedGraph 0 0)) = inr tt /\
  DG.HasEdgeFromTo 0 1
    (state_of (graph.Copy (state_of (UG.SetEdge edge_0_1 (UG.NewUndirectedGraph 0 0)))
                          (DG.NewDirectedGraph 0 0))) = true /\
  DG.HasEdgeFromTo 1 0
    (state_of (graph.Copy (state_of (UG.SetEdge edge_0_1 (UG.NewUndirectedGraph 0 0)))
                          (DG.NewDirectedGraph 0 0))) = false.
Proof. repeat split; vm_compute; reflexivity. Qed.

(** C8: in every state of the undirected store reached from the empty store
    by [NewNodeID], [AddNode], [RemoveNode], [SetEdge] and [RemoveEdge]
    calls, for every edge e whose end points F and T have distinct ids,
    [SetEdge(e)] returns and then [EdgeBetween(F,T)] and [EdgeBetween(T,F)]
    both return e; after [RemoveEdge(e)] both return nil. *)
Theorem C8_undirected_set_then_remove (maxInt : Z) (cs : list call) (s a : float)
    (e : Edge) :
  ID (F e) <> ID (T e) ->
  exists g1 g2,
    UG.SetEdge e (UG_run maxInt cs (UG.NewUndirectedGraph s a)) = Ok tt g1 /\
    UG.EdgeBetween (ID (F e)) (ID (T e)) g1 = Some e /\
    UG.EdgeBetween (ID (T e)) (ID (F e)) g1 = Some e /\
    UG.RemoveEdge e g1 = Ok tt g2 /\
    UG.EdgeBetween (ID (F e)) (ID (T e)) g2 = None /\
    UG.EdgeBetween (ID (T e)) (ID (F e)) g2 = None.
Proof.
  intros Hne. apply UG_set_get_remove; [|exact Hne].
  apply UG_run_keys. apply UG_keys_new.
Qed.

Lemma C8_undirected_set_then_remove_witness :
  exists g1 g2,
    UG.SetEdge edge_0_1
      (UG_run maxInt64 [CallAddNode (mkNode 1 7); CallRemoveNode 1]
              (UG.NewUndirectedGraph 0 0)) = Ok tt g1 /\
    UG.EdgeBetween 0 1 g1 = Some edge_0_1 /\
    UG.EdgeBetween 1 0 g1 = Some edge_0_1 /\
    UG.RemoveEdge edge_0_1 g1 = Ok tt g2 /\
    UG.EdgeBetween 0 1 g2 = None /\
    UG.EdgeBetween 1 0 g2 = None.
Proof.
  apply (C8_undirected_set_then_remove maxInt64
           [CallAddNode (mkNode 1 7); CallRemoveNode 1] 0 0 edge_0_1).
  simpl. lia.
Defined.

(** C9: for both sparse stores, after adding nodes with ids 0, 1 and 2 and
    removing node 1, [NewNodeID] returns 1 (and not 3), provided [maxInt]
    exceeds the two nodes the store holds. *)
Theorem C9_id_reuse (maxInt : Z) (s a : float) (l0 l1 l2 : nat) :
  2 < maxInt ->
  outcome_of (DG.NewNodeID maxInt
                (DG_run maxInt (add_0_1_2 l0 l1 l2 ++ [CallRemoveNode 1])
                        (DG.NewDirectedGraph s a))) = inr 1 /\
  outcome_of (UG.NewNodeID maxInt
                (UG_run maxInt (add_0_1_2 l0 l1 l2 ++ [CallRemoveNode 1])
                        (UG.NewUndirectedGraph s a))) = inr 1.
Proof.
  intros Hmax. split.
  - set (g := DG_run _ _ _).
    assert (size (DG.nodes g) = 2%nat) as Hsz by (vm_compute; reflexivity).
    assert (DG.freeIDs g = {[1]}) as Hfree by (vm_compute; reflexivity).
    destruct (DG_NewNodeID_policy maxInt g) as (_ & _ & Htake & _).
    rewrite (Htake ltac:(lia) ltac:(lia) 1); [reflexivity|].
    rewrite Hfree. split; [set_solver|]. intros y Hy.
    apply elem_of_singleton in Hy. lia.
  - set (g := UG_run _ _ _).
    assert (size (UG.nodes g) = 2%nat) as Hsz by (vm_compute; reflexivity).
    assert (UG.freeIDs g = {[1]}) as Hfree by (vm_compute; reflexivity).
    destruct (UG_NewNodeID_policy maxInt g) as (_ & _ & Htake & _).
    rewrite (Htake ltac:(lia) ltac:(lia) 1); [reflexivity|].
    rewrite Hfree. split; [set_solver|]. intros y Hy.
    apply elem_of_singleton in Hy. lia.
Qed.

Lemma C9_id_reuse_witness :
  outcome_of (DG.NewNodeID maxInt64
                (DG_run maxInt64 (add_0_1_2 0 0 0 ++ [CallRemoveNode 1])
                        (DG.NewDirectedGraph 0 0))) = inr 1 /\
  outcome_of (UG.NewNodeID maxInt64
                (UG_run maxInt64 (add_0_1_2 0 0 0 ++ [CallRemoveNode 1])
                        (UG.NewUndirectedGraph 0 0))) = inr 1.
Proof. apply (C9_id_reuse maxInt64 0 0 0 0 0). reflexivity. Defined.

(** C10: for both sparse stores, [NewNodeID] changes the store: whenever it
    takes the id from the free set (the store has nodes, fewer than
    [maxInt], and the free set is not empty) the id returned is the smallest
    free id and the store afterwards has it removed from the free set; and
    after adding nodes 0, 1, 2 and removing nodes 0 and 1, two successive
    calls return 0 and then 1. *)
Theorem C10_NewNodeID_takes_from_free_set (maxInt : Z) :
  2 < maxInt ->
  (forall g : DG.DirectedGraph,
      size (DG.nodes g) <> 0%nat -> Z.of_nat (size (DG.nodes g)) <> maxInt ->
      DG.freeIDs g <> ∅ ->
      exists id, is_min id (DG.freeIDs g) /\
                 DG.NewNodeID maxInt g = Ok id (DG.set_freeIDs (DG.freeIDs g ∖ {[id]}) g)) /\
  (forall g : UG.UndirectedGraph,
      size (UG.nodes g) <> 0%nat -> Z.of_nat (size (UG.nodes g)) <> maxInt ->
      UG.freeIDs g <> ∅ ->
      exists id, is_min id (UG.freeIDs g) /\
                 UG.NewNodeID maxInt g = Ok id (UG.set_freeIDs (UG.freeIDs g ∖ {[id]}) g)) /\
  (forall (s a : float) (l0 l1 l2 : nat),
      exists g1 g2,
        DG.NewNodeID maxInt
          (DG_run maxInt (add_0_1_2 l0 l1 l2 ++ [CallRemoveNode 0; CallRemoveNode 1])
                  (DG.NewDirectedGraph s a)) = Ok 0 g1 /\
        DG.NewNodeID maxInt g1 = Ok 1 g2) /\
  (forall (s a : float) (l0 l1 l2 : nat),
      exists g1 g2,
        UG.NewNodeID maxInt
          (UG_run maxInt (add_0_1_2 l0 l1 l2 ++ [CallRemoveNode 0; CallRemoveNode 1])
                  (UG.NewUndirectedGraph s a)) = Ok 0 g1 /\
        UG.NewNodeID maxInt g1 = Ok 1 g2).
Proof.
  intros Hmax.
  assert (forall f : gset Z, f <> ∅ -> exists id, is_min id f) as Hex.
  { intros f Hf. destruct (intsets.Min f) as [x|] eqn:E.
    - exists x. apply Min_is_min. exact E.
    - destruct Hf. apply Min_None. exact E. }
  assert (is_min 0 ({[0; 1]} : gset Z)) as Hmin0.
  { split; [set_solver|]. intros y Hy.
    apply elem_of_union in Hy. destruct Hy as [Hy|Hy]; apply elem_of_singleton in Hy; lia. }
  assert (is_min 1 (({[0; 1]} : gset Z) ∖ {[0]})) as Hmin1.
  { split; [set_solver|]. intros y Hy. apply elem_of_difference in Hy.
    destruct Hy as [Hy Hn]. apply elem_of_union in Hy.
    destruct Hy as [Hy|Hy]; apply elem_of_singleton in Hy; [|lia].
    destruct Hn. apply elem_of_singleton. exact Hy. }
  split; [|split; [|split]].
  - intros g H0 Hm Hf. destruct (Hex _ Hf) as [id Hid]. exists id. split; [exact Hid|].
    destruct (DG_NewNodeID_policy maxInt g) as (_ & _ & Htake & _). apply Htake; assumption.
  - intros g H0 Hm Hf. destruct (Hex _ Hf) as [id Hid]. exists id. split; [exact Hid|].
    destruct (UG_NewNodeID_policy maxInt g) as (_ & _ & Htake & _). apply Htake; assumption.
  - intros s a l0 l1 l2. set (g := DG_run _ _ _).
    assert (size (DG.nodes g) = 1%nat) as Hsz by (vm_compute; reflexivity).
    assert (DG.freeIDs g = {[0; 1]}) as Hfree by (vm_compute; reflexivity).
    destruct (DG_NewNodeID_policy maxInt g) as (_ & _ & Htake & _).
    eexists. eexists. split.
    + apply Htake; [lia|lia|]. rewrite Hfree. exact Hmin0.
    + set (g1 := DG.set_freeIDs _ g).
      destruct (DG_NewNodeID_policy maxInt g1) as (_ & _ & Htake1 & _).
      apply Htake1; [simpl; lia|simpl; lia|]. simpl. rewrite Hfree. exact Hmin1.
  - intros s a l0 l1 l2. set (g := UG_run _ _ _).
    assert (size (UG.nodes g) = 1%nat) as Hsz by (vm_compute; reflexivity).
    assert (UG.freeIDs g = {[0; 1]}) as Hfree by (vm_compute; reflexivity).
    destruct (UG_NewNodeID_policy maxInt g) as (_ & _ & Htake & _).
    eexists. eexists. split.
    + apply Htake; [lia|lia|]. rewrite Hfree. exact Hmin0.
    + set (g1 := UG.set_freeIDs _ g).
      destruct (UG_NewNodeID_policy maxInt g1) as (_ & _ & Htake1 & _).
      apply Htake1; [simpl; lia|simpl; lia|]. simpl. rewrite Hfree. exact Hmin1.
Qed.

Lemma C10_NewNodeID_takes_from_free_set_witness :
  exists g1 g2,
    DG.NewNodeID maxInt64
      (DG_run maxInt64 (add_0_1_2 0 0 0 ++ [CallRemoveNode 0; CallRemoveNode 1])
              (DG.NewDirectedGraph 0 0)) = Ok 0 g1 /\
    DG.NewNodeID maxInt64 g1 = Ok 1 g2.
Proof.
  apply (proj1 (proj2 (proj2 (C10_NewNodeID_takes_from_free_set maxInt64 eq_refl))) 0%float 0%float
           0%nat 0%nat 0%nat).
Defined.


(** * Further properties of the stores *)

(** ** Well-formed states of the sparse directed store *)

(** The store reached from the empty store by the calls [cs]. *)
Definition DG_reached (maxInt : Z) (cs : list call) (s a : float) : DG.DirectedGraph :=
  DG_run maxInt cs (DG.NewDirectedGraph s a).

(** Every node is filed under its own id. *)
Definition DG_node_ids (g : DG.DirectedGraph) : Prop :=
  forall k n, DG.nodes g !! k = Some n -> ID n = k.

(** Every stored edge is filed under the ids of its end points, which
    differ. *)
Definition DG_edge_ids (g : DG.DirectedGraph) : Prop :=
  forall u v e, lookup2 (DG.from g) u v = Some e ->
                ID (F e) = u /\ ID (T e) = v /\ u <> v.

(** The used set is the set of node ids, and no free id is a node id. *)
Definition DG_alloc (g : DG.DirectedGraph) : Prop :=
  DG.usedIDs g = dom (DG.nodes g) /\ DG.freeIDs g ## dom (DG.nodes g).

Definition DG_wf (g : DG.DirectedGraph) : Prop :=
  DG_inv g /\ DG_node_ids g /\ DG_edge_ids g /\ DG_alloc g.

Section DisjointSets.
Implicit Types (free d : gset Z) (x : Z).

Lemma disjoint_remove_insert free d x : free ## d -> free ∖ {[x]} ## {[x]} ∪ d.
Proof.
  intros H y Hy Hd. apply elem_of_difference in Hy. destruct Hy as [Hy Hn].
  apply elem_of_union in Hd. destruct Hd as [Hd|Hd]; [exact (Hn Hd)|exact (H y Hy Hd)].
Qed.

Lemma disjoint_insert_delete free d x : free ## d -> {[x]} ∪ free ## d ∖ {[x]}.
Proof.
  intros H y Hy Hd. apply elem_of_difference in Hd. destruct Hd as [Hd Hn].
  apply elem_of_union in Hy. destruct Hy as [Hy|Hy]; [exact (Hn Hy)|exact (H y Hy Hd)].
Qed.

Lemma disjoint_take free d x : free ## d -> free ∖ {[x]} ## d.
Proof.
  intros H y Hy Hd. apply elem_of_difference in Hy. destruct Hy as [Hy _].
  exact (H y Hy Hd).
Qed.

End DisjointSets.

Section DirectedWellFormed.
Implicit Types (g : DG.DirectedGraph) (n : Node) (e : Edge) (id u v k : Z).

Lemma DG_wf_new (s a : float) : DG_wf (DG.NewDirectedGraph s a).
Proof.
  split; [apply DG_inv_new|]. split; [|split; [|split]]; simpl.
  - intros k n H. simpl in H. rewrite lookup_empty in H. discriminate.
  - intros u v e H. discriminate.
  - rewrite dom_empty_L. reflexivity.
  - rewrite dom_empty_L. intros y Hy. apply not_elem_of_empty in Hy. destruct Hy.
Qed.

(** An edge is stored only between two nodes of the store. *)
Lemma DG_edge_nodes g u v e :
  DG_inv g -> lookup2 (DG.from g) u v = Some e ->
  is_Some (DG.nodes g !! u) /\ is_Some (DG.nodes g !! v).
Proof.
  intros [[Hf Ht] Hm] H. split.
  - apply Hf. unfold lookup2 in H. destruct (DG.from g !! u); [eauto|discriminate].
  - apply Ht. rewrite Hm in H. unfold lookup2 in H.
    destruct (DG.to g !! v); [eauto|discriminate].
Qed.

Lemma DG_AddNode_wf n g : DG_wf g -> DG_wf (state_of (DG.AddNode n g)).
Proof.
  intros (Hi & Hn & He & Hu & Hfr). split; [apply DG_AddNode_inv; exact Hi|].
  destruct (DG.nodes g !! ID n) as [x|] eqn:Hx.
  { unfold DG.AddNode. rewrite Hx. simpl. exact (conj Hn (conj He (conj Hu Hfr))). }
  rewrite DG_AddNode_fresh by exact Hx. simpl.
  split; [|split; [|split]]; simpl.
  - intros k n'. simpl. rewrite lookup_insert.
    destruct (decide (ID n = k)) as [<-|]; [intros [= <-]; reflexivity|apply Hn].
  - intros u v e. simpl. rewrite lookup2_insert_inner.
    destruct (decide (ID n = u)); [rewrite lookup_empty; discriminate|apply He].
  - unfold intsets.Insert. rewrite dom_insert_L, Hu. reflexivity.
  - unfold intsets.Remove. rewrite dom_insert_L. apply disjoint_remove_insert. exact Hfr.
Qed.

Lemma DG_RemoveNode_from g id x u v :
  DG_inv g -> DG.nodes g !! id = Some x ->
  lookup2 (DG.from (state_of (DG.RemoveNode id g))) u v =
  if decide (u = id \/ v = id) then None else lookup2 (DG.from g) u v.
Proof.
  intros [Hk Hm] Hx. unfold DG.RemoveNode. rewrite Hx. simpl.
  rewrite lookup2_delete_all, lookup2_delete_outer.
  destruct (decide (id = u)) as [<-|Hu].
  - rewrite (decide_True (P := id = id \/ v = id)) by tauto.
    destruct (decide (_ /\ _)); reflexivity.
  - destruct (decide (id = v)) as [<-|Hv].
    + rewrite (decide_True (P := u = id \/ id = id)) by tauto.
      destruct (decide (u ∈ _ /\ id = id)) as [_|Hn2]; [reflexivity|].
      apply eq_None_not_Some. intros Hs. apply Hn2. split; [|reflexivity].
      apply elem_of_keys2. rewrite lookup2_delete_all.
      rewrite decide_False by (intros [_ ?]; congruence).
      rewrite <- Hm. exact Hs.
    + rewrite (decide_False (P := _ /\ id = v)) by tauto.
      rewrite (decide_False (P := u = id \/ v = id)) by (intros [?|?]; congruence).
      reflexivity.
Qed.

Lemma DG_RemoveNode_wf id g : DG_wf g -> DG_wf (state_of (DG.RemoveNode id g)).
Proof.
  intros (Hi & Hn & He & Hu & Hfr). split; [apply DG_RemoveNode_inv; exact Hi|].
  destruct (DG.nodes g !! id) as [x|] eqn:Hx.
  2:{ unfold DG.RemoveNode. rewrite Hx. simpl. exact (conj Hn (conj He (conj Hu Hfr))). }
  split; [|split; [|split]].
  - unfold DG.RemoveNode. rewrite Hx. simpl. intros k n'. simpl.
    rewrite lookup_delete. destruct (decide (id = k)); [discriminate|apply Hn].
  - intros u v e. rewrite (DG_RemoveNode_from g id x u v Hi Hx).
    destruct (decide (u = id \/ v = id)); [discriminate|apply He].
  - unfold DG.RemoveNode. rewrite Hx. simpl. unfold intsets.Remove.
    rewrite dom_delete_L, Hu. reflexivity.
  - unfold DG.RemoveNode. rewrite Hx. simpl. unfold intsets.Insert.
    rewrite dom_delete_L. apply disjoint_insert_delete. exact Hfr.
Qed.

Lemma DG_RemoveEdge_wf e g : DG_wf g -> DG_wf (state_of (DG.RemoveEdge e g)).
Proof.
  intros (Hi & Hn & He & Hu & Hfr). split; [apply DG_RemoveEdge_inv; exact Hi|].
  unfold DG.RemoveEdge.
  destruct (DG.nodes g !! ID (F e)); simpl; [|exact (conj Hn (conj He (conj Hu Hfr)))].
  destruct (DG.nodes g !! ID (T e)); simpl; [|exact (conj Hn (conj He (conj Hu Hfr)))].
  split; [exact Hn|]. split; [|split; assumption].
  intros u v e'. simpl. rewrite lookup2_delete2.
  destruct (decide (_ /\ _)); [discriminate|apply He].
Qed.

Lemma DG_NewNodeID_wf maxInt g : DG_wf g -> DG_wf (state_of (DG.NewNodeID maxInt g)).
Proof.
  intros (Hi & Hn & He & Hu & Hfr). split; [apply DG_NewNodeID_inv; exact Hi|].
  unfold DG.NewNodeID.
  destruct (decide (size (DG.nodes g) = 0%nat)); [exact (conj Hn (conj He (conj Hu Hfr)))|].
  destruct (decide (Z.of_nat (size (DG.nodes g)) = maxInt)); [exact (conj Hn (conj He (conj Hu Hfr)))|].
  destruct (if decide (intsets.Len (DG.freeIDs g) = 0%nat) then None
            else intsets.TakeMin (DG.freeIDs g)) as [[id free']|] eqn:Et.
  - apply TakeMin_guarded_Some in Et. destruct Et as [_ ->]. simpl.
    split; [exact Hn|]. split; [exact He|]. split; [exact Hu|]. simpl. apply disjoint_take. exact Hfr.
  - repeat (case_decide || case_match); simpl; exact (conj Hn (conj He (conj Hu Hfr))).
Qed.

(** [if !g.Has(id) { g.AddNode(n) }] on a well-formed store. *)
Lemma DG_ensure_wf n g :
  DG_wf g ->
  exists g', (if DG.Has (ID n) g then Ok tt g else DG.AddNode n g) = Ok tt g' /\
             DG_wf g' /\
             (forall k, is_Some (DG.nodes g' !! k) <->
                        is_Some (DG.nodes g !! k) \/ k = ID n) /\
             (forall k x, DG.nodes g !! k = Some x -> DG.nodes g' !! k = Some x) /\
             (forall u v, lookup2 (DG.from g') u v = lookup2 (DG.from g) u v).
Proof.
  intros Hw. unfold DG.Has. case_bool_decide as Hh.
  - exists g. split; [reflexivity|]. split; [exact Hw|]. split; [|auto].
    intros k. split; [auto|]. intros [H| ->]; assumption.
  - assert (DG.nodes g !! ID n = None) as Hx by (apply eq_None_not_Some; exact Hh).
    pose proof (DG_AddNode_wf n g Hw) as Hw'.
    rewrite DG_AddNode_fresh in * by exact Hx. simpl in Hw'.
    eexists. split; [reflexivity|]. split; [exact Hw'|]. simpl.
    split; [|split].
    + intros k. rewrite lookup_insert. destruct (decide (ID n = k)) as [<-|Hne].
      * split; eauto.
      * split; [auto|]. intros [H|H]; [exact H|congruence].
    + intros k x Hk. rewrite lookup_insert_ne by congruence. exact Hk.
    + intros u v. rewrite lookup2_insert_inner.
      destruct (decide (ID n = u)) as [<-|]; [|reflexivity].
      rewrite lookup_empty. symmetry. apply lookup2_None_outer.
      destruct Hw as (Hi & _). apply DG_keys_from; [apply Hi|exact Hx].
Qed.

(** [SetEdge] of an edge with distinct end points, on a well-formed store:
    it returns, both end points are nodes afterwards, the nodes that were
    there are kept, and exactly the entry of the edge is written. *)
Lemma DG_SetEdge_spec e g :
  DG_wf g -> ID (F e) <> ID (T e) ->
  exists g',
    DG.SetEdge e g = Ok tt g' /\ DG_wf g' /\
    (forall k, is_Some (DG.nodes g' !! k) <->
               is_Some (DG.nodes g !! k) \/ k = ID (F e) \/ k = ID (T e)) /\
    (forall k x, DG.nodes g !! k = Some x -> DG.nodes g' !! k = Some x) /\
    (forall u v, lookup2 (DG.from g') u v =
                 if decide (ID (F e) = u /\ ID (T e) = v) then Some e
                 else lookup2 (DG.from g) u v).
Proof.
  intros Hw Hne.
  destruct (DG_ensure_wf (F e) g Hw) as (ga & Ea & Hwa & Hna & Hka & Hfa).
  destruct (DG_ensure_wf (T e) ga Hwa) as (gb & Eb & Hwb & Hnb & Hkb & Hfb).
  pose proof Hwb as ((Hkeys & Hmir) & Hnid & Heid & Hal).
  assert (is_Some (DG.from gb !! ID (F e))) as Hf.
  { apply Hkeys. apply Hnb. left. apply Hna. right. reflexivity. }
  assert (is_Some (DG.to gb !! ID (T e))) as Ht.
  { apply Hkeys. apply Hnb. right. reflexivity. }
  destruct (insert2_is_Some _ _ (ID (T e)) e Hf) as [m1 E1].
  destruct (insert2_is_Some _ _ (ID (F e)) e Ht) as [m2 E2].
  exists (DG.set_to m2 (DG.set_from m1 gb)).
  split.
  { unfold DG.SetEdge. rewrite decide_False by exact Hne.
    unfold bind. rewrite Ea, Eb, E1. simpl. rewrite E2. reflexivity. }
  split; [|split; [|split]].
  - split; [|split; [|split]].
    + split; [split|]; simpl.
      * intros k. rewrite (insert2_keys _ _ _ _ _ _ E1). apply Hkeys.
      * intros k. rewrite (insert2_keys _ _ _ _ _ _ E2). apply Hkeys.
      * intros u v. simpl.
        rewrite (lookup2_insert2 _ _ _ _ _ _ _ E1), (lookup2_insert2 _ _ _ _ _ _ _ E2), Hmir.
        destruct (decide (ID (F e) = u /\ ID (T e) = v));
          destruct (decide (ID (T e) = v /\ ID (F e) = u)); tauto.
    + exact Hnid.
    + intros u v e'. simpl. rewrite (lookup2_insert2 _ _ _ _ _ _ _ E1).
      destruct (decide (ID (F e) = u /\ ID (T e) = v)) as [[<- <-]|].
      * intros [= <-]. auto.
      * apply Heid.
    + exact Hal.
  - intros k. simpl. rewrite Hnb, Hna. tauto.
  - intros k x Hk. simpl. apply Hkb, Hka. exact Hk.
  - intros u v. simpl. rewrite (lookup2_insert2 _ _ _ _ _ _ _ E1), Hfb, Hfa. reflexivity.
Qed.

Lemma DG_SetEdge_wf e g : DG_wf g -> DG_wf (state_of (DG.SetEdge e g)).
Proof.
  intros Hw. destruct (decide (ID (F e) = ID (T e))) as [Heq|Hne].
  - unfold DG.SetEdge. rewrite decide_True by exact Heq. exact Hw.
  - destruct (DG_SetEdge_spec e g Hw Hne) as (g' & -> & Hw' & _). exact Hw'.
Qed.

Lemma DG_step_wf maxInt c g : DG_wf g -> DG_wf (DG_step maxInt c g).
Proof.
  destruct c; simpl;
    auto using DG_NewNodeID_wf, DG_AddNode_wf, DG_RemoveNode_wf,
               DG_SetEdge_wf, DG_RemoveEdge_wf.
Qed.

Lemma DG_reached_wf maxInt cs s a : DG_wf (DG_reached maxInt cs s a).
Proof.
  unfold DG_reached, DG_run. generalize (DG_wf_new s a).
  generalize (DG.NewDirectedGraph s a).
  induction cs as [|c cs IH]; intros g Hw; simpl.
  - exact Hw.
  - apply IH. apply DG_step_wf. exact Hw.
Qed.

End DirectedWellFormed.

(** ** What a user of the sparse directed store observes *)

Section DirectedObserved.
Implicit Types (g : DG.DirectedGraph) (n : Node) (e : Edge) (id u v k : Z).

Lemma DG_Has_true g k : DG.Has k g = true <-> is_Some (DG.nodes g !! k).
Proof. unfold DG.Has. apply bool_decide_eq_true. Qed.

Lemma DG_Has_false g k : DG.Has k g = false <-> DG.nodes g !! k = None.
Proof.
  unfold DG.Has. rewrite bool_decide_eq_false. symmetry. apply eq_None_not_Some.
Qed.

(** In a well-formed store [Edge(u,v)] is the entry [from[u][v]]. *)
Lemma DG_Edge_lookup2 g u v : DG_wf g -> DG.Edge_ u v g = lookup2 (DG.from g) u v.
Proof.
  intros (Hi & _). unfold DG.Edge_.
  destruct (lookup2 (DG.from g) u v) as [e|] eqn:E.
  - destruct (DG_edge_nodes g u v e Hi E) as [[x ->] [y ->]]. reflexivity.
  - destruct (DG.nodes g !! u); [|reflexivity]. destruct (DG.nodes g !! v); reflexivity.
Qed.

Lemma DG_HasEdgeFromTo_Edge g u v :
  DG.HasEdgeFromTo u v g = bool_decide (is_Some (DG.Edge_ u v g)).
Proof.
  unfold DG.HasEdgeFromTo, DG.Edge_.
  destruct (DG.nodes g !! u); [destruct (DG.nodes g !! v)|]; reflexivity.
Qed.

End DirectedObserved.

(** X1.  In every state of the directed store reached from the empty store,
    an id that [NewNodeID] returns is not the id of a node of the store,
    before the call or after it. *)
Theorem DG_NewNodeID_is_fresh (maxInt : Z) (cs : list call) (s a : float)
    (id : Z) (g' : DG.DirectedGraph) :
  DG.NewNodeID maxInt (DG_reached maxInt cs s a) = Ok id g' ->
  DG.Has id (DG_reached maxInt cs s a) = false /\ DG.Has id g' = false.
Proof.
  pose proof (DG_reached_wf maxInt cs s a) as (_ & _ & _ & Hu & Hfr).
  set (g := DG_reached maxInt cs s a) in *.
  intros E.
  assert (DG.nodes g' = DG.nodes g) as Hn.
  { pose proof (f_equal state_of E) as Hs. simpl in Hs. subst g'.
    unfold DG.NewNodeID. repeat (case_decide || case_match); reflexivity. }
  assert (DG.nodes g !! id = None) as Hid.
  { apply not_elem_of_dom. revert E. unfold DG.NewNodeID.
    destruct (decide (size (DG.nodes g) = 0%nat)) as [H0|H0].
    { intros [= <- _]. apply map_size_empty_inv in H0. rewrite H0, dom_empty_L.
      apply not_elem_of_empty. }
    destruct (decide (Z.of_nat (size (DG.nodes g)) = maxInt)); [discriminate|].
    destruct (if decide (intsets.Len (DG.freeIDs g) = 0%nat) then None
              else intsets.TakeMin (DG.freeIDs g)) as [[x free']|] eqn:Et.
    { intros [= <- _]. apply TakeMin_guarded_Some in Et. destruct Et as [[Hx _] _].
      intros Hd. exact (Hfr x Hx Hd). }
    assert (DG.usedIDs g <> ∅) as Hne.
    { rewrite Hu. intros Hd. apply dom_empty_inv_L in Hd.
      apply H0. rewrite Hd. apply map_size_empty. }
    destruct (decide (intsets.Max (- maxInt - 1) (DG.usedIDs g) < maxInt)).
    { intros [= <- _]. rewrite <- Hu. intros Hin.
      destruct (Max_is_max (- maxInt - 1) _ Hne) as [_ Hall].
      specialize (Hall _ Hin). lia. }
    destruct (scan_unused (DG.usedIDs g) (Z.to_nat maxInt) 0) as [x|] eqn:Es;
      [|discriminate].
    intros [= <- _]. apply scan_unused_Some in Es. rewrite <- Hu. tauto. }
  split; apply DG_Has_false; [|rewrite Hn]; exact Hid.
Qed.

Lemma DG_NewNodeID_is_fresh_witness :
  DG.Has 1 (DG_reached maxInt64 (add_0_1_2 0 0 0 ++ [CallRemoveNode 1]) 0 0) = false /\
  DG.Has 1 (DG.set_freeIDs ∅
              (DG_reached maxInt64 (add_0_1_2 0 0 0 ++ [CallRemoveNode 1]) 0 0)) = false.
Proof.
  apply (DG_NewNodeID_is_fresh maxInt64 (add_0_1_2 0 0 0 ++ [CallRemoveNode 1]) 0 0 1).
  vm_compute. reflexivity.
Defined.

(** A set that holds every id from 0 below [b] has at least [b] elements. *)
Lemma all_below_size (used : gset Z) (b : Z) :
  (forall y, 0 <= y < b -> y ∈ used) -> (Z.to_nat b <= size used)%nat.
Proof.
  intros Hall. rewrite <- (length_seqZ 0 b).
  rewrite <- (size_list_to_set (C := gset Z)) by apply NoDup_seqZ.
  apply subseteq_size. intros y Hy. apply elem_of_list_to_set in Hy.
  apply elem_of_seqZ in Hy. apply Hall. lia.
Qed.

(** X2.  In every reached state of the directed store that holds at least
    one node fewer than [maxInt], [NewNodeID] returns: neither of its two
    panics is raised. *)
Theorem DG_NewNodeID_returns (maxInt : Z) (cs : list call) (s a : float) :
  Z.of_nat (size (DG.nodes (DG_reached maxInt cs s a))) < maxInt ->
  exists id g', DG.NewNodeID maxInt (DG_reached maxInt cs s a) = Ok id g'.
Proof.
  pose proof (DG_reached_wf maxInt cs s a) as (_ & _ & _ & Hu & _).
  set (g := DG_reached maxInt cs s a) in *. intros Hlt.
  destruct (DG.NewNodeID maxInt g) as [id g'|p st] eqn:E; [eauto|].
  destruct (DG_NewNodeID_policy maxInt g) as (_ & _ & _ & _ & _ & Hp).
  rewrite E in Hp. destruct (Hp p st eq_refl) as [_ [Heq|[_ Hall]]]; [lia|].
  apply all_below_size in Hall. rewrite Hu, size_dom in Hall. lia.
Qed.

Lemma DG_NewNodeID_returns_witness :
  exists id g',
    DG.NewNodeID maxInt64 (DG_reached maxInt64 (add_0_1_2 0 0 0) 0 0) = Ok id g'.
Proof.
  apply (DG_NewNodeID_returns maxInt64 (add_0_1_2 0 0 0) 0 0).
  vm_compute. reflexivity.
Defined.

(** X3.  In every reached state of the directed store, an edge that
    [Edge(u,v)] returns goes from u to v, its end points differ and are nodes
    of the store: no self loop and no dangling edge is stored. *)
Theorem DG_Edge_end_points (maxInt : Z) (cs : list call) (s a : float)
    (u v : Z) (e : Edge) :
  DG.Edge_ u v (DG_reached maxInt cs s a) = Some e ->
  ID (F e) = u /\ ID (T e) = v /\ u <> v /\
  DG.Has u (DG_reached maxInt cs s a) = true /\
  DG.Has v (DG_reached maxInt cs s a) = true.
Proof.
  pose proof (DG_reached_wf maxInt cs s a) as Hw.
  set (g := DG_reached maxInt cs s a) in *. intros E.
  rewrite (DG_Edge_lookup2 g u v Hw) in E.
  destruct Hw as (Hi & _ & He & _).
  destruct (He u v e E) as (H1 & H2 & H3).
  destruct (DG_edge_nodes g u v e Hi E) as [Hu Hv].
  repeat split; try assumption; apply DG_Has_true; assumption.
Qed.

Lemma DG_Edge_end_points_witness :
  ID (F edge_0_1) = 0 /\ ID (T edge_0_1) = 1 /\ 0 <> 1 /\
  DG.Has 0 (DG_reached maxInt64 [CallSetEdge edge_0_1] 0 0) = true /\
  DG.Has 1 (DG_reached maxInt64 [CallSetEdge edge_0_1] 0 0) = true.
Proof.
  apply (DG_Edge_end_points maxInt64 [CallSetEdge edge_0_1] 0 0 0 1 edge_0_1).
  vm_compute. reflexivity.
Defined.

(** X4.  In every reached state of the directed store the edge queries
    agree: [HasEdgeFromTo(x,y)] holds exactly when [Edge(x,y)] is not nil,
    [HasEdgeBetween(x,y)] holds exactly when there is an edge one way or the
    other, and for distinct x and y [Weight(x,y)] is the weight of
    [Edge(x,y)] and true, or the absent weight and false when there is no
    such edge. *)
Theorem DG_edge_queries_agree (maxInt : Z) (cs : list call) (s a : float) (x y : Z) :
  DG.HasEdgeFromTo x y (DG_reached maxInt cs s a)
    = bool_decide (is_Some (DG.Edge_ x y (DG_reached maxInt cs s a))) /\
  DG.HasEdgeBetween x y (DG_reached maxInt cs s a)
    = DG.HasEdgeFromTo x y (DG_reached maxInt cs s a)
      || DG.HasEdgeFromTo y x (DG_reached maxInt cs s a) /\
  DG.Weight x y (DG_reached maxInt cs s a)
    = if decide (x = y) then (DG.self (DG_reached maxInt cs s a), true)
      else match DG.Edge_ x y (DG_reached maxInt cs s a) with
           | Some e => (W e, true)
           | None => (DG.absent (DG_reached maxInt cs s a), false)
           end.
Proof.
  pose proof (DG_reached_wf maxInt cs s a) as Hw.
  set (g := DG_reached maxInt cs s a) in *.
  split; [apply DG_HasEdgeFromTo_Edge|]. split.
  - unfold DG.HasEdgeBetween, DG.HasEdgeFromTo.
    destruct (DG.nodes g !! x); [|destruct (DG.nodes g !! y); reflexivity].
    destruct (DG.nodes g !! y); [|reflexivity].
    destruct (lookup2 (DG.from g) x y); [|reflexivity].
    rewrite bool_decide_eq_true_2 by eauto. reflexivity.
  - unfold DG.Weight. rewrite (DG_Edge_lookup2 g x y Hw). reflexivity.
Qed.

(** X5.  In every reached state of the directed store, [From(u)] holds no
    nil entry and lists exactly the nodes v with an edge from u to v, and
    [To(v)] lists exactly the nodes u with an edge from u to v. *)
Theorem DG_From_To_are_the_neighbours (maxInt : Z) (cs : list call) (s a : float) :
  (forall u o, o ∈ DG.From u (DG_reached maxInt cs s a) ->
     exists n, o = Some n /\
               DG.Node_ (ID n) (DG_reached maxInt cs s a) = Some n /\
               DG.HasEdgeFromTo u (ID n) (DG_reached maxInt cs s a) = true) /\
  (forall u v, DG.HasEdgeFromTo u v (DG_reached maxInt cs s a) = true ->
     DG.Node_ v (DG_reached maxInt cs s a) ∈ DG.From u (DG_reached maxInt cs s a)) /\
  (forall v o, o ∈ DG.To v (DG_reached maxInt cs s a) ->
     exists n, o = Some n /\
               DG.Node_ (ID n) (DG_reached maxInt cs s a) = Some n /\
               DG.HasEdgeFromTo (ID n) v (DG_reached maxInt cs s a) = true) /\
  (forall u v, DG.HasEdgeFromTo u v (DG_reached maxInt cs s a) = true ->
     DG.Node_ u (DG_reached maxInt cs s a) ∈ DG.To v (DG_reached maxInt cs s a)).
Proof.
  pose proof (DG_reached_wf maxInt cs s a) as Hw.
  set (g := DG_reached maxInt cs s a) in *.
  pose proof Hw as ((Hk & Hm) & Hn & He & _).
  assert (forall u, DG.From u g = (fun t => DG.nodes g !! t) <$> keys2 (DG.from g) u) as HF.
  { intros u. unfold DG.From, keys2. destruct (DG.from g !! u); reflexivity. }
  assert (forall v, DG.To v g = (fun f => DG.nodes g !! f) <$> keys2 (DG.to g) v) as HT.
  { intros v. unfold DG.To. destruct (DG.from g !! v) eqn:E; [reflexivity|].
    unfold keys2. destruct (DG.to g !! v) eqn:Et; [|reflexivity].
    assert (is_Some (DG.from g !! v)) as Hs.
    { apply (proj1 Hk). apply (proj2 Hk). eauto. }
    rewrite E in Hs. destruct Hs; discriminate. }
  assert (forall u v, DG.HasEdgeFromTo u v g = true <-> is_Some (lookup2 (DG.from g) u v))
    as HE.
  { intros u v. rewrite DG_HasEdgeFromTo_Edge, (DG_Edge_lookup2 g u v Hw).
    apply bool_decide_eq_true. }
  split; [|split; [|split]].
  - intros u o. rewrite HF. intros Ho. apply list_elem_of_fmap in Ho.
    destruct Ho as (t & -> & Ht). apply elem_of_keys2 in Ht.
    pose proof Ht as [e Hte].
    destruct (DG_edge_nodes g u t e (conj Hk Hm) Hte) as [_ [n Hnt]].
    exists n. pose proof (Hn _ _ Hnt) as Hid. unfold DG.Node_. rewrite Hid.
    split; [exact Hnt|]. split; [exact Hnt|]. apply HE. exact Ht.
  - intros u v H. apply HE in H. rewrite HF. apply list_elem_of_fmap.
    exists v. split; [reflexivity|]. apply elem_of_keys2. exact H.
  - intros v o. rewrite HT. intros Ho. apply list_elem_of_fmap in Ho.
    destruct Ho as (f & -> & Hf). apply elem_of_keys2 in Hf. rewrite <- Hm in Hf.
    pose proof Hf as [e Hfe].
    destruct (DG_edge_nodes g f v e (conj Hk Hm) Hfe) as [[n Hnf] _].
    exists n. pose proof (Hn _ _ Hnf) as Hid. unfold DG.Node_. rewrite Hid.
    split; [exact Hnf|]. split; [exact Hnf|]. apply HE. exact Hf.
  - intros u v H. apply HE in H. rewrite HT. apply list_elem_of_fmap.
    exists u. split; [reflexivity|]. apply elem_of_keys2. rewrite <- Hm. exact H.
Qed.

Lemma DG_From_To_are_the_neighbours_witness :
  DG.Node_ 1 (DG_reached maxInt64 [CallSetEdge edge_0_1] 0 0)
    ∈ DG.From 0 (DG_reached maxInt64 [CallSetEdge edge_0_1] 0 0).
Proof.
  apply (proj1 (proj2 (DG_From_To_are_the_neighbours maxInt64 [CallSetEdge edge_0_1] 0 0))).
  vm_compute. reflexivity.
Defined.

Lemma length_keys2 (m : gmap Z (gmap Z Edge)) (k : Z) : length (keys2 m k) = len2 m k.
Proof.
  unfold keys2, len2. destruct (m !! k); [|reflexivity].
  rewrite length_fmap. apply length_map_to_list.
Qed.

(** X6.  In every reached state of the directed store, [Degree(n)] is the
    number of nodes in [From(n)] plus the number of nodes in [To(n)]. *)
Theorem DG_Degree_counts_neighbours (maxInt : Z) (cs : list call) (s a : float) (n : Z) :
  DG.Degree n (DG_reached maxInt cs s a)
  = (length (DG.From n (DG_reached maxInt cs s a))
     + length (DG.To n (DG_reached maxInt cs s a)))%nat.
Proof.
  pose proof (DG_reached_wf maxInt cs s a) as ((Hk & _) & _).
  set (g := DG_reached maxInt cs s a) in *.
  unfold DG.Degree, DG.From, DG.To.
  destruct (DG.nodes g !! n) as [x|] eqn:Hx.
  - destruct (proj2 (proj1 Hk n) (ex_intro _ x Hx)) as [inner Hin]. rewrite Hin.
    rewrite !length_fmap, length_keys2. unfold len2 at 1. rewrite Hin.
    rewrite length_map_to_list. reflexivity.
  - rewrite (DG_keys_from g n Hk Hx). reflexivity.
Qed.

(** X7.  In every reached state of the directed store, [RemoveNode(id)]
    leaves a store without the node and without any edge from or to it, and
    with every other node and every other edge as before. *)
Theorem DG_RemoveNode_effect (maxInt : Z) (cs : list call) (s a : float) (id : Z) :
  exists g',
    DG.RemoveNode id (DG_reached maxInt cs s a) = Ok tt g' /\
    DG.Has id g' = false /\
    (forall k, k <> id -> DG.Node_ k g' = DG.Node_ k (DG_reached maxInt cs s a)) /\
    (forall u v, DG.Edge_ u v g'
                 = if decide (u = id \/ v = id) then None
                   else DG.Edge_ u v (DG_reached maxInt cs s a)).
Proof.
  pose proof (DG_reached_wf maxInt cs s a) as Hw.
  set (g := DG_reached maxInt cs s a) in *.
  pose proof (DG_RemoveNode_wf id g Hw) as Hw'.
  exists (state_of (DG.RemoveNode id g)).
  destruct (DG.nodes g !! id) as [x|] eqn:Hx.
  - split; [unfold DG.RemoveNode; rewrite Hx; reflexivity|].
    split; [|split].
    + apply DG_Has_false. unfold DG.RemoveNode. rewrite Hx. simpl.
      apply lookup_delete_eq.
    + intros k Hne. unfold DG.Node_, DG.RemoveNode. rewrite Hx. simpl.
      apply lookup_delete_ne. congruence.
    + intros u v. rewrite (DG_Edge_lookup2 _ u v Hw'), (DG_Edge_lookup2 g u v Hw).
      apply (DG_RemoveNode_from g id x u v (proj1 Hw) Hx).
  - assert (DG.RemoveNode id g = Ok tt g) as E
      by (unfold DG.RemoveNode; rewrite Hx; reflexivity).
    rewrite E. simpl. split; [reflexivity|]. split; [apply DG_Has_false; exact Hx|].
    split; [reflexivity|]. intros u v.
    destruct (decide (u = id \/ v = id)) as [[->| ->]|]; [| |reflexivity].
    + unfold DG.Edge_. rewrite Hx. reflexivity.
    + unfold DG.Edge_. rewrite Hx. destruct (DG.nodes g !! u); reflexivity.
Qed.

Lemma delete2_absent (m : gmap Z (gmap Z Edge)) (k1 k2 : Z) :
  lookup2 m k1 k2 = None -> delete2 k1 k2 m = m.
Proof.
  unfold lookup2, delete2. destruct (m !! k1) as [inner|] eqn:E; [|reflexivity].
  intros H. rewrite (delete_id _ _ H). apply insert_id. exact E.
Qed.

(** X8.  In every reached state of the directed store, [RemoveEdge(e)]
    returns, keeps every node, removes whatever edge is stored from e's
    From id to e's To id and keeps every other edge; when there is no edge
    between these ids the store is left exactly as it was. *)
Theorem DG_RemoveEdge_effect (maxInt : Z) (cs : list call) (s a : float) (e : Edge) :
  exists g',
    DG.RemoveEdge e (DG_reached maxInt cs s a) = Ok tt g' /\
    (forall k, DG.Node_ k g' = DG.Node_ k (DG_reached maxInt cs s a)) /\
    (forall u v, DG.Edge_ u v g'
                 = if decide (ID (F e) = u /\ ID (T e) = v) then None
                   else DG.Edge_ u v (DG_reached maxInt cs s a)) /\
    (DG.Edge_ (ID (F e)) (ID (T e)) (DG_reached maxInt cs s a) = None ->
     g' = DG_reached maxInt cs s a).
Proof.
  pose proof (DG_reached_wf maxInt cs s a) as Hw.
  set (g := DG_reached maxInt cs s a) in *.
  pose proof (DG_RemoveEdge_wf e g Hw) as Hw'.
  exists (state_of (DG.RemoveEdge e g)).
  assert (forall u v, DG.Edge_ u v g = None ->
            (if decide (ID (F e) = u /\ ID (T e) = v) then None else DG.Edge_ u v g)
            = DG.Edge_ u v g) as Hnone.
  { intros u v H. destruct (decide (_ /\ _)); [symmetry; exact H|reflexivity]. }
  unfold DG.RemoveEdge in *.
  destruct (DG.nodes g !! ID (F e)) as [x|] eqn:Hx.
  2:{ simpl. split; [reflexivity|]. split; [reflexivity|]. split; [|reflexivity].
      intros u v. destruct (decide (_ /\ _)) as [[<- <-]|]; [|reflexivity].
      unfold DG.Edge_. rewrite Hx. reflexivity. }
  destruct (DG.nodes g !! ID (T e)) as [y|] eqn:Hy.
  2:{ simpl. split; [reflexivity|]. split; [reflexivity|]. split; [|reflexivity].
      intros u v. destruct (decide (_ /\ _)) as [[<- <-]|]; [|reflexivity].
      unfold DG.Edge_. rewrite Hx, Hy. reflexivity. }
  simpl in *. split; [reflexivity|]. split; [reflexivity|]. split.
  - intros u v. rewrite (DG_Edge_lookup2 _ u v Hw'), (DG_Edge_lookup2 g u v Hw).
    simpl. apply lookup2_delete2.
  - rewrite (DG_Edge_lookup2 g _ _ Hw). intros Hnone'.
    rewrite (delete2_absent _ _ _ Hnone').
    destruct Hw as ((_ & Hm) & _). rewrite Hm in Hnone'.
    rewrite (delete2_absent _ _ _ Hnone'). destruct g. reflexivity.
Qed.

(** X9.  In every reached state of the directed store, [SetEdge(e)] for an
    edge whose end points F and T have distinct ids returns; afterwards F
    and T are nodes, [Edge(F,T)] is e (whatever was stored there before) and
    [Weight(F,T)] is e's weight and true, every node that was in the store
    is kept and every other edge is as before. *)
Theorem DG_SetEdge_effect (maxInt : Z) (cs : list call) (s a : float) (e : Edge) :
  ID (F e) <> ID (T e) ->
  exists g',
    DG.SetEdge e (DG_reached maxInt cs s a) = Ok tt g' /\
    DG.Has (ID (F e)) g' = true /\ DG.Has (ID (T e)) g' = true /\
    DG.Edge_ (ID (F e)) (ID (T e)) g' = Some e /\
    DG.Weight (ID (F e)) (ID (T e)) g' = (W e, true) /\
    (forall k x, DG.Node_ k (DG_reached maxInt cs s a) = Some x -> DG.Node_ k g' = Some x) /\
    (forall u v, DG.Edge_ u v g'
                 = if decide (ID (F e) = u /\ ID (T e) = v) then Some e
                   else DG.Edge_ u v (DG_reached maxInt cs s a)).
Proof.
  pose proof (DG_reached_wf maxInt cs s a) as Hw.
  set (g := DG_reached maxInt cs s a) in *. intros Hne.
  destruct (DG_SetEdge_spec e g Hw Hne) as (g' & E & Hw' & Hn & Hk & Hf).
  exists g'. split; [exact E|].
  assert (forall u v, DG.Edge_ u v g'
            = if decide (ID (F e) = u /\ ID (T e) = v) then Some e else DG.Edge_ u v g)
    as HE.
  { intros u v. rewrite (DG_Edge_lookup2 g' u v Hw'), (DG_Edge_lookup2 g u v Hw). apply Hf. }
  split; [apply DG_Has_true, Hn; tauto|]. split; [apply DG_Has_true, Hn; tauto|].
  split; [rewrite HE; rewrite decide_True by tauto; reflexivity|].
  split; [|split; [exact Hk|exact HE]].
  unfold DG.Weight. rewrite decide_False by exact Hne.
  rewrite Hf. rewrite decide_True by tauto. reflexivity.
Qed.

Lemma DG_SetEdge_effect_witness :
  exists g',
    DG.SetEdge edge_0_1 (DG_reached maxInt64 [CallAddNode (mkNode 1 7)] 0 0) = Ok tt g' /\
    DG.Has 0 g' = true /\ DG.Has 1 g' = true /\
    DG.Edge_ 0 1 g' = Some edge_0_1 /\
    DG.Weight 0 1 g' = (2.5%float, true) /\
    (forall k x, DG.Node_ k (DG_reached maxInt64 [CallAddNode (mkNode 1 7)] 0 0) = Some x ->
                 DG.Node_ k g' = Some x) /\
    (forall u v, DG.Edge_ u v g'
                 = if decide (0 = u /\ 1 = v) then Some edge_0_1
                   else DG.Edge_ u v (DG_reached maxInt64 [CallAddNode (mkNode 1 7)] 0 0)).
Proof.
  apply (DG_SetEdge_effect maxInt64 [CallAddNode (mkNode 1 7)] 0 0 edge_0_1).
  simpl. lia.
Defined.

(** X10.  In every reached state of the directed store, [Nodes()] returns
    without panic a list without nil entries that holds exactly the nodes
    of the store. *)
Theorem DG_Nodes_lists_the_nodes (maxInt : Z) (cs : list call) (s a : float) :
  exists l,
    DG.Nodes (DG_reached maxInt cs s a) = inr (Some <$> l) /\
    length l = size (DG.nodes (DG_reached maxInt cs s a)) /\
    (forall n, n ∈ l <-> DG.Node_ (ID n) (DG_reached maxInt cs s a) = Some n).
Proof.
  pose proof (DG_reached_wf maxInt cs s a) as (((Hf & _) & _) & Hn & _).
  set (g := DG_reached maxInt cs s a) in *.
  exists ((map_to_list (DG.nodes g)).*2).
  assert (size (DG.from g) = size (DG.nodes g)) as Hsz.
  { rewrite <- !size_dom. f_equal. apply set_eq. intros k.
    rewrite !elem_of_dom. apply Hf. }
  assert (length (map_to_list (DG.nodes g)).*2 = size (DG.nodes g)) as Hl.
  { rewrite length_fmap. apply length_map_to_list. }
  split; [|split].
  - unfold DG.Nodes. rewrite decide_True by lia.
    rewrite Hl, Hsz, Nat.sub_diag. simpl. rewrite app_nil_r. reflexivity.
  - exact Hl.
  - intros n. unfold DG.Node_. rewrite list_elem_of_fmap. split.
    + intros ([k x] & -> & Hin). apply elem_of_map_to_list in Hin. simpl.
      rewrite (Hn _ _ Hin). exact Hin.
    + intros H. exists (ID n, n). split; [reflexivity|].
      apply elem_of_map_to_list. exact H.
Qed.

(** X11.  In every reached state of the directed store, [AddNode(n)] panics
    with a node-id collision, leaving the store as it was, when the store
    holds a node with n's id; otherwise it returns, and afterwards
    [Node] of that id is n, the node has degree 0, and every other node and
    every edge is as before. *)
Theorem DG_AddNode_effect (maxInt : Z) (cs : list call) (s a : float) (n : Node) :
  (DG.Has (ID n) (DG_reached maxInt cs s a) = true ->
   DG.AddNode n (DG_reached maxInt cs s a)
   = Panic (NodeIDCollision (ID n)) (DG_reached maxInt cs s a)) /\
  (DG.Has (ID n) (DG_reached maxInt cs s a) = false ->
   exists g',
     DG.AddNode n (DG_reached maxInt cs s a) = Ok tt g' /\
     DG.Node_ (ID n) g' = Some n /\ DG.Degree (ID n) g' = 0%nat /\
     (forall k, k <> ID n -> DG.Node_ k g' = DG.Node_ k (DG_reached maxInt cs s a)) /\
     (forall u v, DG.Edge_ u v g' = DG.Edge_ u v (DG_reached maxInt cs s a))).
Proof.
  pose proof (DG_reached_wf maxInt cs s a) as Hw.
  set (g := DG_reached maxInt cs s a) in *. split.
  - intros H. apply DG_Has_true in H. destruct H as [x Hx].
    unfold DG.AddNode. rewrite Hx. reflexivity.
  - intros H. apply DG_Has_false in H.
    pose proof (DG_AddNode_wf n g Hw) as Hw'.
    rewrite (DG_AddNode_fresh n g H) in *. simpl in Hw'.
    eexists. split; [reflexivity|]. split; [|split; [|split]].
    + unfold DG.Node_. simpl. apply lookup_insert_eq.
    + unfold DG.Degree, len2. simpl. rewrite !lookup_insert_eq. reflexivity.
    + intros k Hk. unfold DG.Node_. simpl. apply lookup_insert_ne. congruence.
    + intros u v. rewrite (DG_Edge_lookup2 _ u v Hw'), (DG_Edge_lookup2 g u v Hw).
      simpl. rewrite lookup2_insert_inner.
      destruct (decide (ID n = u)) as [<-|]; [|reflexivity].
      rewrite lookup_empty. symmetry. apply lookup2_None_outer.
      apply DG_keys_from; [apply Hw|exact H].
Qed.

Lemma DG_AddNode_effect_witness :
  DG.AddNode (mkNode 1 9) (DG_reached maxInt64 [CallSetEdge edge_0_1] 0 0)
  = Panic (NodeIDCollision 1) (DG_reached maxInt64 [CallSetEdge edge_0_1] 0 0).
Proof.
  apply (proj1 (DG_AddNode_effect maxInt64 [CallSetEdge edge_0_1] 0 0 (mkNode 1 9))).
  vm_compute. reflexivity.
Defined.

(** ** Well-formed states of the sparse undirected store *)

Definition UG_reached (maxInt : Z) (cs : list call) (s a : float) : UG.UndirectedGraph :=
  UG_run maxInt cs (UG.NewUndirectedGraph s a).

(** [edges[a][b]] and [edges[b][a]] hold the same edge, or none. *)
Definition UG_mirror (g : UG.UndirectedGraph) : Prop :=
  forall u v, lookup2 (UG.edges g) u v = lookup2 (UG.edges g) v u.

Definition UG_node_ids (g : UG.UndirectedGraph) : Prop :=
  forall k n, UG.nodes g !! k = Some n -> ID n = k.

(** Every stored edge is filed under the ids of its end points, in one
    order or the other, and these differ. *)
Definition UG_edge_ids (g : UG.UndirectedGraph) : Prop :=
  forall u v e, lookup2 (UG.edges g) u v = Some e ->
                (ID (F e) = u /\ ID (T e) = v \/ ID (F e) = v /\ ID (T e) = u) /\ u <> v.

Definition UG_alloc (g : UG.UndirectedGraph) : Prop :=
  UG.usedIDs g = dom (UG.nodes g) /\ UG.freeIDs g ## dom (UG.nodes g).

Definition UG_wf (g : UG.UndirectedGraph) : Prop :=
  UG_keys g /\ UG_mirror g /\ UG_node_ids g /\ UG_edge_ids g /\ UG_alloc g.

Section UndirectedWellFormed.
Implicit Types (g : UG.UndirectedGraph) (n : Node) (e : Edge) (id u v k : Z).

Lemma UG_wf_new (s a : float) : UG_wf (UG.NewUndirectedGraph s a).
Proof.
  split; [apply UG_keys_new|]. split; [|split; [|split; [|split]]]; simpl.
  - intros u v. reflexivity.
  - intros k n H. simpl in H. rewrite lookup_empty in H. discriminate.
  - intros u v e H. discriminate.
  - rewrite dom_empty_L. reflexivity.
  - rewrite dom_empty_L. intros y Hy. apply not_elem_of_empty in Hy. destruct Hy.
Qed.

Lemma UG_keys_edges g k : UG_keys g -> UG.nodes g !! k = None -> UG.edges g !! k = None.
Proof.
  intros Hk Hn. apply eq_None_not_Some. rewrite (Hk k), Hn. apply is_Some_None.
Qed.

Lemma UG_edge_nodes g u v e :
  UG_keys g -> UG_mirror g -> lookup2 (UG.edges g) u v = Some e ->
  is_Some (UG.nodes g !! u) /\ is_Some (UG.nodes g !! v).
Proof.
  intros Hk Hm H. split.
  - apply Hk. unfold lookup2 in H. destruct (UG.edges g !! u); [eauto|discriminate].
  - apply Hk. rewrite Hm in H. unfold lookup2 in H.
    destruct (UG.edges g !! v); [eauto|discriminate].
Qed.

Lemma UG_AddNode_wf n g : UG_wf g -> UG_wf (state_of (UG.AddNode n g)).
Proof.
  intros (Hk & Hm & Hn & He & Hu & Hfr). split; [apply UG_AddNode_keys; exact Hk|].
  destruct (UG.nodes g !! ID n) as [x|] eqn:Hx.
  { unfold UG.AddNode. rewrite Hx. simpl. exact (conj Hm (conj Hn (conj He (conj Hu Hfr)))). }
  pose proof (UG_keys_edges g _ Hk Hx) as Hex.
  rewrite UG_AddNode_fresh by exact Hx. simpl.
  split; [|split; [|split; [|split]]]; simpl.
  - intros u v. simpl. rewrite !lookup2_insert_inner, !lookup_empty.
    destruct (decide (ID n = u)) as [<-|]; destruct (decide (ID n = v)) as [<-|];
      try reflexivity.
    + rewrite Hm. symmetry. apply lookup2_None_outer. exact Hex.
    + rewrite Hm. apply lookup2_None_outer. exact Hex.
    + apply Hm.
  - intros k n'. simpl. rewrite lookup_insert.
    destruct (decide (ID n = k)) as [<-|]; [intros [= <-]; reflexivity|apply Hn].
  - intros u v e. simpl. rewrite lookup2_insert_inner.
    destruct (decide (ID n = u)); [rewrite lookup_empty; discriminate|apply He].
  - unfold intsets.Insert. rewrite dom_insert_L, Hu. reflexivity.
  - unfold intsets.Remove. rewrite dom_insert_L. apply disjoint_remove_insert. exact Hfr.
Qed.

Lemma UG_RemoveNode_edges g id x u v :
  UG_mirror g -> UG.nodes g !! id = Some x ->
  lookup2 (UG.edges (state_of (UG.RemoveNode id g))) u v =
  if decide (u = id \/ v = id) then None else lookup2 (UG.edges g) u v.
Proof.
  intros Hm Hx. unfold UG.RemoveNode. rewrite Hx. simpl.
  rewrite lookup2_delete_outer, lookup2_delete_all.
  destruct (decide (id = u)) as [<-|Hu].
  - rewrite (decide_True (P := id = id \/ v = id)) by tauto. reflexivity.
  - destruct (decide (id = v)) as [<-|Hv].
    + rewrite (decide_True (P := u = id \/ id = id)) by tauto.
      destruct (decide (u ∈ _ /\ id = id)) as [_|Hn2]; [reflexivity|].
      apply eq_None_not_Some. intros Hs. apply Hn2. split; [|reflexivity].
      apply elem_of_keys2. rewrite <- Hm. exact Hs.
    + rewrite (decide_False (P := _ /\ id = v)) by tauto.
      rewrite (decide_False (P := u = id \/ v = id)) by (intros [?|?]; congruence).
      reflexivity.
Qed.

Lemma UG_RemoveNode_wf id g : UG_wf g -> UG_wf (state_of (UG.RemoveNode id g)).
Proof.
  intros (Hk & Hm & Hn & He & Hu & Hfr). split; [apply UG_RemoveNode_keys; exact Hk|].
  destruct (UG.nodes g !! id) as [x|] eqn:Hx.
  2:{ unfold UG.RemoveNode. rewrite Hx. simpl.
      exact (conj Hm (conj Hn (conj He (conj Hu Hfr)))). }
  split; [|split; [|split; [|split]]].
  - intros u v. rewrite !(UG_RemoveNode_edges g id x _ _ Hm Hx), Hm.
    destruct (decide (u = id \/ v = id)); destruct (decide (v = id \/ u = id)); tauto.
  - unfold UG.RemoveNode. rewrite Hx. simpl. intros k n'. simpl.
    rewrite lookup_delete. destruct (decide (id = k)); [discriminate|apply Hn].
  - intros u v e. rewrite (UG_RemoveNode_edges g id x u v Hm Hx).
    destruct (decide (u = id \/ v = id)); [discriminate|apply He].
  - unfold UG.RemoveNode. rewrite Hx. simpl. unfold intsets.Remove.
    rewrite dom_delete_L, Hu. reflexivity.
  - unfold UG.RemoveNode. rewrite Hx. simpl. unfold intsets.Insert.
    rewrite dom_delete_L. apply disjoint_insert_delete. exact Hfr.
Qed.

Lemma UG_RemoveEdge_edges g e x y u v :
  UG.nodes g !! ID (F e) = Some x -> UG.nodes g !! ID (T e) = Some y ->
  lookup2 (UG.edges (state_of (UG.RemoveEdge e g))) u v =
  if decide (ID (F e) = u /\ ID (T e) = v \/ ID (T e) = u /\ ID (F e) = v) then None
  else lookup2 (UG.edges g) u v.
Proof.
  intros Hx Hy. unfold UG.RemoveEdge. rewrite Hx, Hy. simpl.
  rewrite !lookup2_delete2.
  destruct (decide (ID (T e) = u /\ ID (F e) = v));
    destruct (decide (ID (F e) = u /\ ID (T e) = v));
    destruct (decide (_ \/ _)); tauto.
Qed.

Lemma UG_RemoveEdge_wf e g : UG_wf g -> UG_wf (state_of (UG.RemoveEdge e g)).
Proof.
  intros (Hk & Hm & Hn & He & Hu & Hfr). split; [apply UG_RemoveEdge_keys; exact Hk|].
  destruct (UG.nodes g !! ID (F e)) as [x|] eqn:Hx.
  2:{ unfold UG.RemoveEdge. rewrite Hx. simpl.
      exact (conj Hm (conj Hn (conj He (conj Hu Hfr)))). }
  destruct (UG.nodes g !! ID (T e)) as [y|] eqn:Hy.
  2:{ unfold UG.RemoveEdge. rewrite Hx, Hy. simpl.
      exact (conj Hm (conj Hn (conj He (conj Hu Hfr)))). }
  split; [|split; [|split]].
  - intros u v. rewrite !(UG_RemoveEdge_edges g e x y _ _ Hx Hy), Hm.
    destruct (decide (ID (F e) = u /\ ID (T e) = v \/ ID (T e) = u /\ ID (F e) = v));
      destruct (decide (ID (F e) = v /\ ID (T e) = u \/ ID (T e) = v /\ ID (F e) = u));
      tauto.
  - unfold UG.RemoveEdge. rewrite Hx, Hy. exact Hn.
  - intros u v e'. rewrite (UG_RemoveEdge_edges g e x y u v Hx Hy).
    destruct (decide (_ \/ _)); [discriminate|apply He].
  - unfold UG.RemoveEdge. rewrite Hx, Hy. exact (conj Hu Hfr).
Qed.

Lemma UG_NewNodeID_wf maxInt g : UG_wf g -> UG_wf (state_of (UG.NewNodeID maxInt g)).
Proof.
  intros (Hk & Hm & Hn & He & Hu & Hfr). split; [apply UG_NewNodeID_keys; exact Hk|].
  unfold UG.NewNodeID.
  destruct (decide (size (UG.nodes g) = 0%nat));
    [exact (conj Hm (conj Hn (conj He (conj Hu Hfr))))|].
  destruct (decide (Z.of_nat (size (UG.nodes g)) = maxInt));
    [exact (conj Hm (conj Hn (conj He (conj Hu Hfr))))|].
  destruct (if decide (intsets.Len (UG.freeIDs g) = 0%nat) then None
            else intsets.TakeMin (UG.freeIDs g)) as [[id free']|] eqn:Et.
  - apply TakeMin_guarded_Some in Et. destruct Et as [_ ->]. simpl.
    split; [exact Hm|]. split; [exact Hn|]. split; [exact He|]. split; [exact Hu|].
    simpl. apply disjoint_take. exact Hfr.
  - repeat (case_decide || case_match); simpl;
      exact (conj Hm (conj Hn (conj He (conj Hu Hfr)))).
Qed.

Lemma UG_ensure_wf n g :
  UG_wf g ->
  exists g', (if UG.Has (ID n) g then Ok tt g else UG.AddNode n g) = Ok tt g' /\
             UG_wf g' /\
             (forall k, is_Some (UG.nodes g' !! k) <->
                        is_Some (UG.nodes g !! k) \/ k = ID n) /\
             (forall k x, UG.nodes g !! k = Some x -> UG.nodes g' !! k = Some x) /\
             (forall u v, lookup2 (UG.edges g') u v = lookup2 (UG.edges g) u v).
Proof.
  intros Hw. unfold UG.Has. case_bool_decide as Hh.
  - exists g. split; [reflexivity|]. split; [exact Hw|]. split; [|auto].
    intros k. split; [auto|]. intros [H| ->]; assumption.
  - assert (UG.nodes g !! ID n = None) as Hx by (apply eq_None_not_Some; exact Hh).
    pose proof (UG_AddNode_wf n g Hw) as Hw'.
    rewrite UG_AddNode_fresh in * by exact Hx. simpl in Hw'.
    eexists. split; [reflexivity|]. split; [exact Hw'|]. simpl.
    split; [|split].
    + intros k. rewrite lookup_insert. destruct (decide (ID n = k)) as [<-|Hne].
      * split; eauto.
      * split; [auto|]. intros [H|H]; [exact H|congruence].
    + intros k x Hk. rewrite lookup_insert_ne by congruence. exact Hk.
    + intros u v. rewrite lookup2_insert_inner.
      destruct (decide (ID n = u)) as [<-|]; [|reflexivity].
      rewrite lookup_empty. symmetry. apply lookup2_None_outer.
      apply UG_keys_edges; [apply Hw|exact Hx].
Qed.

(** [SetEdge] of an edge with distinct end points, on a well-formed store. *)
Lemma UG_SetEdge_spec e g :
  UG_wf g -> ID (F e) <> ID (T e) ->
  exists g',
    UG.SetEdge e g = Ok tt g' /\ UG_wf g' /\
    (forall k, is_Some (UG.nodes g' !! k) <->
               is_Some (UG.nodes g !! k) \/ k = ID (F e) \/ k = ID (T e)) /\
    (forall k x, UG.nodes g !! k = Some x -> UG.nodes g' !! k = Some x) /\
    (forall u v, lookup2 (UG.edges g') u v =
                 if decide (ID (F e) = u /\ ID (T e) = v \/ ID (T e) = u /\ ID (F e) = v)
                 then Some e else lookup2 (UG.edges g) u v).
Proof.
  intros Hw Hne.
  destruct (UG_ensure_wf (F e) g Hw) as (ga & Ea & Hwa & Hna & Hka & Hfa).
  destruct (UG_ensure_wf (T e) ga Hwa) as (gb & Eb & Hwb & Hnb & Hkb & Hfb).
  pose proof Hwb as (Hkeys & Hmir & Hnid & Heid & Hal).
  assert (is_Some (UG.edges gb !! ID (F e))) as Hf.
  { apply Hkeys. apply Hnb. left. apply Hna. right. reflexivity. }
  destruct (insert2_is_Some _ _ (ID (T e)) e Hf) as [m1 E1].
  assert (is_Some (m1 !! ID (T e))) as Ht.
  { apply (insert2_keys _ _ _ _ _ _ E1). apply Hkeys. apply Hnb. right. reflexivity. }
  destruct (insert2_is_Some _ _ (ID (F e)) e Ht) as [m2 E2].
  assert (forall u v, lookup2 m2 u v =
            if decide (ID (F e) = u /\ ID (T e) = v \/ ID (T e) = u /\ ID (F e) = v)
            then Some e else lookup2 (UG.edges gb) u v) as Hm2.
  { intros u v.
    rewrite (lookup2_insert2 _ _ _ _ _ _ _ E2), (lookup2_insert2 _ _ _ _ _ _ _ E1).
    destruct (decide (ID (T e) = u /\ ID (F e) = v));
      destruct (decide (ID (F e) = u /\ ID (T e) = v));
      destruct (decide (_ \/ _)); tauto. }
  exists (UG.set_edges m2 gb).
  split.
  { unfold UG.SetEdge. rewrite decide_False by exact Hne.
    unfold bind. rewrite Ea, Eb, E1. simpl. rewrite E2. reflexivity. }
  split; [|split; [|split]].
  - split; [|split; [|split; [|split]]].
    + intros k. simpl.
      rewrite (insert2_keys _ _ _ _ _ _ E2), (insert2_keys _ _ _ _ _ _ E1). apply Hkeys.
    + intros u v. simpl. rewrite !Hm2, Hmir.
      destruct (decide (ID (F e) = u /\ ID (T e) = v \/ ID (T e) = u /\ ID (F e) = v));
        destruct (decide (ID (F e) = v /\ ID (T e) = u \/ ID (T e) = v /\ ID (F e) = u));
        tauto.
    + exact Hnid.
    + intros u v e'. simpl. rewrite Hm2.
      destruct (decide (_ \/ _)) as [Hd|]; [|apply Heid].
      intros [= <-]. split; [tauto|]. destruct Hd as [[<- <-]|[<- <-]]; congruence.
    + exact Hal.
  - intros k. simpl. rewrite Hnb, Hna. tauto.
  - intros k x Hk. simpl. apply Hkb, Hka. exact Hk.
  - intros u v. simpl. rewrite Hm2, Hfb, Hfa. reflexivity.
Qed.

Lemma UG_SetEdge_wf e g : UG_wf g -> UG_wf (state_of (UG.SetEdge e g)).
Proof.
  intros Hw. destruct (decide (ID (F e) = ID (T e))) as [Heq|Hne].
  - unfold UG.SetEdge. rewrite decide_True by exact Heq. exact Hw.
  - destruct (UG_SetEdge_spec e g Hw Hne) as (g' & -> & Hw' & _). exact Hw'.
Qed.

Lemma UG_step_wf maxInt c g : UG_wf g -> UG_wf (UG_step maxInt c g).
Proof.
  destruct c; simpl;
    auto using UG_NewNodeID_wf, UG_AddNode_wf, UG_RemoveNode_wf,
               UG_SetEdge_wf, UG_RemoveEdge_wf.
Qed.

Lemma UG_reached_wf maxInt cs s a : UG_wf (UG_reached maxInt cs s a).
Proof.
  unfold UG_reached, UG_run. generalize (UG_wf_new s a).
  generalize (UG.NewUndirectedGraph s a).
  induction cs as [|c cs IH]; intros g Hw; simpl.
  - exact Hw.
  - apply IH. apply UG_step_wf. exact Hw.
Qed.

End UndirectedWellFormed.

(** ** What a user of the sparse undirected store observes *)

Section UndirectedObserved.
Implicit Types (g : UG.UndirectedGraph) (n : Node) (e : Edge) (id u v k : Z).

Lemma UG_Has_true g k : UG.Has k g = true <-> is_Some (UG.nodes g !! k).
Proof. unfold UG.Has. apply bool_decide_eq_true. Qed.

Lemma UG_Has_false g k : UG.Has k g = false <-> UG.nodes g !! k = None.
Proof.
  unfold UG.Has. rewrite bool_decide_eq_false. symmetry. apply eq_None_not_Some.
Qed.

(** In a well-formed store [EdgeBetween(x,y)] is the entry [edges[x][y]]. *)
Lemma UG_EdgeBetween_lookup2 g x y :
  UG_wf g -> UG.EdgeBetween x y g = lookup2 (UG.edges g) x y.
Proof.
  intros (Hk & Hm & _). unfold UG.EdgeBetween, UG.Has.
  case_bool_decide as Hh; [reflexivity|].
  symmetry. apply lookup2_None_outer. apply UG_keys_edges; [exact Hk|].
  apply eq_None_not_Some. exact Hh.
Qed.

End UndirectedObserved.

(** X12.  In every reached state of the undirected store, [NewNodeID]
    returns whenever the store holds fewer than [maxInt] nodes, and an id
    that it returns is not the id of a node of the store, before the call
    or after it. *)
Theorem UG_NewNodeID_returns_fresh (maxInt : Z) (cs : list call) (s a : float) :
  (Z.of_nat (size (UG.nodes (UG_reached maxInt cs s a))) < maxInt ->
   exists id g', UG.NewNodeID maxInt (UG_reached maxInt cs s a) = Ok id g') /\
  (forall id g', UG.NewNodeID maxInt (UG_reached maxInt cs s a) = Ok id g' ->
     UG.Has id (UG_reached maxInt cs s a) = false /\ UG.Has id g' = false).
Proof.
  pose proof (UG_reached_wf maxInt cs s a) as (_ & _ & _ & _ & Hu & Hfr).
  set (g := UG_reached maxInt cs s a) in *. split.
  - intros Hlt.
    destruct (UG.NewNodeID maxInt g) as [id g'|p st] eqn:E; [eauto|].
    destruct (UG_NewNodeID_policy maxInt g) as (_ & _ & _ & _ & _ & Hp).
    rewrite E in Hp. destruct (Hp p st eq_refl) as [_ [Heq|[_ Hall]]]; [lia|].
    apply all_below_size in Hall. rewrite Hu, size_dom in Hall. lia.
  - intros id g' E.
    assert (UG.nodes g' = UG.nodes g) as Hn.
    { pose proof (f_equal state_of E) as Hs. simpl in Hs. subst g'.
      unfold UG.NewNodeID. repeat (case_decide || case_match); reflexivity. }
    assert (UG.nodes g !! id = None) as Hid.
    { apply not_elem_of_dom. revert E. unfold UG.NewNodeID.
      destruct (decide (size (UG.nodes g) = 0%nat)) as [H0|H0].
      { intros [= <- _]. apply map_size_empty_inv in H0. rewrite H0, dom_empty_L.
        apply not_elem_of_empty. }
      destruct (decide (Z.of_nat (size (UG.nodes g)) = maxInt)); [discriminate|].
      destruct (if decide (intsets.Len (UG.freeIDs g) = 0%nat) then None
                else intsets.TakeMin (UG.freeIDs g)) as [[x free']|] eqn:Et.
      { intros [= <- _]. apply TakeMin_guarded_Some in Et. destruct Et as [[Hx _] _].
        intros Hd. exact (Hfr x Hx Hd). }
      assert (UG.usedIDs g <> ∅) as Hne.
      { rewrite Hu. intros Hd. apply dom_empty_inv_L in Hd.
        apply H0. rewrite Hd. apply map_size_empty. }
      destruct (decide (intsets.Max (- maxInt - 1) (UG.usedIDs g) < maxInt)).
      { intros [= <- _]. rewrite <- Hu. intros Hin.
        destruct (Max_is_max (- maxInt - 1) _ Hne) as [_ Hall].
        specialize (Hall _ Hin). lia. }
      destruct (scan_unused (UG.usedIDs g) (Z.to_nat maxInt) 0) as [x|] eqn:Es;
        [|discriminate].
      intros [= <- _]. apply scan_unused_Some in Es. rewrite <- Hu. tauto. }
    split; apply UG_Has_false; [|rewrite Hn]; exact Hid.
Qed.

Lemma UG_NewNodeID_returns_fresh_witness :
  exists id g',
    UG.NewNodeID maxInt64 (UG_reached maxInt64 (add_0_1_2 0 0 0) 0 0) = Ok id g'.
Proof.
  apply (proj1 (UG_NewNodeID_returns_fresh maxInt64 (add_0_1_2 0 0 0) 0 0)).
  vm_compute. reflexivity.
Defined.

(** X13.  In every reached state of the undirected store, [EdgeBetween]
    does not depend on the order of its arguments, and an edge that
    [EdgeBetween(x,y)] returns has x and y as the ids of its end points, in
    one order or the other; x and y differ and are nodes of the store. *)
Theorem UG_EdgeBetween_symmetric (maxInt : Z) (cs : list call) (s a : float) (x y : Z) :
  UG.EdgeBetween x y (UG_reached maxInt cs s a)
    = UG.EdgeBetween y x (UG_reached maxInt cs s a) /\
  (forall e, UG.EdgeBetween x y (UG_reached maxInt cs s a) = Some e ->
     (ID (F e) = x /\ ID (T e) = y \/ ID (F e) = y /\ ID (T e) = x) /\ x <> y /\
     UG.Has x (UG_reached maxInt cs s a) = true /\
     UG.Has y (UG_reached maxInt cs s a) = true).
Proof.
  pose proof (UG_reached_wf maxInt cs s a) as Hw.
  set (g := UG_reached maxInt cs s a) in *.
  rewrite !(UG_EdgeBetween_lookup2 g _ _ Hw).
  destruct Hw as (Hk & Hm & _ & He & _). split; [apply Hm|].
  intros e E. destruct (He x y e E) as [H1 H2].
  destruct (UG_edge_nodes g x y e Hk Hm E) as [Hx Hy].
  split; [exact H1|]. split; [exact H2|]. split; apply UG_Has_true; assumption.
Qed.

Lemma UG_EdgeBetween_symmetric_witness :
  (ID (F edge_0_1) = 1 /\ ID (T edge_0_1) = 0 \/ ID (F edge_0_1) = 0 /\ ID (T edge_0_1) = 1)
  /\ 1 <> 0 /\
  UG.Has 1 (UG_reached maxInt64 [CallSetEdge edge_0_1] 0 0) = true /\
  UG.Has 0 (UG_reached maxInt64 [CallSetEdge edge_0_1] 0 0) = true.
Proof.
  apply (proj2 (UG_EdgeBetween_symmetric maxInt64 [CallSetEdge edge_0_1] 0 0 1 0) edge_0_1).
  vm_compute. reflexivity.
Defined.

(** X14.  In every reached state of the undirected store the edge queries
    agree: [HasEdgeBetween(x,y)] holds exactly when [EdgeBetween(x,y)] is
    not nil, and for distinct x and y [Weight(x,y)] is the weight of
    [EdgeBetween(x,y)] and true, or the absent weight and false when there
    is no such edge. *)
Theorem UG_edge_queries_agree (maxInt : Z) (cs : list call) (s a : float) (x y : Z) :
  UG.HasEdgeBetween x y (UG_reached maxInt cs s a)
    = bool_decide (is_Some (UG.EdgeBetween x y (UG_reached maxInt cs s a))) /\
  UG.Weight x y (UG_reached maxInt cs s a)
    = if decide (x = y) then (UG.self (UG_reached maxInt cs s a), true)
      else match UG.EdgeBetween x y (UG_reached maxInt cs s a) with
           | Some e => (W e, true)
           | None => (UG.absent (UG_reached maxInt cs s a), false)
           end.
Proof.
  pose proof (UG_reached_wf maxInt cs s a) as Hw.
  set (g := UG_reached maxInt cs s a) in *.
  rewrite (UG_EdgeBetween_lookup2 g x y Hw). split; reflexivity.
Qed.

(** X15.  In every reached state of the undirected store, [From(u)] holds no
    nil entry and lists exactly the nodes joined to u by an edge, and
    [Degree(u)] is the number of nodes in [From(u)]. *)
Theorem UG_From_lists_the_neighbours (maxInt : Z) (cs : list call) (s a : float) (u : Z) :
  (forall o, o ∈ UG.From u (UG_reached maxInt cs s a) ->
     exists n, o = Some n /\
               UG.Node_ (ID n) (UG_reached maxInt cs s a) = Some n /\
               UG.HasEdgeBetween u (ID n) (UG_reached maxInt cs s a) = true) /\
  (forall v, UG.HasEdgeBetween u v (UG_reached maxInt cs s a) = true ->
     UG.Node_ v (UG_reached maxInt cs s a) ∈ UG.From u (UG_reached maxInt cs s a)) /\
  UG.Degree u (UG_reached maxInt cs s a)
    = length (UG.From u (UG_reached maxInt cs s a)).
Proof.
  pose proof (UG_reached_wf maxInt cs s a) as Hw.
  set (g := UG_reached maxInt cs s a) in *.
  pose proof Hw as (Hk & Hm & Hn & He & _).
  assert (UG.From u g = (fun t => UG.nodes g !! t) <$> keys2 (UG.edges g) u) as HF.
  { unfold UG.From, UG.Has. case_bool_decide as Hh; [reflexivity|].
    unfold keys2. rewrite (UG_keys_edges g u Hk); [reflexivity|].
    apply eq_None_not_Some. exact Hh. }
  split; [|split].
  - intros o. rewrite HF. intros Ho. apply list_elem_of_fmap in Ho.
    destruct Ho as (t & -> & Ht). apply elem_of_keys2 in Ht.
    pose proof Ht as [e Hte].
    destruct (UG_edge_nodes g u t e Hk Hm Hte) as [_ [n Hnt]].
    exists n. pose proof (Hn _ _ Hnt) as Hid. unfold UG.Node_. rewrite Hid.
    split; [exact Hnt|]. split; [exact Hnt|].
    unfold UG.HasEdgeBetween. apply bool_decide_eq_true. exact Ht.
  - intros v H. unfold UG.HasEdgeBetween in H. apply bool_decide_eq_true in H.
    rewrite HF. apply list_elem_of_fmap.
    exists v. split; [reflexivity|]. apply elem_of_keys2. exact H.
  - rewrite HF, length_fmap, length_keys2. unfold UG.Degree.
    destruct (UG.nodes g !! u) eqn:Hx; [reflexivity|].
    unfold len2. rewrite (UG_keys_edges g u Hk Hx). reflexivity.
Qed.

Lemma UG_From_lists_the_neighbours_witness :
  UG.Node_ 0 (UG_reached maxInt64 [CallSetEdge edge_0_1] 0 0)
    ∈ UG.From 1 (UG_reached maxInt64 [CallSetEdge edge_0_1] 0 0).
Proof.
  apply (proj1 (proj2 (UG_From_lists_the_neighbours maxInt64 [CallSetEdge edge_0_1] 0 0 1))).
  vm_compute. reflexivity.
Defined.

(** X16.  In every reached state of the undirected store, [RemoveNode(id)]
    leaves a store without the node and without any edge at it, and with
    every other node and every other edge as before. *)
Theorem UG_RemoveNode_effect (maxInt : Z) (cs : list call) (s a : float) (id : Z) :
  exists g',
    UG.RemoveNode id (UG_reached maxInt cs s a) = Ok tt g' /\
    UG.Has id g' = false /\
    (forall k, k <> id -> UG.Node_ k g' = UG.Node_ k (UG_reached maxInt cs s a)) /\
    (forall u v, UG.EdgeBetween u v g'
                 = if decide (u = id \/ v = id) then None
                   else UG.EdgeBetween u v (UG_reached maxInt cs s a)).
Proof.
  pose proof (UG_reached_wf maxInt cs s a) as Hw.
  set (g := UG_reached maxInt cs s a) in *.
  pose proof (UG_RemoveNode_wf id g Hw) as Hw'.
  exists (state_of (UG.RemoveNode id g)).
  destruct (UG.nodes g !! id) as [x|] eqn:Hx.
  - split; [unfold UG.RemoveNode; rewrite Hx; reflexivity|].
    split; [|split].
    + apply UG_Has_false. unfold UG.RemoveNode. rewrite Hx. simpl.
      apply lookup_delete_eq.
    + intros k Hne. unfold UG.Node_, UG.RemoveNode. rewrite Hx. simpl.
      apply lookup_delete_ne. congruence.
    + intros u v.
      rewrite (UG_EdgeBetween_lookup2 _ u v Hw'), (UG_EdgeBetween_lookup2 g u v Hw).
      apply (UG_RemoveNode_edges g id x u v); [apply Hw|exact Hx].
  - assert (UG.RemoveNode id g = Ok tt g) as E
      by (unfold UG.RemoveNode; rewrite Hx; reflexivity).
    rewrite E. simpl. split; [reflexivity|]. split; [apply UG_Has_false; exact Hx|].
    split; [reflexivity|]. intros u v.
    rewrite (UG_EdgeBetween_lookup2 g u v Hw).
    destruct (decide (u = id \/ v = id)) as [[->| ->]|]; [| |reflexivity].
    + apply lookup2_None_outer. apply UG_keys_edges; [apply Hw|exact Hx].
    + destruct Hw as (Hk & Hm & _). rewrite Hm.
      apply lookup2_None_outer. apply UG_keys_edges; [exact Hk|exact Hx].
Qed.

(** X17.  In every reached state of the undirected store, [RemoveEdge(e)]
    returns, keeps every node, removes whatever edge joins the ids of e's
    end points, in both orders, and keeps every other edge; when no edge
    joins these ids the store is left exactly as it was. *)
Theorem UG_RemoveEdge_effect (maxInt : Z) (cs : list call) (s a : float) (e : Edge) :
  exists g',
    UG.RemoveEdge e (UG_reached maxInt cs s a) = Ok tt g' /\
    (forall k, UG.Node_ k g' = UG.Node_ k (UG_reached maxInt cs s a)) /\
    (forall u v, UG.EdgeBetween u v g'
                 = if decide (ID (F e) = u /\ ID (T e) = v \/ ID (T e) = u /\ ID (F e) = v)
                   then None
                   else UG.EdgeBetween u v (UG_reached maxInt cs s a)) /\
    (UG.EdgeBetween (ID (F e)) (ID (T e)) (UG_reached maxInt cs s a) = None ->
     g' = UG_reached maxInt cs s a).
Proof.
  pose proof (UG_reached_wf maxInt cs s a) as Hw.
  set (g := UG_reached maxInt cs s a) in *.
  pose proof (UG_RemoveEdge_wf e g Hw) as Hw'.
  exists (state_of (UG.RemoveEdge e g)).
  assert (forall u v, UG.EdgeBetween u v (state_of (UG.RemoveEdge e g))
            = if decide (ID (F e) = u /\ ID (T e) = v \/ ID (T e) = u /\ ID (F e) = v)
              then None else UG.EdgeBetween u v g) as HE.
  { intros u v.
    rewrite (UG_EdgeBetween_lookup2 _ u v Hw'), (UG_EdgeBetween_lookup2 g u v Hw).
    destruct Hw as (Hk & Hm & _).
    destruct (UG.nodes g !! ID (F e)) as [x|] eqn:Hx;
      [destruct (UG.nodes g !! ID (T e)) as [y|] eqn:Hy|].
    - apply (UG_RemoveEdge_edges g e x y u v Hx Hy).
    - unfold UG.RemoveEdge. rewrite Hx, Hy. simpl.
      pose proof (UG_keys_edges g _ Hk Hy) as Hn.
      destruct (decide (_ \/ _)) as [[[<- <-]|[<- <-]]|]; [| |reflexivity].
      + rewrite Hm. apply lookup2_None_outer. exact Hn.
      + apply lookup2_None_outer. exact Hn.
    - unfold UG.RemoveEdge. rewrite Hx. simpl.
      pose proof (UG_keys_edges g _ Hk Hx) as Hn.
      destruct (decide (_ \/ _)) as [[[<- <-]|[<- <-]]|]; [| |reflexivity].
      + apply lookup2_None_outer. exact Hn.
      + rewrite Hm. apply lookup2_None_outer. exact Hn. }
  split; [|split; [|split; [exact HE|]]].
  - unfold UG.RemoveEdge.
    destruct (UG.nodes g !! ID (F e)); [destruct (UG.nodes g !! ID (T e))|]; reflexivity.
  - intros k. unfold UG.RemoveEdge.
    destruct (UG.nodes g !! ID (F e)); [destruct (UG.nodes g !! ID (T e))|]; reflexivity.
  - rewrite (UG_EdgeBetween_lookup2 g _ _ Hw). intros Hnone.
    unfold UG.RemoveEdge.
    destruct (UG.nodes g !! ID (F e)); [destruct (UG.nodes g !! ID (T e))|];
      try reflexivity.
    simpl. rewrite (delete2_absent _ _ _ Hnone).
    destruct Hw as (_ & Hm & _). rewrite Hm in Hnone.
    rewrite (delete2_absent _ _ _ Hnone). destruct g. reflexivity.
Qed.

(** X18.  In every reached state of the undirected store, [SetEdge(e)] for
    an edge whose end points F and T have distinct ids returns; afterwards
    [Weight(F,T)] and [Weight(T,F)] are e's weight and true, every node that
    was in the store is kept, and [EdgeBetween] is e for the two orders of F
    and T and as before for every other pair of ids. *)
Theorem UG_SetEdge_effect (maxInt : Z) (cs : list call) (s a : float) (e : Edge) :
  ID (F e) <> ID (T e) ->
  exists g',
    UG.SetEdge e (UG_reached maxInt cs s a) = Ok tt g' /\
    UG.Weight (ID (F e)) (ID (T e)) g' = (W e, true) /\
    UG.Weight (ID (T e)) (ID (F e)) g' = (W e, true) /\
    (forall k x, UG.Node_ k (UG_reached maxInt cs s a) = Some x -> UG.Node_ k g' = Some x) /\
    (forall u v, UG.EdgeBetween u v g'
                 = if decide (ID (F e) = u /\ ID (T e) = v \/ ID (T e) = u /\ ID (F e) = v)
                   then Some e
                   else UG.EdgeBetween u v (UG_reached maxInt cs s a)).
Proof.
  pose proof (UG_reached_wf maxInt cs s a) as Hw.
  set (g := UG_reached maxInt cs s a) in *. intros Hne.
  destruct (UG_SetEdge_spec e g Hw Hne) as (g' & E & Hw' & Hn & Hk & Hf).
  exists g'. split; [exact E|].
  split; [|split; [|split; [exact Hk|]]].
  - unfold UG.Weight. rewrite decide_False by exact Hne.
    rewrite Hf. rewrite decide_True by tauto. reflexivity.
  - unfold UG.Weight. rewrite decide_False by congruence.
    rewrite Hf. rewrite decide_True by tauto. reflexivity.
  - intros u v.
    rewrite (UG_EdgeBetween_lookup2 g' u v Hw'), (UG_EdgeBetween_lookup2 g u v Hw).
    apply Hf.
Qed.

Lemma UG_SetEdge_effect_witness :
  exists g',
    UG.SetEdge edge_0_1 (UG_reached maxInt64 [CallAddNode (mkNode 1 7)] 0 0) = Ok tt g' /\
    UG.Weight 0 1 g' = (2.5%float, true) /\
    UG.Weight 1 0 g' = (2.5%float, true) /\
    (forall k x, UG.Node_ k (UG_reached maxInt64 [CallAddNode (mkNode 1 7)] 0 0) = Some x ->
                 UG.Node_ k g' = Some x) /\
    (forall u v, UG.EdgeBetween u v g'
                 = if decide (0 = u /\ 1 = v \/ 1 = u /\ 0 = v) then Some edge_0_1
                   else UG.EdgeBetween u v
                          (UG_reached maxInt64 [CallAddNode (mkNode 1 7)] 0 0)).
Proof.
  apply (UG_SetEdge_effect maxInt64 [CallAddNode (mkNode 1 7)] 0 0 edge_0_1).
  simpl. lia.
Defined.

(** ** What a user of the dense store observes *)

Section DenseObserved.
Implicit Types (m : mem) (g : DM.DirectedMatrix) (d : Dense) (a : list float).

(** The cell of row [i] and column [j] in an [n] by [n] array. *)
Definition DM_cell (n : Z) a (i j : Z) : option float := a !! Z.to_nat (i * n + j).

Lemma DM_cell_is_Some n d a i j :
  DM_square n d a -> 0 <= i < n -> 0 <= j < n -> is_Some (DM_cell n a i j).
Proof.
  intros Hsq Hi Hj. apply lookup_lt_is_Some.
  pose proof (DM_index_lt n d a i j Hsq Hi Hj) as H.
  destruct Hsq as (_ & _ & _ & HS & _). rewrite HS in H. exact H.
Qed.

(** Two cells of the matrix never share a place in the array. *)
Lemma DM_index_inj n i j i' j' :
  0 <= i < n -> 0 <= j < n -> 0 <= i' < n -> 0 <= j' < n ->
  Z.to_nat (i * n + j) = Z.to_nat (i' * n + j') -> i = i' /\ j = j'.
Proof.
  intros Hi Hj Hi' Hj' H.
  assert (i * n + j = i' * n + j') as Heq by nia. clear H.
  assert (i = i') as -> by nia. split; [reflexivity|lia].
Qed.

Lemma At_cell m g d a n i j v :
  DM_points m g d a -> DM_square n d a -> 0 <= i < n -> 0 <= j < n ->
  DM_cell n a i j = Some v -> At (DM.mat g) i j m = Ok v m.
Proof.
  intros Hp Hsq Hi Hj Hv. pose proof Hsq as (_ & HR & HC & HS & _).
  apply (At_ok m g d a i j v Hp); rewrite ?HR, ?HC, ?HS; assumption.
Qed.

Lemma has_inside m g d a n id :
  DM_points m g d a -> DM_square n d a -> 0 <= id < n -> DM.has id g m = Ok true m.
Proof.
  intros Hp (_ & HR & _) Hid. rewrite (has_ok m g d a id Hp), HR.
  rewrite !bool_decide_eq_true_2 by lia. reflexivity.
Qed.

Lemma has_outside m g d a n id :
  DM_points m g d a -> DM_square n d a -> ~ (0 <= id < n) -> DM.has id g m = Ok false m.
Proof.
  intros Hp (_ & HR & _) Hid. apply (DM_has_false m g d a id Hp). rewrite HR. exact Hid.
Qed.

(** [Weight] in a square store, case by case. *)
Lemma Weight_square m g d a n x y :
  DM_points m g d a -> DM_square n d a ->
  DM.Weight x y g m =
  Ok (if decide (x = y) then (DM.self g, true)
      else if decide (0 <= x < n /\ 0 <= y < n)
           then match DM_cell n a x y with
                | Some v => (v, true)
                | None => (DM.absent g, false)
                end
           else (DM.absent g, false)) m.
Proof.
  intros Hp Hsq. destruct (decide (x = y)) as [->|Hne]; [apply Weight_self|].
  destruct (decide (0 <= x < n /\ 0 <= y < n)) as [[Hx Hy]|Hout].
  - destruct (DM_cell_is_Some n d a x y Hsq Hx Hy) as [v Hv]. rewrite Hv.
    apply (Weight_inside m g d a n x y v Hp Hsq Hne Hx Hy Hv).
  - apply (Weight_outside m g d a x y Hp Hne).
    destruct Hsq as (_ & -> & _). exact Hout.
Qed.


End DenseObserved.



Section DenseWrites.
Implicit Types (m : mem) (g : DM.DirectedMatrix) (d : Dense) (a : list float).

Lemma DM_cell_insert n d a f t v x y :
  DM_square n d a -> 0 <= f < n -> 0 <= t < n -> 0 <= x < n -> 0 <= y < n ->
  DM_cell n (<[Z.to_nat (f * n + t) := v]> a) x y
  = if decide (f = x /\ t = y) then Some v else DM_cell n a x y.
Proof.
  intros Hsq Hf Ht Hx Hy. unfold DM_cell.
  destruct (decide (f = x /\ t = y)) as [[-> ->]|Hne].
  - apply list_lookup_insert_eq.
    pose proof (DM_index_lt n d a x y Hsq Hx Hy) as H.
    destruct Hsq as (_ & _ & _ & HS & _). rewrite HS in H. exact H.
  - apply list_lookup_insert_ne. intros Heq. apply Hne.
    apply (DM_index_inj n); assumption.
Qed.

(** A write of [v] into the cell of distinct or equal nodes [f] and [t], as
    [Weight] sees it. *)
Lemma DM_Set_Weight m g d a n f t v :
  DM_points m g d a -> DM_square n d a -> 0 <= f < n -> 0 <= t < n ->
  exists m' a',
    Set_ (DM.mat g) f t v m = Ok tt m' /\
    DM_points m' g d a' /\ DM_square n d a' /\
    (forall x y, 0 <= x < n -> 0 <= y < n ->
       DM_cell n a' x y = if decide (f = x /\ t = y) then Some v else DM_cell n a x y) /\
    (forall x y,
       outcome_of (DM.Weight x y g m')
       = if decide (f = x /\ t = y /\ x <> y) then inr (v, true)
         else outcome_of (DM.Weight x y g m)).
Proof.
  intros Hp Hsq Hf Ht.
  destruct (Set_shared m g d a n (DM.mat g) f t v Hp Hsq (proj1 Hp) Hf Ht)
    as (m' & E & _ & Hp' & Hsq').
  exists m', (<[Z.to_nat (f * n + t) := v]> a).
  split; [exact E|]. split; [exact Hp'|]. split; [exact Hsq'|].
  split; [intros x y Hx Hy; apply (DM_cell_insert n d a f t v x y Hsq Hf Ht Hx Hy)|].
  intros x y.
  rewrite (Weight_square m' g d _ n x y Hp' Hsq'), (Weight_square m g d a n x y Hp Hsq).
  simpl. destruct (decide (x = y)) as [->|Hne].
  { rewrite decide_False by tauto. reflexivity. }
  destruct (decide (0 <= x < n /\ 0 <= y < n)) as [[Hx Hy]|Hout].
  - rewrite (DM_cell_insert n d a f t v x y Hsq Hf Ht Hx Hy).
    destruct (decide (f = x /\ t = y)) as [Hd|Hd].
    + rewrite decide_True by tauto. reflexivity.
    + rewrite decide_False by tauto. reflexivity.
  - rewrite decide_False; [reflexivity|]. intros (-> & -> & _). tauto.
Qed.

End DenseWrites.

(** X20.  In a dense store of n nodes, [SetEdge(e)] for an edge whose end
    points F and T are distinct nodes of the store returns, keeps the
    header, and changes what [Weight] returns for the pair (F,T) only, to
    e's weight and true. *)
Theorem DM_SetEdge_effect (m : mem) (g : DM.DirectedMatrix) (d : Dense) (a : list float)
    (n : Z) (e : Edge) :
  DM_points m g d a -> DM_square n d a ->
  ID (F e) <> ID (T e) -> 0 <= ID (F e) < n -> 0 <= ID (T e) < n ->
  exists m' a',
    DM.SetEdge e g m = Ok tt m' /\
    DM_points m' g d a' /\ DM_square n d a' /\
    (forall x y,
       outcome_of (DM.Weight x y g m')
       = if decide (ID (F e) = x /\ ID (T e) = y) then inr (W e, true)
         else outcome_of (DM.Weight x y g m)).
Proof.
  intros Hp Hsq Hne Hf Ht.
  destruct (DM_Set_Weight m g d a n _ _ (W e) Hp Hsq Hf Ht)
    as (m' & a' & E & Hp' & Hsq' & _ & HW).
  exists m', a'. split.
  { unfold DM.SetEdge. rewrite decide_False by exact Hne. exact E. }
  split; [exact Hp'|]. split; [exact Hsq'|].
  intros x y. rewrite HW.
  destruct (decide (ID (F e) = x /\ ID (T e) = y)) as [[<- <-]|Hd].
  - rewrite decide_True by tauto. reflexivity.
  - rewrite decide_False by tauto. reflexivity.
Qed.

Lemma DM_SetEdge_effect_witness :
  exists m' a',
    DM.SetEdge edge_0_1 dm4 mem4 = Ok tt m' /\
    DM_points m' dm4 (mkDense 4 4 4 0) a' /\ DM_square 4 (mkDense 4 4 4 0) a' /\
    (forall x y,
       outcome_of (DM.Weight x y dm4 m')
       = if decide (0 = x /\ 1 = y) then inr (2.5%float, true)
         else outcome_of (DM.Weight x y dm4 mem4)).
Proof.
  apply (DM_SetEdge_effect mem4 dm4 (mkDense 4 4 4 0) (replicate 16 0%float) 4 edge_0_1).
  - split; reflexivity.
  - unfold DM_square. simpl. lia.
  - simpl. lia.
  - simpl. lia.
  - simpl. lia.
Defined.

(** X21.  In a dense store of n nodes, [SetEdge(e)] for an edge with
    distinct end-point ids one of which is not a node of the store panics
    with mat64's row-index error when the From id is out of range and with
    its column-index error otherwise; memory is left as it was: the matrix
    never grows. *)
Theorem DM_SetEdge_outside_panics (m : mem) (g : DM.DirectedMatrix) (d : Dense)
    (a : list float) (n : Z) (e : Edge) :
  DM_points m g d a -> DM_square n d a ->
  ID (F e) <> ID (T e) -> ~ (0 <= ID (F e) < n /\ 0 <= ID (T e) < n) ->
  DM.SetEdge e g m
  = Panic (if decide (0 <= ID (F e) < n) then ErrColAccess else ErrRowAccess) m.
Proof.
  intros [Hh Ha] (_ & HR & HC & _) Hne Hout.
  unfold DM.SetEdge. rewrite decide_False by exact Hne.
  unfold Set_, bind, load. rewrite Hh, HR, HC.
  destruct (decide (0 <= ID (F e) < n)) as [Hf|Hf].
  - rewrite decide_False by lia. rewrite decide_True by lia. reflexivity.
  - rewrite decide_True by lia. reflexivity.
Qed.

Lemma DM_SetEdge_outside_panics_witness :
  DM.SetEdge (mkEdge (mkNode 1 0) (mkNode 4 0) 1) dm4 mem4 = Panic ErrColAccess mem4.
Proof.
  apply (DM_SetEdge_outside_panics mem4 dm4 (mkDense 4 4 4 0) (replicate 16 0%float) 4
           (mkEdge (mkNode 1 0) (mkNode 4 0) 1)).
  - split; reflexivity.
  - unfold DM_square. simpl. lia.
  - simpl. lia.
  - simpl. lia.
Defined.

(** X22.  In a dense store of n nodes, [RemoveEdge(e)] does nothing when an
    end point of e is not a node of the store; otherwise it returns and
    changes what [Weight] returns for the pair of e's end points only, to
    the absent weight and true, and [HasEdgeFromTo] of that pair is then
    false provided [isSame] finds the absent weight the same as itself. *)
Theorem DM_RemoveEdge_effect (isSame : float -> float -> bool) (m : mem)
    (g : DM.DirectedMatrix) (d : Dense) (a : list float) (n : Z) (e : Edge) :
  DM_points m g d a -> DM_square n d a ->
  (~ (0 <= ID (F e) < n /\ 0 <= ID (T e) < n) -> DM.RemoveEdge e g m = Ok tt m) /\
  (0 <= ID (F e) < n -> 0 <= ID (T e) < n ->
   exists m' a',
     DM.RemoveEdge e g m = Ok tt m' /\
     DM_points m' g d a' /\ DM_square n d a' /\
     (forall x y,
        outcome_of (DM.Weight x y g m')
        = if decide (ID (F e) = x /\ ID (T e) = y /\ x <> y) then inr (DM.absent g, true)
          else outcome_of (DM.Weight x y g m)) /\
     (isSame (DM.absent g) (DM.absent g) = true ->
      DM.HasEdgeFromTo isSame (ID (F e)) (ID (T e)) g m' = Ok false m')).
Proof.
  intros Hp Hsq. split.
  - intros Hout. unfold DM.RemoveEdge, bind.
    destruct (decide (0 <= ID (F e) < n)) as [Hf|Hf].
    + rewrite (has_inside m g d a n _ Hp Hsq Hf). simpl.
      rewrite (has_outside m g d a n (ID (T e)) Hp Hsq ltac:(tauto)). reflexivity.
    + rewrite (has_outside m g d a n _ Hp Hsq Hf). reflexivity.
  - intros Hf Ht.
    destruct (DM_Set_Weight m g d a n _ _ (DM.absent g) Hp Hsq Hf Ht)
      as (m' & a' & E & Hp' & Hsq' & Hc & HW).
    exists m', a'. split.
    { unfold DM.RemoveEdge, bind.
      rewrite (has_inside m g d a n _ Hp Hsq Hf). simpl.
      rewrite (has_inside m g d a n _ Hp Hsq Ht). simpl. exact E. }
    split; [exact Hp'|]. split; [exact Hsq'|]. split; [exact HW|].
    intros Hrefl. unfold DM.HasEdgeFromTo, bind.
    rewrite (has_inside m' g d a' n _ Hp' Hsq' Hf). simpl.
    rewrite (has_inside m' g d a' n _ Hp' Hsq' Ht). simpl.
    destruct (decide (ID (F e) = ID (T e))); [reflexivity|].
    rewrite (At_cell m' g d a' n _ _ (DM.absent g) Hp' Hsq' Hf Ht).
    + unfold ret. rewrite Hrefl. reflexivity.
    + rewrite (Hc _ _ Hf Ht). rewrite decide_True by tauto. reflexivity.
Qed.

Lemma DM_RemoveEdge_effect_witness :
  DM.RemoveEdge (mkEdge (mkNode 1 0) (mkNode 4 0) 1) dm4 mem4 = Ok tt mem4.
Proof.
  apply (proj1 (DM_RemoveEdge_effect PrimFloat.eqb mem4 dm4 (mkDense 4 4 4 0)
                  (replicate 16 0%float) 4 (mkEdge (mkNode 1 0) (mkNode 4 0) 1)
                  ltac:(split; reflexivity) ltac:(unfold DM_square; simpl; lia))).
  simpl. lia.
Defined.

Section DenseNeighbours.
Variable isSame : float -> float -> bool.
Implicit Types (m : mem) (g : DM.DirectedMatrix) (d : Dense) (a : list float).

(** The node list of the store, when it has one, has one node per row. *)
Definition DM_nodes_ok (n : Z) g : Prop :=
  match DM.nodes g with
  | None => True
  | Some ns => length ns = Z.to_nat n
  end.

(** The node of an id of the store. *)
Definition DM_node g (j : Z) : Node :=
  match DM.nodes g with
  | None => mkNode j 0
  | Some ns => default (mkNode j 0) (ns !! Z.to_nat j)
  end.

(** The cell of [i] and [j] holds an edge: [i] and [j] differ and the cell
    is not the absent weight. *)
Definition DM_edge (n : Z) a (absent : float) (i j : Z) : bool :=
  if decide (i = j) then false
  else match DM_cell n a i j with
       | Some w => negb (isSame w absent)
       | None => false
       end.

Lemma Node_inside m g d a n j :
  DM_points m g d a -> DM_square n d a -> DM_nodes_ok n g -> 0 <= j < n ->
  DM.Node_ j g m = Ok (Some (DM_node g j)) m.
Proof.
  intros Hp Hsq Hn Hj. unfold DM.Node_, bind.
  rewrite (has_inside m g d a n j Hp Hsq Hj). simpl.
  unfold DM_node, DM_nodes_ok in *. destruct (DM.nodes g) as [ns|]; [|reflexivity].
  destruct (ns !! Z.to_nat j) eqn:E; [reflexivity|].
  apply lookup_ge_None in E. lia.
Qed.

Lemma foldl_bind_pure {A : Type} (body : Z -> A -> M mem A) (f : Z -> A -> A)
    (l : list Z) (init : M mem A) (x0 : A) m :
  (forall i x, i ∈ l -> body i x m = Ok (f i x) m) -> init m = Ok x0 m ->
  foldl (fun (c : M mem A) (i : Z) => do x <- c in body i x) init l m
  = Ok (foldl (fun x i => f i x) x0 l) m.
Proof.
  revert init x0. induction l as [|i l IH]; intros init x0 Hb Hi; simpl.
  - exact Hi.
  - apply IH.
    + intros j x Hj. apply Hb. apply elem_of_cons. right. exact Hj.
    + unfold bind. rewrite Hi. apply Hb. apply elem_of_cons. left. reflexivity.
Qed.

Lemma for_upto_pure {A : Type} (n : Z) (body : Z -> A -> M mem A) (f : Z -> A -> A)
    (acc : A) m :
  (forall i x, 0 <= i < n -> body i x m = Ok (f i x) m) ->
  DM.for_upto n body acc m = Ok (foldl (fun x i => f i x) acc (seqZ 0 n)) m.
Proof.
  intros Hb. unfold DM.for_upto. apply foldl_bind_pure; [|reflexivity].
  intros i x Hi. apply Hb. apply elem_of_seqZ in Hi. lia.
Qed.

Lemma foldl_append_filter {B : Type} (c : Z -> bool) (f : Z -> B) (l : list Z) (acc : list B) :
  foldl (fun x i => if c i then x ++ [f i] else x) acc l
  = acc ++ (f <$> filter (fun i => c i = true) l).
Proof.
  revert acc. induction l as [|i l IH]; intros acc; simpl.
  - symmetry. apply app_nil_r.
  - rewrite IH. rewrite filter_cons. destruct (c i) eqn:E.
    + rewrite decide_True by reflexivity. rewrite fmap_cons, <- app_assoc. reflexivity.
    + rewrite decide_False by discriminate. reflexivity.
Qed.

Lemma foldl_count_filter (c : Z -> bool) (l : list Z) (deg : Z) :
  foldl (fun x i => if c i then x + 1 else x) deg l
  = deg + Z.of_nat (length (filter (fun i => c i = true) l)).
Proof.
  revert deg. induction l as [|i l IH]; intros deg; simpl.
  - lia.
  - rewrite IH. rewrite filter_cons. destruct (c i) eqn:E.
    + rewrite decide_True by reflexivity. simpl. lia.
    + rewrite decide_False by discriminate. reflexivity.
Qed.

Lemma HasEdgeFromTo_square m g d a n u v :
  DM_points m g d a -> DM_square n d a ->
  DM.HasEdgeFromTo isSame u v g m
  = Ok (if decide (0 <= u < n /\ 0 <= v < n) then DM_edge n a (DM.absent g) u v
        else false) m.
Proof.
  intros Hp Hsq. unfold DM.HasEdgeFromTo, bind.
  destruct (decide (0 <= u < n /\ 0 <= v < n)) as [[Hu Hv]|Hout].
  - rewrite (has_inside m g d a n u Hp Hsq Hu). simpl.
    rewrite (has_inside m g d a n v Hp Hsq Hv). simpl.
    unfold DM_edge. destruct (decide (u = v)); [reflexivity|].
    destruct (DM_cell_is_Some n d a u v Hsq Hu Hv) as [w Hw]. rewrite Hw.
    rewrite (At_cell m g d a n u v w Hp Hsq Hu Hv Hw). reflexivity.
  - destruct (decide (0 <= u < n)) as [Hu|Hu].
    + rewrite (has_inside m g d a n u Hp Hsq Hu). simpl.
      rewrite (has_outside m g d a n v Hp Hsq ltac:(tauto)). reflexivity.
    + rewrite (has_outside m g d a n u Hp Hsq Hu). reflexivity.
Qed.

End DenseNeighbours.

(** X23.  In a dense store of n nodes and for a node id of the store,
    [From(id)] lists, by increasing id, exactly the nodes j with
    [HasEdgeFromTo(id,j)], [To(id)] exactly the nodes j with
    [HasEdgeFromTo(j,id)], and [Degree(id)] is the number of nodes in
    [From(id)] plus the number of nodes in [To(id)]. *)
Theorem DM_From_To_Degree (isSame : float -> float -> bool) (m : mem)
    (g : DM.DirectedMatrix) (d : Dense) (a : list float) (n id : Z) :
  DM_points m g d a -> DM_square n d a -> DM_nodes_ok n g -> 0 <= id < n ->
  exists out inn : list Z,
    out = filter (fun j => DM_edge isSame n a (DM.absent g) id j = true) (seqZ 0 n) /\
    inn = filter (fun j => DM_edge isSame n a (DM.absent g) j id = true) (seqZ 0 n) /\
    DM.From isSame id g m = Ok ((fun j => Some (DM_node g j)) <$> out) m /\
    DM.To isSame id g m = Ok ((fun j => Some (DM_node g j)) <$> inn) m /\
    DM.Degree isSame id g m = Ok (Z.of_nat (length out + length inn)) m /\
    (forall j, j ∈ out <-> DM.HasEdgeFromTo isSame id j g m = Ok true m) /\
    (forall j, j ∈ inn <-> DM.HasEdgeFromTo isSame j id g m = Ok true m).
Proof.
  intros Hp Hsq Hn Hid. eexists. eexists. split; [reflexivity|]. split; [reflexivity|].
  pose proof Hsq as (Hn0 & HR & HC & _).
  assert (forall i j, 0 <= i < n -> 0 <= j < n -> i <> j ->
            exists w, DM_cell n a i j = Some w /\ At (DM.mat g) i j m = Ok w m /\
                      DM_edge isSame n a (DM.absent g) i j = negb (isSame w (DM.absent g)))
    as Hcell.
  { intros i j Hi Hj Hne. destruct (DM_cell_is_Some n d a i j Hsq Hi Hj) as [w Hw].
    exists w. split; [exact Hw|]. split; [apply (At_cell m g d a n i j w Hp Hsq Hi Hj Hw)|].
    unfold DM_edge. rewrite decide_False by exact Hne. rewrite Hw. reflexivity. }
  assert (forall i, DM_edge isSame n a (DM.absent g) i i = false) as Hdiag.
  { intros i. unfold DM_edge. rewrite decide_True by reflexivity. reflexivity. }
  split; [|split; [|split; [|split]]].
  - unfold DM.From, bind. rewrite (has_inside m g d a n id Hp Hsq Hid). simpl.
    rewrite (Dims_ok m g d a Hp). simpl. rewrite HC.
    rewrite (for_upto_pure n _
               (fun j x => if DM_edge isSame n a (DM.absent g) id j
                           then x ++ [Some (DM_node g j)] else x)).
    + rewrite foldl_append_filter. reflexivity.
    + intros j x Hj. destruct (decide (j = id)) as [->|Hne].
      * rewrite Hdiag. reflexivity.
      * destruct (Hcell id j Hid Hj ltac:(congruence)) as (w & _ & -> & ->).
        destruct (negb (isSame w (DM.absent g))); [|reflexivity].
        rewrite (Node_inside m g d a n j Hp Hsq Hn Hj). reflexivity.
  - unfold DM.To, bind. rewrite (has_inside m g d a n id Hp Hsq Hid). simpl.
    rewrite (Dims_ok m g d a Hp). simpl. rewrite HR.
    rewrite (for_upto_pure n _
               (fun j x => if DM_edge isSame n a (DM.absent g) j id
                           then x ++ [Some (DM_node g j)] else x)).
    + rewrite foldl_append_filter. reflexivity.
    + intros j x Hj. destruct (decide (j = id)) as [->|Hne].
      * rewrite Hdiag. reflexivity.
      * destruct (Hcell j id Hj Hid Hne) as (w & _ & -> & ->).
        destruct (negb (isSame w (DM.absent g))); [|reflexivity].
        rewrite (Node_inside m g d a n j Hp Hsq Hn Hj). reflexivity.
  - unfold DM.Degree. unfold bind at 1. rewrite (Dims_ok m g d a Hp). simpl.
    rewrite HR, HC. unfold bind.
    rewrite (for_upto_pure n _
               (fun j x => if DM_edge isSame n a (DM.absent g) id j then x + 1 else x)).
    + rewrite (for_upto_pure n _
                 (fun j x => if DM_edge isSame n a (DM.absent g) j id then x + 1 else x)).
      * rewrite !foldl_count_filter. f_equal. lia.
      * intros j x Hj. destruct (decide (j = id)) as [->|Hne].
        -- rewrite Hdiag. reflexivity.
        -- destruct (Hcell j id Hj Hid Hne) as (w & _ & -> & ->). reflexivity.
    + intros j x Hj. destruct (decide (j = id)) as [->|Hne].
      * rewrite Hdiag. reflexivity.
      * destruct (Hcell id j Hid Hj ltac:(congruence)) as (w & _ & -> & ->). reflexivity.
  - intros j. rewrite list_elem_of_filter, elem_of_seqZ.
    rewrite (HasEdgeFromTo_square isSame m g d a n id j Hp Hsq).
    destruct (decide (0 <= id < n /\ 0 <= j < n)) as [[_ Hj]|Hout].
    + split; [intros [-> _]; reflexivity|]. intros [= ->]. split; [reflexivity|lia].
    + split; [intros [_ H]; lia|discriminate].
  - intros j. rewrite list_elem_of_filter, elem_of_seqZ.
    rewrite (HasEdgeFromTo_square isSame m g d a n j id Hp Hsq).
    destruct (decide (0 <= j < n /\ 0 <= id < n)) as [[Hj _]|Hout].
    + split; [intros [-> _]; reflexivity|]. intros [= ->]. split; [reflexivity|lia].
    + split; [intros [_ H]; lia|discriminate].
Qed.

Lemma DM_From_To_Degree_witness :
  exists out inn : list Z,
    out = filter (fun j => DM_edge PrimFloat.eqb 4 (replicate 16 0%float) (DM.absent dm4) 0 j
                           = true) (seqZ 0 4) /\
    inn = filter (fun j => DM_edge PrimFloat.eqb 4 (replicate 16 0%float) (DM.absent dm4) j 0
                           = true) (seqZ 0 4) /\
    DM.From PrimFloat.eqb 0 dm4 mem4 = Ok ((fun j => Some (DM_node dm4 j)) <$> out) mem4 /\
    DM.To PrimFloat.eqb 0 dm4 mem4 = Ok ((fun j => Some (DM_node dm4 j)) <$> inn) mem4 /\
    DM.Degree PrimFloat.eqb 0 dm4 mem4 = Ok (Z.of_nat (length out + length inn)) mem4 /\
    (forall j, j ∈ out <-> DM.HasEdgeFromTo PrimFloat.eqb 0 j dm4 mem4 = Ok true mem4) /\
    (forall j, j ∈ inn <-> DM.HasEdgeFromTo PrimFloat.eqb j 0 dm4 mem4 = Ok true mem4).
Proof.
  apply (DM_From_To_Degree PrimFloat.eqb mem4 dm4 (mkDense 4 4 4 0) (replicate 16 0%float) 4 0).
  - split; reflexivity.
  - unfold DM_square. simpl. lia.
  - exact I.
  - lia.
Defined.

(** X24.  In a dense store of n nodes the edge queries agree for every pair
    of ids: [HasEdgeBetween(u,v)] holds exactly when [HasEdgeFromTo] holds
    one way or the other; [Edge(u,v)] is nil exactly when
    [HasEdgeFromTo(u,v)] is false, and otherwise it is the edge from the
    node of u to the node of v whose weight is the one [Weight(u,v)]
    returns. *)
Theorem DM_edge_queries_agree (isSame : float -> float -> bool) (m : mem)
    (g : DM.DirectedMatrix) (d : Dense) (a : list float) (n u v : Z) :
  DM_points m g d a -> DM_square n d a -> DM_nodes_ok n g ->
  exists b1 b2 : bool,
    DM.HasEdgeFromTo isSame u v g m = Ok b1 m /\
    DM.HasEdgeFromTo isSame v u g m = Ok b2 m /\
    DM.HasEdgeBetween isSame u v g m = Ok (b1 || b2) m /\
    (b1 = false -> DM.Edge_ isSame u v g m = Ok None m) /\
    (b1 = true ->
     exists w, DM.Edge_ isSame u v g m = Ok (Some (mkEdge (DM_node g u) (DM_node g v) w)) m /\
               DM.Weight u v g m = Ok (w, true) m).
Proof.
  intros Hp Hsq Hn. eexists. eexists.
  split; [apply (HasEdgeFromTo_square isSame m g d a n u v Hp Hsq)|].
  split; [apply (HasEdgeFromTo_square isSame m g d a n v u Hp Hsq)|].
  destruct (decide (0 <= u < n /\ 0 <= v < n)) as [[Hu Hv]|Hout].
  - rewrite (decide_True (P := 0 <= v < n /\ 0 <= u < n)) by tauto.
    destruct (decide (u = v)) as [->|Hne].
    + unfold DM_edge. rewrite decide_True by reflexivity. simpl.
      split; [|split; [|discriminate]].
      * unfold DM.HasEdgeBetween, bind.
        rewrite (has_inside m g d a n v Hp Hsq Hv). simpl.
        rewrite (has_inside m g d a n v Hp Hsq Hv). simpl.
        rewrite decide_True by reflexivity. reflexivity.
      * intros _. unfold DM.Edge_. unfold bind at 1.
        rewrite (HasEdgeFromTo_square isSame m g d a n v v Hp Hsq).
        rewrite decide_True by tauto. unfold DM_edge.
        rewrite decide_True by reflexivity. reflexivity.
    + destruct (DM_cell_is_Some n d a u v Hsq Hu Hv) as [w Hw].
      destruct (DM_cell_is_Some n d a v u Hsq Hv Hu) as [w' Hw'].
      unfold DM_edge. rewrite !decide_False by congruence. rewrite Hw, Hw'.
      split; [|split].
      * unfold DM.HasEdgeBetween, bind.
        rewrite (has_inside m g d a n u Hp Hsq Hu). simpl.
        rewrite (has_inside m g d a n v Hp Hsq Hv). simpl.
        rewrite decide_False by exact Hne.
        rewrite (At_cell m g d a n u v w Hp Hsq Hu Hv Hw).
        destruct (negb (isSame w (DM.absent g))); [reflexivity|].
        rewrite (At_cell m g d a n v u w' Hp Hsq Hv Hu Hw'). reflexivity.
      * intros Hb. unfold DM.Edge_. unfold bind at 1.
        rewrite (HasEdgeFromTo_square isSame m g d a n u v Hp Hsq).
        rewrite decide_True by tauto. unfold DM_edge.
        rewrite decide_False by exact Hne. rewrite Hw, Hb. reflexivity.
      * intros Hb. exists w. split.
        -- unfold DM.Edge_. unfold bind at 1.
           rewrite (HasEdgeFromTo_square isSame m g d a n u v Hp Hsq).
           rewrite decide_True by tauto. unfold DM_edge.
           rewrite decide_False by exact Hne. rewrite Hw, Hb. unfold bind.
           rewrite (Node_inside m g d a n u Hp Hsq Hn Hu).
           rewrite (Node_inside m g d a n v Hp Hsq Hn Hv).
           rewrite (At_cell m g d a n u v w Hp Hsq Hu Hv Hw). reflexivity.
        -- apply (Weight_inside m g d a n u v w Hp Hsq Hne Hu Hv Hw).
  - rewrite (decide_False (P := 0 <= v < n /\ 0 <= u < n)) by tauto. simpl.
    split; [|split; [|discriminate]].
    + unfold DM.HasEdgeBetween, bind.
      destruct (decide (0 <= u < n)) as [Hu|Hu].
      * rewrite (has_inside m g d a n u Hp Hsq Hu). simpl.
        rewrite (has_outside m g d a n v Hp Hsq ltac:(tauto)). reflexivity.
      * rewrite (has_outside m g d a n u Hp Hsq Hu). reflexivity.
    + intros _. unfold DM.Edge_. unfold bind at 1.
      rewrite (HasEdgeFromTo_square isSame m g d a n u v Hp Hsq).
      rewrite decide_False by exact Hout. reflexivity.
Qed.

Lemma DM_edge_queries_agree_witness :
  exists b1 b2 : bool,
    DM.HasEdgeFromTo PrimFloat.eqb 0 1 dm4 mem4 = Ok b1 mem4 /\
    DM.HasEdgeFromTo PrimFloat.eqb 1 0 dm4 mem4 = Ok b2 mem4 /\
    DM.HasEdgeBetween PrimFloat.eqb 0 1 dm4 mem4 = Ok (b1 || b2) mem4 /\
    (b1 = false -> DM.Edge_ PrimFloat.eqb 0 1 dm4 mem4 = Ok None mem4) /\
    (b1 = true ->
     exists w, DM.Edge_ PrimFloat.eqb 0 1 dm4 mem4
               = Ok (Some (mkEdge (DM_node dm4 0) (DM_node dm4 1) w)) mem4 /\
               DM.Weight 0 1 dm4 mem4 = Ok (w, true) mem4).
Proof.
  apply (DM_edge_queries_agree PrimFloat.eqb mem4 dm4 (mkDense 4 4 4 0)
           (replicate 16 0%float) 4 0 1).
  - split; reflexivity.
  - unfold DM_square. simpl. lia.
  - exact I.
Defined.

(** ** [Copy] between sparse directed stores *)

Section CopyDirected.
Variable src : DG.DirectedGraph.
Hypothesis src_wf : DG_wf src.
Implicit Types (dst : DG.DirectedGraph) (l us : list Node) (ts : list Z).

(** The destination holds every node of the source, as the source has it. *)
Definition holds_src_nodes dst : Prop :=
  forall k x, DG.nodes src !! k = Some x -> DG.nodes dst !! k = Some x.

(** The first loop of [Copy]: [for _, n := range nodes { dst.AddNode(n) }]. *)
Lemma Copy_add_nodes l dst :
  DG_wf dst -> NoDup (ID <$> l) -> (forall n, n ∈ l -> DG.nodes dst !! ID n = None) ->
  exists dst',
    forM_ (Some <$> l) (fun n => graph.non_nil n DG.AddNode) dst = Ok tt dst' /\
    DG_wf dst' /\
    (forall n, n ∈ l -> DG.nodes dst' !! ID n = Some n) /\
    (forall k, k ∉ ID <$> l -> DG.nodes dst' !! k = DG.nodes dst !! k) /\
    (forall u v, lookup2 (DG.from dst') u v = lookup2 (DG.from dst) u v).
Proof.
  revert dst. induction l as [|n0 l IH]; intros dst Hw Hnd Hfresh.
  - exists dst. simpl. split; [reflexivity|]. split; [exact Hw|].
    split; [|auto]. intros n Hn. apply elem_of_nil in Hn. destruct Hn.
  - rewrite fmap_cons in Hnd. apply NoDup_cons in Hnd. destruct Hnd as [Hn0 Hnd].
    assert (DG.nodes dst !! ID n0 = None) as Hx
      by (apply Hfresh; apply elem_of_cons; left; reflexivity).
    pose proof (DG_AddNode_wf n0 dst Hw) as Hw1.
    pose proof (DG_AddNode_fresh n0 dst Hx) as E1. rewrite E1 in Hw1. simpl in Hw1.
    set (dst1 := DG.mkDirectedGraph _ _ _ _ _ _ _) in *.
    destruct (IH dst1 Hw1 Hnd) as (dst' & E & Hw' & Hin & Hout & Hfrom).
    { intros n Hn. unfold dst1. simpl. rewrite lookup_insert_ne.
      - apply Hfresh. apply elem_of_cons. right. exact Hn.
      - intros Heq. apply Hn0. rewrite Heq. apply list_elem_of_fmap. eauto. }
    exists dst'. split.
    { simpl. unfold bind. simpl. rewrite E1. exact E. }
    split; [exact Hw'|]. split; [|split].
    + intros n Hn. apply elem_of_cons in Hn. destruct Hn as [->|Hn]; [|apply Hin; exact Hn].
      rewrite (Hout _ Hn0). unfold dst1. simpl. apply lookup_insert_eq.
    + intros k Hk. rewrite fmap_cons in Hk. apply not_elem_of_cons in Hk.
      destruct Hk as [Hk1 Hk2]. rewrite (Hout _ Hk2). unfold dst1. simpl.
      apply lookup_insert_ne. congruence.
    + intros u v. rewrite Hfrom. unfold dst1. simpl. rewrite lookup2_insert_inner.
      destruct (decide (ID n0 = u)) as [<-|]; [|reflexivity].
      rewrite lookup_empty. symmetry. apply lookup2_None_outer.
      apply DG_keys_from; [apply Hw|exact Hx].
Qed.

(** One call [dst.SetEdge(src.Edge(u, v))] for an edge of the source. *)
Lemma Copy_set_edge dst u t e :
  DG_wf dst -> holds_src_nodes dst -> lookup2 (DG.from src) u t = Some e ->
  exists dst',
    DG.SetEdge e dst = Ok tt dst' /\ DG_wf dst' /\ holds_src_nodes dst' /\
    (forall k, DG.nodes dst' !! k = DG.nodes dst !! k) /\
    (forall x y, lookup2 (DG.from dst') x y =
                 if decide (u = x /\ t = y) then Some e else lookup2 (DG.from dst) x y).
Proof.
  intros Hw Hh He. destruct src_wf as (Hi & _ & Hids & _).
  destruct (Hids u t e He) as (HF & HT & Hne).
  destruct (DG_edge_nodes src u t e Hi He) as [[nu Hnu] [nt Hnt]].
  destruct (DG_SetEdge_spec e dst Hw ltac:(congruence)) as (dst' & E & Hw' & Hn & Hk & Hf).
  exists dst'. split; [exact E|]. split; [exact Hw'|].
  assert (forall k, DG.nodes dst' !! k = DG.nodes dst !! k) as Hsame.
  { intros k. destruct (DG.nodes dst !! k) as [x|] eqn:Ex; [apply Hk; exact Ex|].
    apply eq_None_not_Some. intros Hs. apply Hn in Hs.
    destruct Hs as [[? Hs]|[->| ->]]; [congruence| |].
    - rewrite HF, (Hh _ _ Hnu) in Ex. discriminate.
    - rewrite HT, (Hh _ _ Hnt) in Ex. discriminate. }
  split; [|split; [exact Hsame|]].
  - intros k x Hx. rewrite Hsame. apply Hh. exact Hx.
  - intros x y. rewrite Hf, HF, HT. reflexivity.
Qed.

(** The inner loop of [Copy] for a node [u] of the source, over the ids
    [ts] that [src.From(u)] yields. *)
Lemma Copy_inner u ts dst :
  DG_wf dst -> holds_src_nodes dst ->
  (forall t, t ∈ ts -> is_Some (lookup2 (DG.from src) u t)) ->
  exists dst',
    forM_ ((fun t => DG.nodes src !! t) <$> ts)
          (fun v => graph.non_nil v (fun v0 =>
             do e <- graph.lift (inr (DG.Edge_ u (ID v0) src)) in
             graph.non_nil e DG.SetEdge)) dst = Ok tt dst' /\
    DG_wf dst' /\ holds_src_nodes dst' /\
    (forall k, DG.nodes dst' !! k = DG.nodes dst !! k) /\
    (forall x y, lookup2 (DG.from dst') x y =
                 if decide (x = u /\ y ∈ ts) then lookup2 (DG.from src) x y
                 else lookup2 (DG.from dst) x y).
Proof.
  revert dst. induction ts as [|t ts IH]; intros dst Hw Hh Hts.
  - exists dst. split; [reflexivity|]. split; [exact Hw|]. split; [exact Hh|].
    split; [reflexivity|]. intros x y. rewrite decide_False; [reflexivity|].
    intros [_ H]. apply elem_of_nil in H. exact H.
  - destruct (Hts t) as [e He]; [apply elem_of_cons; left; reflexivity|].
    pose proof src_wf as (Hi & Hnid & _).
    destruct (DG_edge_nodes src u t e Hi He) as [_ [nt Hnt]].
    pose proof (Hnid _ _ Hnt) as Hidt.
    destruct (Copy_set_edge dst u t e Hw Hh He) as (dst1 & E1 & Hw1 & Hh1 & Hn1 & Hf1).
    destruct (IH dst1 Hw1 Hh1) as (dst' & E & Hw' & Hh' & Hn' & Hf').
    { intros t' Ht'. apply Hts. apply elem_of_cons. right. exact Ht'. }
    exists dst'. split.
    { simpl. rewrite Hnt. unfold bind at 1. simpl. unfold bind at 1. simpl.
      rewrite Hidt, (DG_Edge_lookup2 src u t src_wf), He. simpl. rewrite E1. exact E. }
    split; [exact Hw'|]. split; [exact Hh'|]. split.
    + intros k. rewrite Hn', Hn1. reflexivity.
    + intros x y. rewrite Hf', Hf1.
      destruct (decide (x = u /\ y ∈ ts)) as [[-> Hy]|Hn2].
      * rewrite decide_True; [reflexivity|]. split; [reflexivity|].
        apply elem_of_cons. right. exact Hy.
      * destruct (decide (u = x /\ t = y)) as [[<- <-]|Hn3].
        -- rewrite decide_True; [symmetry; exact He|]. split; [reflexivity|].
           apply elem_of_cons. left. reflexivity.
        -- rewrite decide_False; [reflexivity|]. intros [-> Hy].
           apply elem_of_cons in Hy. destruct Hy as [->|Hy]; tauto.
Qed.

(** The second loop of [Copy], over the nodes [us] of the source. *)
Lemma Copy_outer us dst :
  DG_wf dst -> holds_src_nodes dst ->
  exists dst',
    forM_ (Some <$> us)
          (fun u => graph.non_nil u (fun u0 =>
             do vs <- graph.lift (inr (DG.From (ID u0) src)) in
             forM_ vs (fun v => graph.non_nil v (fun v0 =>
               do e <- graph.lift (inr (DG.Edge_ (ID u0) (ID v0) src)) in
               graph.non_nil e DG.SetEdge)))) dst = Ok tt dst' /\
    DG_wf dst' /\ holds_src_nodes dst' /\
    (forall k, DG.nodes dst' !! k = DG.nodes dst !! k) /\
    (forall x y, lookup2 (DG.from dst') x y =
                 if decide (x ∈ ID <$> us /\ is_Some (lookup2 (DG.from src) x y))
                 then lookup2 (DG.from src) x y
                 else lookup2 (DG.from dst) x y).
Proof.
  revert dst. induction us as [|u us IH]; intros dst Hw Hh.
  - exists dst. split; [reflexivity|]. split; [exact Hw|]. split; [exact Hh|].
    split; [reflexivity|]. intros x y. rewrite decide_False; [reflexivity|].
    intros [H _]. apply elem_of_nil in H. exact H.
  - assert (DG.From (ID u) src
            = (fun t => DG.nodes src !! t) <$> keys2 (DG.from src) (ID u)) as HF.
    { unfold DG.From, keys2. destruct (DG.from src !! ID u); reflexivity. }
    destruct (Copy_inner (ID u) (keys2 (DG.from src) (ID u)) dst Hw Hh)
      as (dst1 & E1 & Hw1 & Hh1 & Hn1 & Hf1).
    { intros t Ht. apply elem_of_keys2. exact Ht. }
    destruct (IH dst1 Hw1 Hh1) as (dst' & E & Hw' & Hh' & Hn' & Hf').
    exists dst'. split.
    { simpl. unfold bind at 1. simpl. unfold bind at 1. simpl.
      rewrite HF, E1. exact E. }
    split; [exact Hw'|]. split; [exact Hh'|]. split.
    + intros k. rewrite Hn', Hn1. reflexivity.
    + intros x y. rewrite Hf', Hf1.
      destruct (decide (x ∈ ID <$> us /\ is_Some (lookup2 (DG.from src) x y)))
        as [[Hx Hs]|Hn2].
      * rewrite decide_True; [reflexivity|]. split; [|exact Hs].
        rewrite fmap_cons. apply elem_of_cons. right. exact Hx.
      * destruct (decide (x = ID u /\ y ∈ keys2 (DG.from src) (ID u))) as [[-> Hy]|Hn3].
        -- rewrite decide_True; [reflexivity|]. split.
           ++ rewrite fmap_cons. apply elem_of_cons. left. reflexivity.
           ++ apply elem_of_keys2. exact Hy.
        -- rewrite decide_False; [reflexivity|]. intros [Hx Hs].
           rewrite fmap_cons in Hx. apply elem_of_cons in Hx.
           destruct Hx as [->|Hx]; [|tauto].
           apply Hn3. split; [reflexivity|]. apply elem_of_keys2. exact Hs.
Qed.

End CopyDirected.

Section CopyFacts.
Implicit Types (g src dst : DG.DirectedGraph) (l : list Node).

Lemma DG_Nodes_wf g :
  DG_wf g -> DG.Nodes g = inr (Some <$> (map_to_list (DG.nodes g)).*2).
Proof.
  intros (((Hf & _) & _) & _).
  assert (size (DG.from g) = size (DG.nodes g)) as Hsz.
  { rewrite <- !size_dom. f_equal. apply set_eq. intros k.
    rewrite !elem_of_dom. apply Hf. }
  assert (length (map_to_list (DG.nodes g)).*2 = size (DG.nodes g)) as Hl.
  { rewrite length_fmap. apply length_map_to_list. }
  unfold DG.Nodes. rewrite decide_True by lia.
  rewrite Hl, Hsz, Nat.sub_diag. simpl. rewrite app_nil_r. reflexivity.
Qed.

Lemma DG_node_list_ids g :
  DG_wf g -> ID <$> (map_to_list (DG.nodes g)).*2 = (map_to_list (DG.nodes g)).*1.
Proof.
  intros (_ & Hn & _).
  assert (forall L : list (Z * Node),
            (forall k n, (k, n) ∈ L -> ID n = k) -> ID <$> L.*2 = L.*1) as HL.
  { induction L as [|[k n] L IH]; intros H; [reflexivity|].
    rewrite !fmap_cons. simpl. f_equal.
    - apply H. apply elem_of_cons. left. reflexivity.
    - apply IH. intros k' n' Hin. apply H. apply elem_of_cons. right. exact Hin. }
  apply HL. intros k n Hin. apply elem_of_map_to_list in Hin. apply (Hn _ _ Hin).
Qed.

Lemma DG_node_list_elem g n :
  DG_wf g -> n ∈ (map_to_list (DG.nodes g)).*2 <-> DG.nodes g !! ID n = Some n.
Proof.
  intros (_ & Hn & _). rewrite list_elem_of_fmap. split.
  - intros ([k x] & -> & Hin). apply elem_of_map_to_list in Hin. simpl.
    rewrite (Hn _ _ Hin). exact Hin.
  - intros H. exists (ID n, n). split; [reflexivity|].
    apply elem_of_map_to_list. exact H.
Qed.

Lemma DG_node_ids_elem g k :
  DG_wf g -> k ∈ ID <$> (map_to_list (DG.nodes g)).*2 <-> is_Some (DG.nodes g !! k).
Proof.
  intros Hw. rewrite list_elem_of_fmap. split.
  - intros (n & -> & Hin). apply (DG_node_list_elem g n Hw) in Hin. eauto.
  - intros [n Hk]. exists n. pose proof Hw as (_ & Hn & _).
    pose proof (Hn _ _ Hk) as Hid. split; [congruence|].
    apply (DG_node_list_elem g n Hw). rewrite Hid. exact Hk.
Qed.

(** The first loop of [Copy] panics as soon as the destination holds the id
    of a node it is given. *)
Lemma Copy_add_nodes_collision l dst :
  (exists n, n ∈ l /\ is_Some (DG.nodes dst !! ID n)) ->
  exists n st, n ∈ l /\
    forM_ (Some <$> l) (fun n => graph.non_nil n DG.AddNode) dst
    = Panic (NodeIDCollision (ID n)) st.
Proof.
  revert dst. induction l as [|n0 l IH]; intros dst (n & Hin & Hs).
  - apply elem_of_nil in Hin. destruct Hin.
  - destruct (DG.nodes dst !! ID n0) as [x|] eqn:Hx.
    + exists n0, dst. split; [apply elem_of_cons; left; reflexivity|].
      simpl. unfold bind. simpl. unfold DG.AddNode. rewrite Hx. reflexivity.
    + apply elem_of_cons in Hin. destruct Hin as [->|Hin].
      { rewrite Hx in Hs. destruct Hs; discriminate. }
      pose proof (DG_AddNode_fresh n0 dst Hx) as E1.
      set (dst1 := DG.mkDirectedGraph _ _ _ _ _ _ _) in E1.
      destruct (IH dst1) as (n' & st & Hin' & E).
      { exists n. split; [exact Hin|]. unfold dst1. simpl.
        rewrite lookup_insert. destruct (decide (ID n0 = ID n)); eauto. }
      exists n', st. split; [apply elem_of_cons; right; exact Hin'|].
      simpl. unfold bind. simpl. rewrite E1. exact E.
Qed.

End CopyFacts.

(** X25.  [Copy] from a reached directed store into a reached directed store
    that shares no node id with it returns, without first clearing the
    destination: afterwards the destination holds the nodes and the edges
    of the source, as the source has them, beside its own. *)
Theorem Copy_directed_into_directed (maxInt maxInt' : Z) (cs cs' : list call)
    (s a s' a' : float) :
  (forall k, DG.Has k (DG_reached maxInt cs s a) = true ->
             DG.Has k (DG_reached maxInt' cs' s' a') = false) ->
  exists dst',
    graph.Copy (DG_reached maxInt cs s a) (DG_reached maxInt' cs' s' a') = Ok tt dst' /\
    (forall k, DG.Node_ k dst'
               = match DG.Node_ k (DG_reached maxInt cs s a) with
                 | Some n => Some n
                 | None => DG.Node_ k (DG_reached maxInt' cs' s' a')
                 end) /\
    (forall u v, DG.Edge_ u v dst'
                 = match DG.Edge_ u v (DG_reached maxInt cs s a) with
                   | Some e => Some e
                   | None => DG.Edge_ u v (DG_reached maxInt' cs' s' a')
                   end).
Proof.
  pose proof (DG_reached_wf maxInt cs s a) as Hws.
  pose proof (DG_reached_wf maxInt' cs' s' a') as Hwd.
  set (src := DG_reached maxInt cs s a) in *.
  set (dst := DG_reached maxInt' cs' s' a') in *.
  intros Hdisj. set (l := (map_to_list (DG.nodes src)).*2).
  destruct (Copy_add_nodes l dst Hwd) as (dst1 & E1 & Hw1 & Hin1 & Hout1 & Hf1).
  { unfold l. rewrite (DG_node_list_ids src Hws). apply NoDup_fst_map_to_list. }
  { intros n Hn. apply (DG_node_list_elem src n Hws) in Hn.
    apply DG_Has_false. apply Hdisj. apply DG_Has_true. eauto. }
  assert (holds_src_nodes src dst1) as Hh1.
  { intros k x Hx. pose proof Hws as (_ & Hn & _). pose proof (Hn _ _ Hx) as Hid.
    rewrite <- Hid. apply Hin1. apply (DG_node_list_elem src x Hws).
    rewrite Hid. exact Hx. }
  destruct (Copy_outer src Hws l dst1 Hw1 Hh1) as (dst2 & E2 & Hw2 & Hh2 & Hn2 & Hf2).
  exists dst2. split; [|split].
  - unfold graph.Copy.
    cbn [graph.Nodes graph.From graph.Edge_ graph.AddNode graph.SetEdge
         DirectedGraph_Graph DirectedGraph_Builder].
    rewrite (DG_Nodes_wf src Hws). fold l.
    unfold bind at 1. unfold graph.lift at 1.
    unfold bind at 1. rewrite E1. exact E2.
  - intros k. unfold DG.Node_. rewrite Hn2.
    destruct (DG.nodes src !! k) as [n|] eqn:Hk.
    + apply Hh1. exact Hk.
    + apply Hout1. intros Hin. apply (DG_node_ids_elem src k Hws) in Hin.
      rewrite Hk in Hin. destruct Hin; discriminate.
  - intros u v.
    rewrite (DG_Edge_lookup2 dst2 u v Hw2), (DG_Edge_lookup2 src u v Hws),
      (DG_Edge_lookup2 dst u v Hwd), Hf2, Hf1.
    destruct (lookup2 (DG.from src) u v) as [e|] eqn:He.
    + rewrite decide_True; [reflexivity|]. split; [|eauto].
      apply (DG_node_ids_elem src u Hws).
      apply (DG_edge_nodes src u v e (proj1 Hws) He).
    + rewrite decide_False; [reflexivity|]. intros [_ [? ?]]. discriminate.
Qed.

Lemma Copy_directed_into_directed_witness :
  exists dst',
    graph.Copy (DG_reached maxInt64 [CallSetEdge edge_0_1] 0 0)
               (DG_reached maxInt64 [CallAddNode (mkNode 5 0)] 0 0) = Ok tt dst' /\
    (forall k, DG.Node_ k dst'
               = match DG.Node_ k (DG_reached maxInt64 [CallSetEdge edge_0_1] 0 0) with
                 | Some n => Some n
                 | None => DG.Node_ k (DG_reached maxInt64 [CallAddNode (mkNode 5 0)] 0 0)
                 end) /\
    (forall u v, DG.Edge_ u v dst'
                 = match DG.Edge_ u v (DG_reached maxInt64 [CallSetEdge edge_0_1] 0 0) with
                   | Some e => Some e
                   | None => DG.Edge_ u v (DG_reached maxInt64 [CallAddNode (mkNode 5 0)] 0 0)
                   end).
Proof.
  apply (Copy_directed_into_directed maxInt64 maxInt64 [CallSetEdge edge_0_1]
           [CallAddNode (mkNode 5 0)] 0 0 0 0).
  intros k Hk. destruct (decide (k = 5)) as [->|Hne].
  - vm_compute in Hk. discriminate.
  - apply DG_Has_false.
    assert (DG.nodes (DG_reached maxInt64 [CallAddNode (mkNode 5 0)] 0 0)
            = <[5 := mkNode 5 0]> ∅) as -> by (vm_compute; reflexivity).
    rewrite lookup_insert_ne by congruence. apply lookup_empty.
Defined.

(** X26.  [Copy] from a reached directed store into any directed store that
    holds a node with the id of a node of the source panics with a node-id
    collision, for an id of a node of the source. *)
Theorem Copy_directed_collision (maxInt : Z) (cs : list call) (s a : float)
    (dst : DG.DirectedGraph) (k : Z) :
  DG.Has k (DG_reached maxInt cs s a) = true -> DG.Has k dst = true ->
  exists id st,
    graph.Copy (DG_reached maxInt cs s a) dst = Panic (NodeIDCollision id) st /\
    DG.Has id (DG_reached maxInt cs s a) = true.
Proof.
  pose proof (DG_reached_wf maxInt cs s a) as Hws.
  set (src := DG_reached maxInt cs s a) in *. intros Hks Hkd.
  apply DG_Has_true in Hks, Hkd. destruct Hks as [n Hn].
  pose proof Hws as (_ & Hids & _). pose proof (Hids _ _ Hn) as Hid.
  destruct (Copy_add_nodes_collision ((map_to_list (DG.nodes src)).*2) dst)
    as (n' & st & Hin & E).
  { exists n. split; [|rewrite Hid; exact Hkd].
    apply (DG_node_list_elem src n Hws). rewrite Hid. exact Hn. }
  exists (ID n'), st. split.
  - unfold graph.Copy.
    cbn [graph.Nodes graph.From graph.Edge_ graph.AddNode graph.SetEdge
         DirectedGraph_Graph DirectedGraph_Builder].
    rewrite (DG_Nodes_wf src Hws).
    unfold bind at 1. unfold graph.lift at 1.
    unfold bind at 1. rewrite E. reflexivity.
  - apply DG_Has_true. apply (DG_node_list_elem src n' Hws) in Hin. eauto.
Qed.

Lemma Copy_directed_collision_witness :
  exists id st,
    graph.Copy (DG_reached maxInt64 [CallSetEdge edge_0_1] 0 0)
               (DG_reached maxInt64 [CallAddNode (mkNode 1 0)] 0 0)
    = Panic (NodeIDCollision id) st /\
    DG.Has id (DG_reached maxInt64 [CallSetEdge edge_0_1] 0 0) = true.
Proof.
  apply (Copy_directed_collision maxInt64 [CallSetEdge edge_0_1] 0 0
           (DG_reached maxInt64 [CallAddNode (mkNode 1 0)] 0 0) 1).
  - vm_compute. reflexivity.
  - vm_compute. reflexivity.
Defined.

(** ** [Edges()] of the sparse stores *)

Section SparseEdges.

Lemma NoDup_map_values (inner : gmap Z Edge) :
  (forall v e, inner !! v = Some e -> ID (T e) = v) -> NoDup (map_to_list inner).*2.
Proof.
  intros H. apply NoDup_fmap_2_strong; [|apply NoDup_map_to_list].
  intros [v e] [v' e'] Hin Hin' Heq. simpl in Heq. subst e'.
  apply elem_of_map_to_list in Hin, Hin'.
  rewrite <- (H _ _ Hin), <- (H _ _ Hin'). reflexivity.
Qed.

Lemma NoDup_join_by_From (f : Node -> list Edge) (l : list Node) :
  NoDup (ID <$> l) ->
  (forall u, u ∈ l -> NoDup (f u)) ->
  (forall u e, u ∈ l -> e ∈ f u -> ID (F e) = ID u) ->
  NoDup (mjoin (f <$> l)).
Proof.
  induction l as [|u l IH]; intros Hnd Hf Hk; [apply NoDup_nil_2|].
  rewrite fmap_cons in Hnd. apply NoDup_cons in Hnd. destruct Hnd as [Hu Hnd].
  rewrite fmap_cons. simpl. apply NoDup_app. split; [|split].
  - apply Hf. apply elem_of_cons. left. reflexivity.
  - intros e He Hin. apply list_elem_of_join in Hin. destruct Hin as (es & He' & Hes).
    apply list_elem_of_fmap in Hes. destruct Hes as (u' & -> & Hu').
    apply Hu. apply list_elem_of_fmap. exists u'. split; [|exact Hu'].
    rewrite <- (Hk u e); [|apply elem_of_cons; left; reflexivity|exact He].
    apply Hk; [apply elem_of_cons; right; exact Hu'|exact He'].
  - apply IH; [exact Hnd| |].
    + intros u' Hu'. apply Hf. apply elem_of_cons. right. exact Hu'.
    + intros u' e Hu'. apply Hk. apply elem_of_cons. right. exact Hu'.
Qed.

End SparseEdges.

(** X27.  In every reached state of the directed store, [Edges()] returns
    every stored edge exactly once: the list has no duplicate, and an edge
    is in it exactly when [Edge] of its end points returns it. *)
Theorem DG_Edges_lists_each_edge_once (maxInt : Z) (cs : list call) (s a : float) :
  NoDup (DG.Edges (DG_reached maxInt cs s a)) /\
  (forall e, e ∈ DG.Edges (DG_reached maxInt cs s a) <->
             DG.Edge_ (ID (F e)) (ID (T e)) (DG_reached maxInt cs s a) = Some e).
Proof.
  pose proof (DG_reached_wf maxInt cs s a) as Hw.
  set (g := DG_reached maxInt cs s a) in *.
  pose proof Hw as (Hi & Hn & He & _).
  assert (forall u e,
            e ∈ match DG.from g !! ID u with
                | Some inner => (map_to_list inner).*2
                | None => []
                end <-> exists v, lookup2 (DG.from g) (ID u) v = Some e) as Hval.
  { intros u e. unfold lookup2. destruct (DG.from g !! ID u) as [inner|].
    - rewrite list_elem_of_fmap. split.
      + intros ([v e'] & -> & Hin). apply elem_of_map_to_list in Hin. eauto.
      + intros [v Hv]. exists (v, e). split; [reflexivity|].
        apply elem_of_map_to_list. exact Hv.
    - split; [intros H; apply elem_of_nil in H; destruct H|intros [? ?]; discriminate]. }
  split.
  - unfold DG.Edges. apply NoDup_join_by_From.
    + rewrite (DG_node_list_ids g Hw). apply NoDup_fst_map_to_list.
    + intros u _. destruct (DG.from g !! ID u) as [inner|] eqn:E; [|apply NoDup_nil_2].
      apply NoDup_map_values. intros v e Hv.
      apply (He (ID u) v e). unfold lookup2. rewrite E. exact Hv.
    + intros u e _ Hin. apply Hval in Hin. destruct Hin as [v Hv].
      apply (He _ _ _ Hv).
  - intros e. rewrite (DG_Edge_lookup2 g _ _ Hw). unfold DG.Edges.
    rewrite list_elem_of_join. split.
    + intros (es & Hin & Hes). apply list_elem_of_fmap in Hes.
      destruct Hes as (u & -> & Hu). apply Hval in Hin. destruct Hin as [v Hv].
      destruct (He _ _ _ Hv) as (HF & HT & _). rewrite HF, HT. exact Hv.
    + intros Hv. destruct (DG_edge_nodes g _ _ e Hi Hv) as [[n Hnu] _].
      pose proof (Hn _ _ Hnu) as Hid. eexists. split.
      * apply (Hval n). exists (ID (T e)). rewrite Hid. exact Hv.
      * apply list_elem_of_fmap. exists n. split; [reflexivity|].
        apply (DG_node_list_elem g n Hw). rewrite Hid. exact Hnu.
Qed.

Section UndirectedEdges.
Implicit Types (e : Edge) (es acc : list Edge) (seen : gset (Z * Z)).

(** Two edges join the same pair of ids, in one order or the other. *)
Definition same_ends e e' : Prop :=
  ID (F e) = ID (F e') /\ ID (T e) = ID (T e') \/
  ID (F e) = ID (T e') /\ ID (T e) = ID (F e').

(** What [seen] and the edges emitted so far have to do with each other. *)
Definition seen_inv seen acc : Prop :=
  (forall e, e ∈ acc -> (ID (F e), ID (T e)) ∈ seen) /\
  (forall p, p ∈ seen ->
     exists e, e ∈ acc /\ (p = (ID (F e), ID (T e)) \/ p = (ID (T e), ID (F e)))) /\
  NoDup acc.

Lemma Edges_loop_spec es seen acc :
  seen_inv seen acc ->
  (forall e e', e ∈ acc ++ es -> e' ∈ acc ++ es -> same_ends e e' -> e = e') ->
  NoDup (UG.Edges_loop es seen acc) /\
  (forall e, e ∈ UG.Edges_loop es seen acc <-> e ∈ acc \/ e ∈ es).
Proof.
  revert seen acc. induction es as [|e0 es IH]; intros seen acc (H1 & H2 & H3) Huniq.
  - simpl. split; [exact H3|]. intros e. split; [auto|].
    intros [H|H]; [exact H|]. apply elem_of_nil in H. destruct H.
  - simpl. destruct (decide ((ID (F e0), ID (T e0)) ∈ seen)) as [Hin|Hnin].
    + assert (e0 ∈ acc) as He0.
      { destruct (H2 _ Hin) as (e' & He' & Hp).
        assert (e' = e0) as <-; [|exact He'].
        apply Huniq.
        - apply elem_of_app. left. exact He'.
        - apply elem_of_app. right. apply elem_of_cons. left. reflexivity.
        - unfold same_ends. destruct Hp as [[= -> ->]|[= -> ->]]; tauto. }
      destruct (IH seen acc (conj H1 (conj H2 H3))) as [Hnd Hmem].
      { intros e e' He He'. apply Huniq.
        - apply elem_of_app in He. apply elem_of_app. destruct He as [He|He]; [tauto|].
          right. apply elem_of_cons. tauto.
        - apply elem_of_app in He'. apply elem_of_app. destruct He' as [He'|He']; [tauto|].
          right. apply elem_of_cons. tauto. }
      split; [exact Hnd|]. intros e. rewrite Hmem, elem_of_cons.
      split; [tauto|]. intros [H|[->|H]]; tauto.
    + destruct (IH ({[(ID (T e0), ID (F e0))]} ∪ ({[(ID (F e0), ID (T e0))]} ∪ seen))
                  (acc ++ [e0])) as [Hnd Hmem].
      { split; [|split].
        - intros e He. apply elem_of_app in He. destruct He as [He|He].
          + apply elem_of_union. right. apply elem_of_union. right. apply H1. exact He.
          + apply list_elem_of_singleton in He. subst e.
            apply elem_of_union. right. apply elem_of_union. left.
            apply elem_of_singleton. reflexivity.
        - intros p Hp. apply elem_of_union in Hp. destruct Hp as [Hp|Hp].
          + apply elem_of_singleton in Hp. exists e0. split; [|tauto].
            apply elem_of_app. right. apply list_elem_of_singleton. reflexivity.
          + apply elem_of_union in Hp. destruct Hp as [Hp|Hp].
            * apply elem_of_singleton in Hp. exists e0. split; [|tauto].
              apply elem_of_app. right. apply list_elem_of_singleton. reflexivity.
            * destruct (H2 _ Hp) as (e' & He' & Hq). exists e'. split; [|exact Hq].
              apply elem_of_app. left. exact He'.
        - apply NoDup_app. split; [exact H3|]. split; [|apply NoDup_singleton].
          intros e He Hs. apply list_elem_of_singleton in Hs. subst e.
          apply Hnin. apply H1. exact He. }
      { intros e e' He He'. apply Huniq.
        - rewrite <- app_assoc in He. exact He.
        - rewrite <- app_assoc in He'. exact He'. }
      split; [exact Hnd|]. intros e.
      rewrite Hmem, elem_of_app, list_elem_of_singleton, elem_of_cons. tauto.
Qed.

End UndirectedEdges.

(** X28.  In every reached state of the undirected store, [Edges()] returns
    every stored edge exactly once, although the store files it under both
    of its end points: the list has no duplicate, no two edges of the list
    join the same pair of ids, and an edge is in the list exactly when
    [EdgeBetween] of its end points returns it. *)
Theorem UG_Edges_lists_each_edge_once (maxInt : Z) (cs : list call) (s a : float) :
  NoDup (UG.Edges (UG_reached maxInt cs s a)) /\
  (forall e e', e ∈ UG.Edges (UG_reached maxInt cs s a) ->
                e' ∈ UG.Edges (UG_reached maxInt cs s a) ->
                same_ends e e' -> e = e') /\
  (forall e, e ∈ UG.Edges (UG_reached maxInt cs s a) <->
             UG.EdgeBetween (ID (F e)) (ID (T e)) (UG_reached maxInt cs s a) = Some e).
Proof.
  pose proof (UG_reached_wf maxInt cs s a) as Hw.
  set (g := UG_reached maxInt cs s a) in *.
  pose proof Hw as (Hk & Hm & Hn & He & _).
  set (L := mjoin ((fun u : gmap Z Edge => (map_to_list u).*2)
                     <$> (map_to_list (UG.edges g)).*2)).
  assert (forall e, e ∈ L <-> lookup2 (UG.edges g) (ID (F e)) (ID (T e)) = Some e) as HL.
  { intros e. unfold L. rewrite list_elem_of_join. split.
    - intros (es & Hin & Hes). apply list_elem_of_fmap in Hes.
      destruct Hes as (inner & -> & Hinner). apply list_elem_of_fmap in Hinner.
      destruct Hinner as ([u inner'] & -> & Hu). apply elem_of_map_to_list in Hu.
      apply list_elem_of_fmap in Hin. destruct Hin as ([v e'] & -> & Hv).
      apply elem_of_map_to_list in Hv. simpl in *.
      assert (lookup2 (UG.edges g) u v = Some e') as Huv
        by (unfold lookup2; rewrite Hu; exact Hv).
      destruct (He _ _ _ Huv) as [[[-> ->]|[-> ->]] _]; [exact Huv|].
      rewrite Hm. exact Huv.
    - intros Hv. unfold lookup2 in Hv.
      destruct (UG.edges g !! ID (F e)) as [inner|] eqn:Hu; [|discriminate].
      exists ((map_to_list inner).*2). split.
      + apply list_elem_of_fmap. exists (ID (T e), e). split; [reflexivity|].
        apply elem_of_map_to_list. exact Hv.
      + apply list_elem_of_fmap. exists inner. split; [reflexivity|].
        apply list_elem_of_fmap. exists (ID (F e), inner). split; [reflexivity|].
        apply elem_of_map_to_list. exact Hu. }
  assert (forall e e', e ∈ L -> e' ∈ L -> same_ends e e' -> e = e') as Huniq.
  { intros e e' Hin Hin' Hs. apply HL in Hin, Hin'.
    destruct Hs as [[H1 H2]|[H1 H2]].
    - rewrite H1, H2, Hin' in Hin. congruence.
    - rewrite H1, H2, Hm, Hin' in Hin. congruence. }
  destruct (Edges_loop_spec L ∅ []) as [Hnd Hmem].
  { split; [|split; [|apply NoDup_nil_2]].
    - intros e H. apply elem_of_nil in H. destruct H.
    - intros p H. apply not_elem_of_empty in H. destruct H. }
  { exact Huniq. }
  change (UG.Edges_loop L ∅ []) with (UG.Edges g) in Hnd, Hmem.
  assert (forall e, e ∈ UG.Edges g <-> e ∈ L) as Hmem'.
  { intros e. rewrite Hmem. split; [|tauto].
    intros [H|H]; [apply elem_of_nil in H; destruct H|exact H]. }
  split; [exact Hnd|]. split.
  - intros e e' Hin Hin'. apply Huniq; apply Hmem'; assumption.
  - intros e. rewrite Hmem', HL, (UG_EdgeBetween_lookup2 g _ _ Hw). reflexivity.
Qed.

(** ** Dense stores bound to given nodes *)

Section DenseFromNodes.
Implicit Types (ns : list Node) (i : Z).




End DenseFromNodes.




(** ** The token table of the DOT parser
    (encoding/dot/dotparser/internal/token/token.go) *)

Module token.

(** [type Type int], with [INVALID] and [EOF] its first two values. *)
Definition INVALID : Z := 0.
Definition EOF : Z := 1.

Record TokenMap : Type := mkTokenMap {
  typeMap : list string;
  idMap : gmap string Z
}.

(** [Id(tok)]: indexing [typeMap] with a negative [tok] panics. *)
Definition Id (this : TokenMap) (tok : Z) : panic + string :=
  if decide (tok < Z.of_nat (length (typeMap this)))
  then if decide (0 <= tok)
       then match typeMap this !! Z.to_nat tok with
            | Some s => inr s
            | None => inl IndexOutOfRange
            end
       else inl IndexOutOfRange
  else inr "unknown"%string.

(** [Type(tok)] *)
Definition Type_ (this : TokenMap) (tok : string) : Z :=
  match idMap this !! tok with
  | Some typ => typ
  | None => INVALID
  end.

(** The pairs of the literal of [TokMap.idMap]. *)
Definition idMap_literal : list (string * Z) :=
  [("INVALID", 0); ("$", 1); ("{", 2); ("}", 3); ("empty", 4); ("strict", 5);
   ("graphx", 6); ("digraph", 7); (";", 8); ("--", 9); ("->", 10); ("node", 11);
   ("edge", 12); ("[", 13); ("]", 14); (",", 15); ("=", 16); ("subgraph", 17);
   (":", 18); ("id", 19)]%string.

Definition TokMap : TokenMap :=
  mkTokenMap
    ["INVALID"; "$"; "{"; "}"; "empty"; "strict"; "graphx"; "digraph"; ";"; "--";
     "->"; "node"; "edge"; "["; "]"; ","; "="; "subgraph"; ":"; "id"]%string
    (list_to_map idMap_literal).

End token.

(** X30.  The two tables of [TokMap] are inverse to each other: for every
    token type t from 0 to 19 [Id(t)] is a string whose [Type] is t, and for
    every string s of the id table [Id(Type(s))] is s.  For every token map,
    [Id] of a type past the end of the table is "unknown", [Id] of a
    negative type panics with an index out of range, and [Type] of a string
    that is not in the table is [INVALID]. *)
Theorem token_TokMap_round_trip :
  (forall t, 0 <= t < 20 ->
     exists s, token.Id token.TokMap t = inr s /\ token.Type_ token.TokMap s = t) /\
  (forall s t, token.idMap token.TokMap !! s = Some t ->
     token.Type_ token.TokMap s = t /\ token.Id token.TokMap t = inr s) /\
  (forall (this : token.TokenMap) t,
     Z.of_nat (length (token.typeMap this)) <= t -> token.Id this t = inr "unknown"%string) /\
  (forall (this : token.TokenMap) t, t < 0 -> token.Id this t = inl IndexOutOfRange) /\
  (forall (this : token.TokenMap) s,
     token.idMap this !! s = None -> token.Type_ this s = token.INVALID).
Proof.
  split; [|split; [|split; [|split]]].
  - intros t Ht. assert (exists k : nat, t = Z.of_nat k /\ (k < 20)%nat) as (k & -> & Hk).
    { exists (Z.to_nat t). lia. }
    do 20 (destruct k as [|k]; [eexists; split; vm_compute; reflexivity|]). lia.
  - intros s t H. unfold token.Type_. rewrite H. split; [reflexivity|].
    apply elem_of_list_to_map_2 in H. unfold token.idMap_literal in H.
    repeat (apply elem_of_cons in H; destruct H as [[= -> ->]|H]; [vm_compute; reflexivity|]).
    apply elem_of_nil in H. destruct H.
  - intros this t Ht. unfold token.Id. rewrite decide_False by lia. reflexivity.
  - intros this t Ht. unfold token.Id. rewrite decide_True by lia.
    rewrite decide_False by lia. reflexivity.
  - intros this s H. unfold token.Type_. rewrite H. reflexivity.
Qed.

Lemma token_TokMap_round_trip_witness :
  exists s, token.Id token.TokMap 10 = inr s /\ token.Type_ token.TokMap s = 10.
Proof. apply (proj1 token_TokMap_round_trip 10). lia. Defined.

(** Witnesses of X8 and X17: removing an edge that is not there. *)
Lemma DG_RemoveEdge_effect_witness :
  DG.RemoveEdge (mkEdge (mkNode 1 0) (mkNode 0 0) 1)
                (DG_reached maxInt64 [CallSetEdge edge_0_1] 0 0)
  = Ok tt (DG_reached maxInt64 [CallSetEdge edge_0_1] 0 0).
Proof.
  destruct (DG_RemoveEdge_effect maxInt64 [CallSetEdge edge_0_1] 0 0
              (mkEdge (mkNode 1 0) (mkNode 0 0) 1)) as (g' & E & _ & _ & Hsame).
  rewrite E. f_equal. apply Hsame. vm_compute. reflexivity.
Defined.

Lemma UG_RemoveEdge_effect_witness :
  UG.RemoveEdge (mkEdge (mkNode 1 0) (mkNode 2 0) 1)
                (UG_reached maxInt64 [CallSetEdge edge_0_1] 0 0)
  = Ok tt (UG_reached maxInt64 [CallSetEdge edge_0_1] 0 0).
Proof.
  destruct (UG_RemoveEdge_effect maxInt64 [CallSetEdge edge_0_1] 0 0
              (mkEdge (mkNode 1 0) (mkNode 2 0) 1)) as (g' & E & _ & _ & Hsame).
  rewrite E. f_equal. apply Hsame. vm_compute. reflexivity.
Defined.
